(** * Stack<T>: a shallow embedding of [stack.hh] and its proofs

    The class [Stack<T>] owns a buffer obtained from [new T[n]], addresses it
    through two raw pointers ([_base], [_pointer]) and signals overflow and
    underflow with exceptions.  The embedding keeps all three: a block-structured
    heap with released blocks, pointers as (block, offset) pairs, and a state
    monad whose outcomes are normal return, a thrown exception (the state at
    the throw is kept, as C++ does not roll back) or undefined behaviour.

    The repository holds two revisions of the class: [src/C++/stack.hh], whose
    indices are [unsigned] and [int], and a later [Stack.hh], whose indices are
    [size_t] and [long long].  The model is indexed by the revision; the
    revisions differ in the integer widths, in the loop counter of [roll] and in
    the byte count passed to [memcpy] by [allocate]. *)

From stdpp Require Import base list numbers.
From Stdlib Require Import ZArith Lia.

Local Open Scope Z_scope.

(** ** Machine integers *)

Module Int.

Inductive revision : Set :=
  | rev_unsigned   (* src/C++/stack.hh: unsigned, int *)
  | rev_size_t.    (* Stack.hh: size_t, long long *)

(** Width of the index type ([unsigned] or [size_t]). *)
Definition index_bits (r : revision) : Z :=
  match r with rev_unsigned => 32 | rev_size_t => 64 end.

(** Width of the loop counter of [roll] ([int] or [long long]). *)
Definition counter_bits (r : revision) : Z :=
  match r with rev_unsigned => 32 | rev_size_t => 64 end.

(** Conversion to an unsigned type of [w] bits. *)
Definition to_unsigned (w z : Z) : Z := z mod 2 ^ w.

(** Conversion to a signed type of [w] bits (two's complement). *)
Definition to_signed (w z : Z) : Z := (z + 2 ^ (w - 1)) mod 2 ^ w - 2 ^ (w - 1).

(** Unary minus on a signed type of [w] bits; negating the least value
    overflows, which is undefined. *)
Definition neg_signed (w z : Z) : option Z :=
  if z =? - 2 ^ (w - 1) then None else Some (- z).

Definition to_index (r : revision) (z : Z) : Z := to_unsigned (index_bits r) z.
Definition to_size_t (z : Z) : Z := to_unsigned 64 z.
Definition to_int (z : Z) : Z := to_signed 32 z.

End Int.

(** ** Memory, pointers and the monad of method bodies *)

Module Mem.
Import Int.

Section Memory.
Context {T : Type}.

(** A slot of a [T] array: holding a value, or indeterminate (fresh from
    [new T[n]], or only partly written by [memcpy]). *)
Inductive cell : Type :=
  | Indet
  | Val (x : T).

(** The heap: block [b] is [Some cells] while allocated and [None] once
    released by [delete[]].  Block numbers are never reused. *)
Definition heap : Type := list (option (list cell)).

Inductive ptr : Set :=
  | Null
  | Ptr (b : nat) (off : Z).

Definition ptr_add (p : ptr) (k : Z) : ptr :=
  match p with
  | Null => Null
  | Ptr b off => Ptr b (off + k)
  end.

(** [p - q] on pointers: defined inside one array, and for two null pointers. *)
Definition ptr_diff (p q : ptr) : option Z :=
  match p, q with
  | Null, Null => Some 0
  | Ptr b i, Ptr b' j => if decide (b = b') then Some (i - j) else None
  | _, _ => None
  end.

Definition is_null (p : ptr) : bool :=
  match p with Null => true | Ptr _ _ => false end.

(** The data members of a [Stack<T>] object. *)
Record Stack : Type := mkStack {
  _base : ptr;
  _pointer : ptr;
  _capacity : Z
}.

(** The state seen by a method: the object [*this] and the heap. *)
Record state : Type := mkState {
  self : Stack;
  mem : heap
}.

Inductive exn : Set :=
  | overflow_error
  | underflow_error
  | bad_array_new_length
  | bad_alloc.

Inductive outcome (A : Type) : Type :=
  | Ret (a : A) (st : state)
  | Throw (e : exn) (st : state)
  | Undefined.

Definition M (A : Type) : Type := state -> outcome A.

Definition ret {A} (a : A) : M A := fun st => Ret A a st.
Definition throw {A} (e : exn) : M A := fun st => Throw A e st.
Definition undefined {A} : M A := fun _ => Undefined A.

Definition bind {A B} (m : M A) (k : A -> M B) : M B :=
  fun st =>
    match m st with
    | Ret _ a st' => k a st'
    | Throw _ e st' => Throw B e st'
    | Undefined _ => Undefined B
    end.

Definition get_base : M ptr := fun st => Ret _ (_base (self st)) st.
Definition get_pointer : M ptr := fun st => Ret _ (_pointer (self st)) st.
Definition get_capacity : M Z := fun st => Ret _ (_capacity (self st)) st.

Definition set_base (p : ptr) : M unit := fun st =>
  Ret _ tt (mkState (mkStack p (_pointer (self st)) (_capacity (self st))) (mem st)).
Definition set_pointer (p : ptr) : M unit := fun st =>
  Ret _ tt (mkState (mkStack (_base (self st)) p (_capacity (self st))) (mem st)).
Definition set_capacity (c : Z) : M unit := fun st =>
  Ret _ tt (mkState (mkStack (_base (self st)) (_pointer (self st)) c) (mem st)).

(** The slots of the allocated block [b]. *)
Definition block (h : heap) (b : nat) : option (list cell) :=
  match h !! b with
  | Some (Some cells) => Some cells
  | _ => None
  end.

(** [*p] as an rvalue of type [T]: the block must be allocated, the offset
    inside it and the slot must hold a value. *)
Definition load (p : ptr) : M T := fun st =>
  match p with
  | Null => Undefined _
  | Ptr b off =>
      match block (mem st) b with
      | Some cells =>
          if off <? 0 then Undefined _
          else match cells !! Z.to_nat off with
               | Some (Val x) => Ret _ x st
               | _ => Undefined _
               end
      | None => Undefined _
      end
  end.

(** [*p = x]. *)
Definition store (p : ptr) (x : T) : M unit := fun st =>
  match p with
  | Null => Undefined _
  | Ptr b off =>
      match block (mem st) b with
      | Some cells =>
          if (off <? 0) || (Z.of_nat (length cells) <=? off) then Undefined _
          else Ret _ tt
                 (mkState (self st)
                    (<[b := Some (<[Z.to_nat off := Val x]> cells)]> (mem st)))
      | None => Undefined _
      end
  end.

(** The allocator, as the program sees it: [grants h bytes] tells whether
    [operator new[]] gives [bytes] bytes when the heap is [h].  It is a
    parameter of the model: what it answers depends on the machine. *)
Class Allocator : Type := {
  grants : heap -> Z -> bool
}.

Variable sizeofT : Z.
Context `{!Allocator}.

(** [new T[n]] returns for a request of [n] slots on the heap [h]: the
    array is smaller than [2^63] bytes ([PTRDIFF_MAX], the largest array the
    implementation makes) and the allocator grants it. *)
Definition allocates (h : heap) (n : Z) : bool :=
  (n * sizeofT <? 2 ^ 63) && grants h (n * sizeofT).

(** [new T[n]]: throws [std::bad_array_new_length] when the array would
    have [2^63] bytes or more and [std::bad_alloc] when the allocator does not
    grant the request, before anything is changed; otherwise a fresh block of
    [n] indeterminate slots. *)
Definition new_array (n : Z) : M ptr := fun st =>
  if 2 ^ 63 <=? n * sizeofT then Throw _ bad_array_new_length st
  else if grants (mem st) (n * sizeofT)
  then Ret _ (Ptr (length (mem st)) 0)
         (mkState (self st) (mem st ++ [Some (replicate (Z.to_nat n) Indet)]))
  else Throw _ bad_alloc st.

(** What [new T[n]] throws when it does not return. *)
Definition refusal (n : Z) : exn :=
  if 2 ^ 63 <=? n * sizeofT then bad_array_new_length else bad_alloc.

(** [delete[] p]: nothing for the null pointer; otherwise [p] must be the
    base of an allocated block, which is released. *)
Definition delete_array (p : ptr) : M unit := fun st =>
  match p with
  | Null => Ret _ tt st
  | Ptr b off =>
      match block (mem st) b with
      | Some _ =>
          if off =? 0 then Ret _ tt (mkState (self st) (<[b := None]> (mem st)))
          else Undefined _
      | None => Undefined _
      end
  end.

(** The slots of [dst] after [nbytes] bytes of [src] were copied over its
    beginning: [nbytes / sizeof(T)] whole slots, then one slot of which only
    some bytes were written when [nbytes] is not a multiple of [sizeof(T)]
    (indeterminate as a [T]), then the rest of [dst]. *)
Definition copy_bytes (dst src : list cell) (nbytes : Z) : list cell :=
  let whole := Z.to_nat (nbytes / sizeofT) in
  if nbytes mod sizeofT =? 0
  then take whole src ++ drop whole dst
  else take whole src ++ Indet :: drop (S whole) dst.

(** [std::memcpy(dst, src, nbytes)], both pointers at the base of their
    arrays (as at both call sites): the arrays must be allocated, distinct and
    large enough. *)
Definition memcpy (dst src : ptr) (nbytes : Z) : M unit := fun st =>
  match dst, src with
  | Ptr d 0, Ptr s 0 =>
      match block (mem st) d, block (mem st) s with
      | Some dcells, Some scells =>
          if decide (d = s) then Undefined _
          else if (Z.of_nat (length dcells) * sizeofT <? nbytes)
                  || (Z.of_nat (length scells) * sizeofT <? nbytes)
          then Undefined _
          else Ret _ tt
                 (mkState (self st)
                    (<[d := Some (copy_bytes dcells scells nbytes)]> (mem st)))
      | _, _ => Undefined _
      end
  | _, _ => Undefined _
  end.

(** Runs the body of a method on another object [obj] (a local variable or
    an object passed by reference) over the current heap; yields the result
    and the object's final members, and leaves [*this] as it was. *)
Definition on_object {A} (obj : Stack) (body : M A) : M (A * Stack) := fun st =>
  match body (mkState obj (mem st)) with
  | Ret _ a st' => Ret _ (a, self st') (mkState (self st) (mem st'))
  | Throw _ e st' => Throw _ e (mkState (self st) (mem st'))
  | Undefined _ => Undefined _
  end.

End Memory.

Arguments cell : clear implicits.
Arguments heap : clear implicits.
Arguments Allocator : clear implicits.
Arguments state : clear implicits.
Arguments outcome : clear implicits.
Arguments M : clear implicits.
Arguments Ret {T A} a st.
Arguments Throw {T A} e st.
Arguments Undefined {T A}.

Notation "'let*' x ':=' m 'in' k" := (bind m (fun x => k))
  (at level 10, x name, m at level 100, k at level 200).
Notation "m ';;' k" := (bind m (fun _ => k))
  (at level 100, k at level 200, right associativity).

End Mem.

(** ** The methods of [Stack<T>] *)

Module Stack.
Import Int Mem.

(** The argument of [push(const T &x)]: a reference to a value of the caller
    or to a slot of the buffer.  The referenced value is read inside [push],
    after its overflow test. *)
Inductive operand (T : Type) : Type :=
  | Imm (x : T)
  | At (p : ptr).
Arguments Imm {T} x.
Arguments At {T} p.

Section Methods.
Context {T : Type} `{!Allocator T}.
Variable sizeofT : Z.
Variable rev : revision.

Local Abbreviation M := (Mem.M T).

Definition read (x : operand T) : M T :=
  match x with
  | Imm v => ret v
  | At p => load p
  end.

(** [size()]: [(unsigned)(this->_pointer - this->_base)]. *)
Definition size : M Z := fun st =>
  match ptr_diff (_pointer (self st)) (_base (self st)) with
  | Some d => Ret (to_index rev d) st
  | None => Undefined
  end.

(** [capacity()]. *)
Definition capacity : M Z := get_capacity.

(** The body of [push], for either kind of argument. *)
Definition push_ref (x : operand T) : M unit :=
  let* s := size in
  let* c := capacity in
  if s >=? c then throw overflow_error
  else
    let* v := read x in
    let* p := get_pointer in
    store p v;;
    set_pointer (ptr_add p 1).

(** [push(x)] with [x] a value of the caller. *)
Definition push (x : T) : M unit := push_ref (Imm x).

(** [pop()]. *)
Definition pop : M T :=
  let* s := size in
  if s <=? 0 then throw underflow_error
  else
    let* p := get_pointer in
    set_pointer (ptr_add p (-1));;
    load (ptr_add p (-1)).

(** [pick(n)]: the index is [-(int)(n+1)] in both revisions. *)
Definition pick (n : Z) : M unit :=
  let* s := size in
  if s <=? n then throw underflow_error
  else
    match neg_signed 32 (to_int (to_index rev (n + 1))) with
    | None => undefined
    | Some i =>
        let* p := get_pointer in
        push_ref (At (ptr_add p i))
    end.

(** [drop()]. *)
Definition drop : M unit := pop;; ret tt.

(** One pass of the body of the loop of [roll] per remaining iteration:
    [this->_pointer[i] = this->_pointer[i+1]], then [++i]. *)
Fixpoint roll_loop (count : nat) (i : Z) : M unit :=
  match count with
  | O => ret tt
  | S count' =>
      let* p := get_pointer in
      let* v := load (ptr_add p (i + 1)) in
      store (ptr_add p i) v;;
      roll_loop count' (i + 1)
  end.

(** [roll(n)]: the counter starts at [-(int)(n+2)] ([-(long long)(n+2)] in
    the later revision) and the loop runs while [i <= -2], that is
    [-1 - i] times from its first value [i] (no time when [i > -2]). *)
Definition roll (n : Z) : M unit :=
  pick n;;
  match neg_signed (counter_bits rev)
          (to_signed (counter_bits rev) (to_index rev (n + 2))) with
  | None => undefined
  | Some i => roll_loop (Z.to_nat (-1 - i)) i
  end;;
  drop.

(** [peek()]. *)
Definition peek : M T :=
  let* x := pop in
  push x;;
  ret x.

Definition dup : M unit := pick 0.
Definition swap : M unit := roll 1.
Definition over : M unit := pick 1.
Definition rot : M unit := roll 2.
Definition nip : M unit := swap;; drop.
Definition tuck : M unit := swap;; over.

(** [clear()]. *)
Definition clear : M unit :=
  let* b := get_base in
  set_pointer b.

(** The third argument of [memcpy] in [allocate].  In [stack.hh] the product
    with [sizeof(T)] belongs to the else branch of the conditional only; the
    later revision parenthesises the conditional. *)
Definition allocate_bytes (capacity size : Z) : Z :=
  match rev with
  | rev_unsigned =>
      if capacity >? size then size else to_size_t (capacity * sizeofT)
  | rev_size_t =>
      to_size_t ((if capacity >? size then size else capacity) * sizeofT)
  end.

(** [allocate(size)]. *)
Definition allocate (size_ : Z) : M unit :=
  let* memory := new_array sizeofT size_ in
  let* offset := size in
  let* b := get_base in
  (if is_null b then ret tt
   else
     let* c := get_capacity in
     memcpy sizeofT memory b (allocate_bytes c size_);;
     delete_array b);;
  set_base memory;;
  set_pointer (ptr_add memory offset);;
  set_capacity size_.

(** The constructor [Stack(size)]. *)
Definition construct (size_ : Z) : M unit :=
  set_base Null;;
  set_pointer Null;;
  set_capacity 0;;
  allocate size_.

(** The destructor. *)
Definition destruct_ : M unit :=
  let* b := get_base in
  delete_array b.

(** The members of a local object before its constructor has run; the
    constructor assigns all three before it reads any. *)
Definition raw_object : Mem.Stack := mkStack Null Null 0.

(** [copy()]: the local [stack] is the returned object (no copy is made of
    it on return). *)
Definition copy : M Mem.Stack :=
  let* c := capacity in
  let* r := on_object raw_object (construct c) in
  let stack := snd r in
  let* b := get_base in
  memcpy sizeofT (_base stack) b (to_size_t (c * sizeofT));;
  let* s := size in
  ret (mkStack (_base stack) (ptr_add (_pointer stack) s) (_capacity stack)).

(** [operator=(stack)].  The members of [*this] are assigned only after
    [stack.copy()] has returned, so when [stack] is [*this] itself the aliasing
    shows through the heap alone and [stack] may be passed by its members.
    The local [copy] is destroyed when the function returns. *)
Definition assign (stack : Mem.Stack) : M unit :=
  let* b := get_base in
  (if is_null b then ret tt else delete_array b);;
  let* r := on_object stack copy in
  let copy_ := fst r in
  set_base (_base copy_);;
  set_pointer (_pointer copy_);;
  set_capacity (_capacity copy_);;
  let* r' := on_object copy_ destruct_ in
  ret tt.

End Methods.

(** Batches used by the laws: pushing a list of values in order, popping
    [k] values (first popped first), and peeking [k] times. *)
Fixpoint push_all {T} (rev : revision) (vs : list T) : Mem.M T unit :=
  match vs with
  | [] => ret tt
  | v :: vs' => push rev v;; push_all rev vs'
  end.

Fixpoint pop_n {T} (rev : revision) (k : nat) : Mem.M T (list T) :=
  match k with
  | O => ret []
  | S k' =>
      let* x := pop rev in
      let* xs := pop_n rev k' in
      ret (x :: xs)
  end.

Fixpoint peek_n {T} (rev : revision) (k : nat) : Mem.M T (list T) :=
  match k with
  | O => ret []
  | S k' =>
      let* x := peek rev in
      let* xs := peek_n rev k' in
      ret (x :: xs)
  end.

(** A new stack object on the heap [h]: [Stack<T> s(n)]. *)
Definition new_stack {T} `{!Allocator T} (sizeofT : Z) (rev : revision) (n : Z)
    (h : heap T) : outcome T unit :=
  construct sizeofT rev n (mkState raw_object h).

(** The copy constructor [Stack(const Stack &stack)], which runs
    [operator=] on members that no constructor has assigned: [junk] is
    whatever the storage of the new object holds. *)
Definition copy_construct {T} `{!Allocator T} (sizeofT : Z) (rev : revision)
    (junk stack : Mem.Stack) (h : heap T) : outcome T unit :=
  assign sizeofT rev stack (mkState junk h).

End Stack.

(** ** Abstraction: the sequence of values a stack holds *)

Module StackSpec.
Import Int Mem.

Section Representation.
Context {T : Type}.

(** The state of a stack whose buffer is block [b] of the heap [h], with
    [k] slots in use out of [cap]. *)
Definition state_of (h : heap T) (b : nat) (k cap : Z) : state T :=
  mkState (mkStack (Ptr b 0) (Ptr b k) cap) h.

(** [Repr rev st cap l]: in [st] the stack has capacity [cap] and holds the
    values [l], bottom first (the top is the last one): its buffer is an
    allocated block of [cap] slots, [_base] is the base of the block,
    [_pointer] is [length l] slots further, and the slots below [_pointer]
    hold the values of [l]. *)
Definition Repr (rev : revision) (st : state T) (cap : Z) (l : list T) : Prop :=
  exists (b : nat) (h : heap T) (rest : list (cell T)),
    st = state_of h b (Z.of_nat (length l)) cap /\
    block h b = Some (map Val l ++ rest) /\
    Z.of_nat (length l) + Z.of_nat (length rest) = cap /\
    cap < 2 ^ index_bits rev.

(** The numeric invariant alone: [size()] is defined and at most the
    capacity. *)
Definition size_le_capacity (rev : revision) (st : state T) : Prop :=
  exists s : Z, Stack.size rev st = Ret s st /\ 0 <= s <= _capacity (self st).

(** The members agree with each other and with the buffer on the sizes:
    [_base] is the base of a block, [_pointer] is [k] slots further with
    [0 <= k <= _capacity], and the block, as long as it is allocated, has
    [_capacity] slots.  Nothing is said of the values in the slots. *)
Definition well_sized (rev : revision) (st : state T) : Prop :=
  exists (b : nat) (k cap : Z),
    self st = mkStack (Ptr b 0) (Ptr b k) cap /\
    0 <= k <= cap /\ cap < 2 ^ index_bits rev /\
    forall cells, block (mem st) b = Some cells -> Z.of_nat (length cells) = cap.

(** [m], started in [st], completes in [st']: it returns there or throws
    there.  A call whose behaviour is undefined completes nowhere. *)
Definition completes_in {A} (m : M T A) (st st' : state T) : Prop :=
  (exists a, m st = Ret a st') \/ (exists e, m st = Throw e st').

(** [m] keeps [well_sized] wherever it completes. *)
Definition keeps_well_sized {A} (rev : revision) (m : M T A) : Prop :=
  forall st st', well_sized rev st -> completes_in m st st' -> well_sized rev st'.

(** The slots of the buffer of the stack, when [_base] is the base of an
    allocated block. *)
Definition buffer (st : state T) : option (list (cell T)) :=
  match _base (self st) with
  | Ptr b 0 => block (mem st) b
  | _ => None
  end.

(** [m] either returns in a state that represents a stack of capacity
    [cap], or throws with the state unchanged. *)
Definition ends_represented {A} (rev : revision) (m : M T A)
    (st : state T) (cap : Z) : Prop :=
  (exists a st' l', m st = Ret a st' /\ Repr rev st' cap l') \/
  (exists e, m st = Throw e st).

(** [m] throws [underflow_error] in [st]. *)
Definition underflows {A} (m : M T A) (st : state T) : Prop :=
  exists st', m st = Throw underflow_error st'.

(** Whatever [m] throws in [st], the state at the throw is [st] itself:
    the members of [*this] and the whole heap are as before the call. *)
Definition atomic {A} (m : M T A) (st : state T) : Prop :=
  forall (e : exn) (st' : state T), m st = Throw e st' -> st' = st.

(** The element at depth [n] of [l] (depth 0 is the top, the last of [l]). *)
Definition at_depth (l : list T) (n : nat) : option T := reverse l !! n.

End Representation.

Section Frames.
Context {T : Type}.

(** Every block of [h] other than [b] is the same in [h']. *)
Definition other_blocks_kept (b : nat) (h h' : heap T) : Prop :=
  forall b', b' <> b -> block h' b' = block h b'.

(** Every allocated block of [h'] is a block of [h] with as many slots. *)
Definition lengths_kept (h h' : heap T) : Prop :=
  forall b cells', block h' b = Some cells' ->
    exists cells, block h b = Some cells /\ length cells' = length cells.

(** The block number of the buffer of an object. *)
Definition base_block (s : Stack) : option nat :=
  match _base s with
  | Ptr b 0 => Some b
  | _ => None
  end.

(** [m], [k] times in a row. *)
Fixpoint repeat_op (k : nat) (m : M T unit) : M T unit :=
  match k with
  | O => ret tt
  | S k' => m;; repeat_op k' m
  end.

End Frames.

(** ** The states a program can reach *)

Section Reachability.
Context {T : Type} `{!Allocator T}.
Variable sizeofT : Z.
Variable rev : revision.

(** One call of a public method on the object of [st] that completes in
    [st']: it returned or it threw, and the caller goes on with the object.
    The arguments are those the parameter types admit; [allocate(n)] is
    called with [n] at least the size. *)
Inductive call : state T -> state T -> Prop :=
  | call_push x st st' : completes_in (Stack.push rev x) st st' -> call st st'
  | call_pop st st' : completes_in (Stack.pop rev) st st' -> call st st'
  | call_peek st st' : completes_in (Stack.peek rev) st st' -> call st st'
  | call_pick n st st' : completes_in (Stack.pick rev n) st st' -> call st st'
  | call_roll n st st' : completes_in (Stack.roll rev n) st st' -> call st st'
  | call_dup st st' : completes_in (Stack.dup rev) st st' -> call st st'
  | call_drop st st' : completes_in (Stack.drop rev) st st' -> call st st'
  | call_swap st st' : completes_in (Stack.swap rev) st st' -> call st st'
  | call_over st st' : completes_in (Stack.over rev) st st' -> call st st'
  | call_rot st st' : completes_in (Stack.rot rev) st st' -> call st st'
  | call_nip st st' : completes_in (Stack.nip rev) st st' -> call st st'
  | call_tuck st st' : completes_in (Stack.tuck rev) st st' -> call st st'
  | call_clear st st' : completes_in Stack.clear st st' -> call st st'
  | call_size st st' : completes_in (Stack.size rev) st st' -> call st st'
  | call_capacity st st' : completes_in Stack.capacity st st' -> call st st'
  | call_allocate n s st st' :
      0 <= n < 2 ^ index_bits rev ->
      Stack.size rev st = Ret s st -> s <= n ->
      completes_in (Stack.allocate sizeofT rev n) st st' -> call st st'
  | call_copy st st' :
      completes_in (Stack.copy sizeofT rev) st st' -> call st st'.

(** The states of the stack objects of a program: an object is made by the
    constructor [Stack(n)], by the copy constructor (whatever the storage of
    the new object held), or as the result of [copy()]; it is then used
    through calls of its methods and as the destination of copy-assignments
    from other objects of the same heap (or from itself); and in between the
    program may do to the rest of the heap what it wants, as long as it
    leaves the block of the object alone. *)
Inductive reachable : state T -> Prop :=
  | reach_construct h n st :
      0 <= n < 2 ^ index_bits rev ->
      Stack.new_stack sizeofT rev n h = Ret tt st ->
      reachable st
  | reach_copy_construct junk src h st :
      reachable (mkState src h) ->
      Stack.copy_construct sizeofT rev junk src h = Ret tt st ->
      reachable st
  | reach_copied c st st' :
      reachable st ->
      Stack.copy sizeofT rev st = Ret c st' ->
      reachable (mkState c (mem st'))
  | reach_call st st' :
      reachable st -> call st st' -> reachable st'
  | reach_assign src st st' :
      reachable st -> reachable (mkState src (mem st)) ->
      completes_in (Stack.assign sizeofT rev src) st st' ->
      reachable st'
  | reach_frame o h h' b :
      reachable (mkState o h) ->
      base_block o = Some b -> block h' b = block h b ->
      reachable (mkState o h').

End Reachability.

(** The allocator of the concrete inputs: it grants every request of at
    most [2^30] bytes. *)
#[global] Instance roomy : Allocator Z := {| grants := fun _ bytes => bytes <=? 2 ^ 30 |}.

(** Stacks of [int] (four bytes) used as concrete inputs. *)
Definition int_stack (rev : revision) (cap : Z) (vs : list Z) : outcome Z unit :=
  match Stack.new_stack 4 rev cap [] with
  | Ret _ st => Stack.push_all rev vs st
  | o => o
  end.

Definition state_after {A} (o : outcome Z A) : state Z :=
  match o with
  | Ret _ st => st
  | Throw _ st => st
  | Undefined => mkState Stack.raw_object []
  end.

Definition int_state (rev : revision) (cap : Z) (vs : list Z) : state Z :=
  state_after (int_stack rev cap vs).

End StackSpec.

(** * Proofs *)

Module StackProofs.
Import Int Mem StackSpec.

(** ** Machine integers *)

Lemma to_index_small (rev : revision) (z : Z) :
  0 <= z < 2 ^ index_bits rev -> to_index rev z = z.
Proof. intros Hz. unfold to_index, to_unsigned. apply Z.mod_small, Hz. Qed.

Lemma to_signed_small (w z : Z) :
  0 < w -> 0 <= z < 2 ^ (w - 1) -> to_signed w z = z.
Proof.
  intros Hw Hz. unfold to_signed.
  assert (H2 : 2 ^ w = 2 * 2 ^ (w - 1)).
  { replace w with (Z.succ (w - 1)) at 1 by lia. apply Z.pow_succ_r. lia. }
  rewrite Z.mod_small by lia. lia.
Qed.

Lemma neg_signed_small (w z : Z) :
  0 < w -> 0 <= z -> neg_signed w z = Some (- z).
Proof.
  intros Hw Hz. unfold neg_signed.
  assert (0 < 2 ^ (w - 1)) by (apply Z.pow_pos_nonneg; lia).
  destruct (Z.eqb_spec z (- 2 ^ (w - 1))); [lia | reflexivity].
Qed.

(** The index computed by [pick]: [-(int)(n+1)] is [-(n+1)] while [n+1]
    fits [int]. *)
Lemma pick_index (rev : revision) (n : Z) :
  0 <= n -> n + 1 < 2 ^ 31 ->
  neg_signed 32 (to_int (to_index rev (n + 1))) = Some (- (n + 1)).
Proof.
  intros Hn Hlt.
  rewrite to_index_small by (destruct rev; simpl; lia).
  unfold to_int. rewrite to_signed_small by (simpl; lia).
  apply neg_signed_small; lia.
Qed.

(** The first value of the counter of [roll]. *)
Lemma roll_index (rev : revision) (n : Z) :
  0 <= n -> n + 2 < 2 ^ 31 ->
  neg_signed (counter_bits rev)
    (to_signed (counter_bits rev) (to_index rev (n + 2))) = Some (- (n + 2)).
Proof.
  intros Hn Hlt.
  rewrite to_index_small by (destruct rev; simpl; lia).
  rewrite to_signed_small by (destruct rev; simpl; lia).
  apply neg_signed_small; destruct rev; simpl; lia.
Qed.

(** ** The monad *)

Section Monad.
Context {T : Type}.

Lemma bind_Ret {A B} (m : M T A) (k : A -> M T B) (st st' : state T) (a : A) :
  m st = Ret a st' -> bind m k st = k a st'.
Proof. intros H. unfold bind. rewrite H. reflexivity. Qed.

Lemma bind_Throw {A B} (m : M T A) (k : A -> M T B) (st st' : state T) (e : exn) :
  m st = Throw e st' -> bind m k st = Throw e st'.
Proof. intros H. unfold bind. rewrite H. reflexivity. Qed.

Lemma bind_Undefined {A B} (m : M T A) (k : A -> M T B) (st : state T) :
  m st = Undefined -> bind m k st = Undefined.
Proof. intros H. unfold bind. rewrite H. reflexivity. Qed.

(** A thrown exception comes from the first part or from the second. *)
Lemma bind_Ret_inv {A B} (m : M T A) (k : A -> M T B) (st st' : state T) (b : B) :
  bind m k st = Ret b st' ->
  exists a st1, m st = Ret a st1 /\ k a st1 = Ret b st'.
Proof.
  unfold bind. destruct (m st) as [a st1|e st1|]; intros H; try discriminate H.
  exists a, st1. auto.
Qed.

Lemma bind_Throw_inv {A B} (m : M T A) (k : A -> M T B) (st st' : state T) (e : exn) :
  bind m k st = Throw e st' ->
  m st = Throw e st' \/ exists a st1, m st = Ret a st1 /\ k a st1 = Throw e st'.
Proof.
  unfold bind. destruct (m st) as [a st1|e1 st1|]; intros H.
  - right. exists a, st1. auto.
  - left. inversion H. reflexivity.
  - discriminate H.
Qed.

End Monad.

(** ** Memory *)

Section MemoryLemmas.
Context {T : Type}.
Implicit Types (h : heap T) (cells pre post : list (cell T)).

Lemma block_Some h b cells :
  block h b = Some cells <-> h !! b = Some (Some cells).
Proof.
  unfold block. destruct (h !! b) as [[c|]|]; split; intros H;
    try discriminate H; congruence.
Qed.

Lemma block_lt h b cells : block h b = Some cells -> (b < length h)%nat.
Proof. rewrite block_Some. apply lookup_lt_Some. Qed.

Lemma block_insert_eq h b (o : option (list (cell T))) :
  (b < length h)%nat ->
  block (<[b := o]> h) b = o.
Proof.
  intros Hb. unfold block, heap in *. rewrite list_lookup_insert_eq by exact Hb.
  destruct o; reflexivity.
Qed.

Lemma block_insert_ne h b b' (o : option (list (cell T))) :
  b <> b' -> block (<[b := o]> h) b' = block h b'.
Proof.
  intros Hb. unfold block, heap in *.
  rewrite list_lookup_insert_ne by exact Hb. reflexivity.
Qed.

Lemma block_app_l h h' b cells :
  block h b = Some cells -> block (h ++ h') b = Some cells.
Proof.
  intros H. pose proof (block_lt _ _ _ H) as Hlt. revert H.
  unfold block, heap in *. rewrite lookup_app_l by exact Hlt. auto.
Qed.

Lemma block_app_new h cells : block (h ++ [Some cells]) (length h) = Some cells.
Proof.
  unfold block, heap in *. rewrite list_lookup_middle by reflexivity. reflexivity.
Qed.

Lemma insert_middle pre post (c c' : cell T) :
  <[length pre := c']> (pre ++ c :: post) = pre ++ c' :: post.
Proof. induction pre as [|a pre IH]; simpl; [reflexivity | f_equal; exact IH]. Qed.

Lemma load_block h b cells (s : Stack) (off : Z) (x : T) :
  block h b = Some cells -> 0 <= off ->
  cells !! Z.to_nat off = Some (Val x) ->
  load (Ptr b off) (mkState s h) = Ret x (mkState s h).
Proof.
  intros Hb Hoff Hx. unfold load. simpl. rewrite Hb.
  destruct (Z.ltb_spec off 0); [lia|]. rewrite Hx. reflexivity.
Qed.

Lemma store_block h b cells (s : Stack) (off : Z) (x : T) :
  block h b = Some cells -> 0 <= off < Z.of_nat (length cells) ->
  exists h',
    store (Ptr b off) x (mkState s h) = Ret tt (mkState s h') /\
    block h' b = Some (<[Z.to_nat off := Val x]> cells) /\
    length h' = length h /\
    (forall b', b <> b' -> block h' b' = block h b').
Proof.
  intros Hb Hoff. eexists. unfold store. simpl. rewrite Hb.
  destruct (Z.ltb_spec off 0); [lia|].
  destruct (Z.leb_spec (Z.of_nat (length cells)) off); [lia|]. simpl.
  split; [reflexivity|]. split; [|split].
  - apply block_insert_eq. eapply block_lt, Hb.
  - apply length_insert.
  - intros b' Hne. apply block_insert_ne, Hne.
Qed.

(** Neither [load] nor [store] throws, and neither touches [*this]. *)
Lemma load_no_throw (p : ptr) (st st' : state T) (e : exn) :
  load p st <> Throw e st'.
Proof.
  unfold load. destruct p as [|b off]; [discriminate|].
  destruct (block (mem st) b); [|discriminate].
  destruct (off <? 0); [discriminate|].
  destruct (_ !! _) as [[|x]|]; discriminate.
Qed.

Lemma load_Ret (p : ptr) (st st' : state T) (x : T) :
  load p st = Ret x st' -> st' = st.
Proof.
  unfold load. destruct p as [|b off]; [discriminate|].
  destruct (block (mem st) b); [|discriminate].
  destruct (off <? 0); [discriminate|].
  destruct (_ !! _) as [[|y]|]; try discriminate. congruence.
Qed.

Lemma store_no_throw (p : ptr) (x : T) (st st' : state T) (e : exn) :
  store p x st <> Throw e st'.
Proof.
  unfold store. destruct p as [|b off]; [discriminate|].
  destruct (block (mem st) b); [|discriminate].
  destruct (_ || _); discriminate.
Qed.

Lemma store_Ret_self (p : ptr) (x : T) (st st' : state T) :
  store p x st = Ret tt st' -> self st' = self st.
Proof.
  unfold store. destruct p as [|b off]; [discriminate|].
  destruct (block (mem st) b); [|discriminate].
  destruct (_ || _); [discriminate|]. intros H. inversion H. reflexivity.
Qed.

End MemoryLemmas.

(** ** The basic operations on an explicit state *)

Section Operations.
Context {T : Type}.
Variable rev : revision.
Implicit Types (h : heap T) (cells pre mid post : list (cell T)).

Lemma size_state_of h b k cap :
  0 <= k < 2 ^ index_bits rev ->
  Stack.size rev (state_of h b k cap) = Ret k (state_of h b k cap).
Proof.
  intros Hk. unfold Stack.size, state_of. simpl.
  rewrite decide_True by reflexivity.
  rewrite Z.sub_0_r, to_index_small by exact Hk. reflexivity.
Qed.

Lemma capacity_state_of h b k cap :
  Stack.capacity (state_of h b k cap) = Ret cap (state_of h b k cap).
Proof. reflexivity. Qed.

(** [size()] and [capacity()] never throw and never change the state. *)
Lemma size_Ret (st st' : state T) (s : Z) :
  Stack.size rev st = Ret s st' -> st' = st.
Proof.
  unfold Stack.size. destruct (ptr_diff _ _); [|discriminate]. congruence.
Qed.

Lemma size_no_throw (st st' : state T) (e : exn) :
  Stack.size rev st <> Throw e st'.
Proof. unfold Stack.size. destruct (ptr_diff _ _); discriminate. Qed.

(** [push] on a full stack: [overflow_error], nothing changed. *)
Lemma push_ref_full h b k cap (x : Stack.operand T) :
  0 <= k < 2 ^ index_bits rev -> cap <= k ->
  Stack.push_ref rev x (state_of h b k cap)
  = Throw overflow_error (state_of h b k cap).
Proof.
  intros Hk Hfull. unfold Stack.push_ref.
  rewrite (bind_Ret _ _ _ _ _ (size_state_of h b k cap Hk)).
  rewrite (bind_Ret _ _ _ _ _ (capacity_state_of h b k cap)).
  destruct (Z.geb_spec k cap); [reflexivity | lia].
Qed.

(** [push] with room left: the value is written over the first unused slot. *)
Lemma push_ref_room h b k cap (x : Stack.operand T) (v : T) pre (c : cell T) post :
  block h b = Some (pre ++ c :: post) ->
  k = Z.of_nat (length pre) ->
  k < cap -> cap < 2 ^ index_bits rev ->
  Stack.read x (state_of h b k cap) = Ret v (state_of h b k cap) ->
  exists h',
    Stack.push_ref rev x (state_of h b k cap) = Ret tt (state_of h' b (k + 1) cap) /\
    block h' b = Some (pre ++ Val v :: post) /\
    length h' = length h /\
    (forall b', b <> b' -> block h' b' = block h b').
Proof.
  intros Hb Hk Hroom Hcap Hread.
  destruct (store_block h b _ (mkStack (Ptr b 0) (Ptr b k) cap) k v Hb)
    as (h' & Hst & Hb' & Hlen & Hframe).
  { rewrite length_app. simpl. lia. }
  exists h'. split; [|split; [|split]]; try assumption.
  - unfold Stack.push_ref.
    rewrite (bind_Ret _ _ _ _ _ (size_state_of h b k cap ltac:(lia))).
    rewrite (bind_Ret _ _ _ _ _ (capacity_state_of h b k cap)).
    destruct (Z.geb_spec k cap); [lia|].
    rewrite (bind_Ret _ _ _ _ _ Hread).
    unfold state_of in *. unfold bind at 1. simpl.
    rewrite (bind_Ret _ _ _ _ _ Hst). reflexivity.
  - rewrite Hb'. subst k. rewrite Nat2Z.id. f_equal. apply insert_middle.
Qed.

(** [pop] on an empty stack: [underflow_error], nothing changed. *)
Lemma pop_empty h b cap :
  Stack.pop rev (state_of h b 0 cap) = Throw underflow_error (state_of h b 0 cap).
Proof.
  unfold Stack.pop.
  rewrite (bind_Ret _ _ _ _ _ (size_state_of h b 0 cap ltac:(destruct rev; simpl; lia))).
  reflexivity.
Qed.

(** [pop] on a stack that is not empty: [_pointer] moves down one slot and the
    value of that slot is returned; the heap is untouched. *)
Lemma pop_top h b k cap pre (x : T) post :
  block h b = Some (pre ++ Val x :: post) ->
  k = Z.of_nat (length pre) + 1 ->
  k < 2 ^ index_bits rev ->
  Stack.pop rev (state_of h b k cap) = Ret x (state_of h b (k - 1) cap).
Proof.
  intros Hb Hk Hlt. unfold Stack.pop.
  rewrite (bind_Ret _ _ _ _ _ (size_state_of h b k cap ltac:(lia))).
  destruct (Z.leb_spec k 0); [lia|].
  unfold state_of. unfold bind at 1. simpl. unfold bind. simpl.
  replace (k + -1) with (k - 1) by lia.
  apply (load_block h b _ _ (k - 1) x Hb); [lia|].
  apply list_lookup_middle. lia.
Qed.

End Operations.

Section Positional.
Context {T : Type}.
Variable rev : revision.
Implicit Types (h : heap T) (cells pre mid post : list (cell T)).

(** [pick(n)] with room left, on an explicit buffer: the slot [n] below the
    top is copied over the first unused slot. *)
Lemma pick_room h b k cap (n : Z) pre (x : T) mid (c : cell T) post :
  block h b = Some (pre ++ Val x :: mid ++ c :: post) ->
  n = Z.of_nat (length mid) ->
  k = Z.of_nat (length pre) + 1 + n ->
  k < cap -> cap < 2 ^ index_bits rev -> n + 1 < 2 ^ 31 ->
  exists h',
    Stack.pick rev n (state_of h b k cap) = Ret tt (state_of h' b (k + 1) cap) /\
    block h' b = Some (pre ++ Val x :: mid ++ Val x :: post) /\
    length h' = length h /\
    (forall b', b <> b' -> block h' b' = block h b').
Proof.
  intros Hb Hn Hk Hroom Hcap Hint.
  destruct (push_ref_room rev h b k cap (Stack.At (Ptr b (k + - (n + 1)))) x
              (pre ++ Val x :: mid) c post) as (h' & Hpush & Hb' & Hrest).
  - rewrite <- app_assoc. exact Hb.
  - rewrite length_app. simpl. lia.
  - exact Hroom.
  - exact Hcap.
  - simpl. apply (load_block h b _ _ _ x Hb); [lia|].
    apply list_lookup_middle. lia.
  - exists h'. split; [|split]; [| |exact Hrest].
    + unfold Stack.pick.
      rewrite (bind_Ret _ _ _ _ _ (size_state_of rev h b k cap ltac:(lia))).
      destruct (Z.leb_spec k n); [lia|].
      rewrite pick_index by lia.
      unfold bind at 1. simpl. exact Hpush.
    + rewrite Hb', <- app_assoc. reflexivity.
Qed.

Lemma last_cons_default (l : list T) (a d : T) :
  List.last (a :: l) d = List.last l a.
Proof.
  revert a d. induction l as [|b l IH]; intros a d; [reflexivity|].
  change (List.last (a :: b :: l) d) with (List.last (b :: l) d).
  rewrite !IH. reflexivity.
Qed.

(** The loop of [roll] over the slots [y :: ys] that start [-i] slots below
    [_pointer]: each slot takes the value of the next one, so the run becomes
    [ys] followed by a second copy of its last value. *)
Lemma roll_loop_shift b cap (ys : list T) :
  forall h k (i : Z) pre (y : T) post,
    block h b = Some (pre ++ Val y :: map Val ys ++ post) ->
    k + i = Z.of_nat (length pre) ->
    exists h',
      Stack.roll_loop (length ys) i (state_of h b k cap) = Ret tt (state_of h' b k cap) /\
      block h' b = Some (pre ++ map Val ys ++ Val (List.last ys y) :: post) /\
      length h' = length h /\
      (forall b', b <> b' -> block h' b' = block h b').
Proof.
  induction ys as [|z ys IH]; intros h k i pre y post Hb Hi.
  - exists h. simpl. auto.
  - simpl in Hb.
    assert (Hload : load (ptr_add (Ptr b k) (i + 1)) (state_of h b k cap)
                    = Ret z (state_of h b k cap)).
    { apply (load_block h b _ _ _ z Hb); [lia|].
      replace (Z.to_nat (k + (i + 1))) with (S (length pre)) by lia.
      change (pre ++ Val y :: Val z :: map Val ys ++ post)
        with (pre ++ [Val y] ++ Val z :: map Val ys ++ post).
      rewrite app_assoc. apply list_lookup_middle.
      rewrite length_app. simpl. lia. }
    destruct (store_block h b _ (mkStack (Ptr b 0) (Ptr b k) cap) (k + i) z Hb)
      as (h1 & Hst & Hb1 & Hlen1 & Hframe1).
    { rewrite length_app. simpl. lia. }
    replace (Z.to_nat (k + i)) with (length pre) in Hb1 by lia.
    rewrite insert_middle in Hb1.
    destruct (IH h1 k (i + 1) (pre ++ [Val z]) z post) as (h' & Hloop & Hb' & Hlen' & Hframe').
    { rewrite <- app_assoc. exact Hb1. }
    { rewrite length_app. simpl. lia. }
    exists h'. split; [|split; [|split]].
    + cbn [Stack.roll_loop length].
      unfold bind at 1. cbn [get_pointer state_of self _pointer].
      rewrite (bind_Ret _ _ _ _ _ Hload).
      unfold state_of in *. cbn [ptr_add].
      rewrite (bind_Ret _ _ _ _ _ Hst). exact Hloop.
    + rewrite Hb', <- app_assoc, last_cons_default. reflexivity.
    + congruence.
    + intros b' Hne. rewrite Hframe', Hframe1 by exact Hne. reflexivity.
Qed.

(** The loop never throws and leaves [*this] alone. *)
Lemma roll_loop_no_throw (count : nat) :
  forall (i : Z) (st st' : state T) (e : exn),
    Stack.roll_loop count i st <> Throw e st'.
Proof.
  induction count as [|count IH]; intros i st st' e; simpl; [discriminate|].
  intros H. apply bind_Throw_inv in H as [H|(p & st1 & Hp & H)]; [discriminate H|].
  inversion Hp; subst p st1; clear Hp.
  apply bind_Throw_inv in H as [H|(v & st1 & Hv & H)]; [exact (load_no_throw _ _ _ _ H)|].
  apply bind_Throw_inv in H as [H|(u & st2 & Hu & H)]; [exact (store_no_throw _ _ _ _ _ H)|].
  exact (IH _ _ _ _ H).
Qed.

Lemma roll_loop_self (count : nat) :
  forall (i : Z) (st st' : state T),
    Stack.roll_loop count i st = Ret tt st' -> self st' = self st.
Proof.
  induction count as [|count IH]; intros i st st'; simpl.
  - intros H. inversion H. reflexivity.
  - unfold bind at 1. cbn [get_pointer].
    unfold bind at 1. destruct (load _ st) as [v st1| |] eqn:Hv; try discriminate.
    apply load_Ret in Hv. subst st1.
    unfold bind at 1. destruct (store _ v st) as [[] st2| |] eqn:Hs; try discriminate.
    apply store_Ret_self in Hs. intros H. apply IH in H. congruence.
Qed.

End Positional.

(** ** The operations on a represented stack *)

Section Specs.
Context {T : Type}.
Variable rev : revision.
Implicit Types (st : state T) (l below above : list T).

Lemma Repr_bounds st cap l :
  Repr rev st cap l ->
  0 <= Z.of_nat (length l) <= cap /\ cap < 2 ^ index_bits rev.
Proof. intros (b & h & rest & _ & _ & Hlen & Hcap). lia. Qed.

Lemma Repr_size st cap l :
  Repr rev st cap l -> Stack.size rev st = Ret (Z.of_nat (length l)) st.
Proof.
  intros (b & h & rest & -> & _ & Hlen & Hcap). apply size_state_of. lia.
Qed.

Lemma Repr_capacity st cap l :
  Repr rev st cap l -> Stack.capacity st = Ret cap st.
Proof. intros (b & h & rest & -> & _). reflexivity. Qed.

Lemma Repr_size_le_capacity st cap l :
  Repr rev st cap l -> size_le_capacity rev st.
Proof.
  intros HR. exists (Z.of_nat (length l)). split; [exact (Repr_size _ _ _ HR)|].
  destruct HR as (b & h & rest & -> & _ & Hlen & Hcap). simpl. lia.
Qed.

(** *** push *)

Lemma push_overflow st cap l (x : T) :
  Repr rev st cap l -> Z.of_nat (length l) = cap ->
  Stack.push rev x st = Throw overflow_error st.
Proof.
  intros (b & h & rest & -> & _ & Hlen & Hcap) Hfull.
  apply push_ref_full; lia.
Qed.

Lemma push_spec st cap l (x : T) :
  Repr rev st cap l -> Z.of_nat (length l) < cap ->
  exists st', Stack.push rev x st = Ret tt st' /\ Repr rev st' cap (l ++ [x]).
Proof.
  intros (b & h & rest & -> & Hb & Hlen & Hcap) Hroom.
  destruct rest as [|c post]; [simpl in Hlen; lia|].
  destruct (push_ref_room rev h b (Z.of_nat (length l)) cap (Stack.Imm x) x
              (map Val l) c post Hb)
    as (h' & Hpush & Hb' & _); try lia.
  { rewrite length_map. reflexivity. }
  { reflexivity. }
  exists (state_of h' b (Z.of_nat (length l) + 1) cap).
  split; [exact Hpush|].
  exists b, h', post. rewrite length_app, map_app. simpl in *.
  split; [f_equal; lia|]. split; [|lia].
  rewrite <- app_assoc. exact Hb'.
Qed.

(** *** pop *)

Lemma pop_underflow st cap :
  Repr rev st cap [] -> Stack.pop rev st = Throw underflow_error st.
Proof. intros (b & h & rest & -> & _). apply pop_empty. Qed.

Lemma pop_spec st cap l (x : T) :
  Repr rev st cap (l ++ [x]) ->
  exists st', Stack.pop rev st = Ret x st' /\ Repr rev st' cap l.
Proof.
  intros (b & h & rest & -> & Hb & Hlen & Hcap).
  rewrite length_app in *. rewrite map_app, <- app_assoc in Hb. simpl in *.
  exists (state_of h b (Z.of_nat (length l)) cap). split.
  - replace (state_of h b (Z.of_nat (length l)) cap)
      with (state_of h b (Z.of_nat (length l + 1) - 1) cap) by (f_equal; lia).
    apply (pop_top rev h b _ cap (map Val l) x rest Hb); [|lia].
    rewrite length_map. lia.
  - exists b, h, (Val x :: rest). simpl. repeat split; [exact Hb | lia | lia].
Qed.

(** Whatever the state, [pop] throws only [underflow_error], and before it
    has changed anything. *)
Lemma pop_Throw_inv st st' (e : exn) :
  Stack.pop rev st = Throw e st' -> st' = st /\ e = underflow_error.
Proof.
  unfold Stack.pop. intros H.
  apply bind_Throw_inv in H as [H|(s & st1 & Hs & H)]; [destruct (size_no_throw _ _ _ _ H)|].
  apply size_Ret in Hs as ->.
  destruct (s <=? 0); [inversion H; auto|].
  apply bind_Throw_inv in H as [H|(p & st1 & Hp & H)]; [discriminate H|].
  apply bind_Throw_inv in H as [H|(u & st2 & Hu & H)]; [discriminate H|].
  destruct (load_no_throw _ _ _ _ H).
Qed.

(** *** peek *)

Lemma store_same (h : heap T) b (cells : list (cell T)) (s : Stack) (off : Z) (x : T) :
  block h b = Some cells -> 0 <= off ->
  cells !! Z.to_nat off = Some (Val x) ->
  store (Ptr b off) x (mkState s h) = Ret tt (mkState s h).
Proof.
  intros Hb Hoff Hx. unfold store. simpl. rewrite Hb.
  pose proof (lookup_lt_Some _ _ _ Hx) as Hlt.
  destruct (Z.ltb_spec off 0); [lia|].
  destruct (Z.leb_spec (Z.of_nat (length cells)) off); [lia|]. simpl.
  rewrite (list_insert_id cells) by exact Hx.
  apply block_Some in Hb. unfold heap in *.
  rewrite (list_insert_id h) by exact Hb. reflexivity.
Qed.

Lemma peek_spec st cap l (x : T) :
  Repr rev st cap (l ++ [x]) -> Stack.peek rev st = Ret x st.
Proof.
  intros (b & h & rest & -> & Hb & Hlen & Hcap).
  rewrite length_app in *. rewrite map_app, <- app_assoc in Hb. simpl in *.
  set (k := Z.of_nat (length l + 1)) in *.
  assert (Hpop : Stack.pop rev (state_of h b k cap) = Ret x (state_of h b (k - 1) cap)).
  { apply (pop_top rev h b _ cap (map Val l) x rest Hb); [|lia].
    rewrite length_map. lia. }
  unfold Stack.peek. rewrite (bind_Ret _ _ _ _ _ Hpop).
  assert (Hpush : Stack.push rev x (state_of h b (k - 1) cap) = Ret tt (state_of h b k cap)).
  { unfold Stack.push, Stack.push_ref.
    rewrite (bind_Ret _ _ _ _ _ (size_state_of rev h b (k - 1) cap ltac:(lia))).
    rewrite (bind_Ret _ _ _ _ _ (capacity_state_of h b (k - 1) cap)).
    destruct (Z.geb_spec (k - 1) cap); [lia|].
    unfold bind at 1. simpl. unfold bind at 1. simpl.
    rewrite (bind_Ret _ _ _ _ _
               (store_same h b _ (mkStack (Ptr b 0) (Ptr b (k - 1)) cap) (k - 1) x Hb
                  ltac:(lia)
                  ltac:(apply list_lookup_middle; rewrite length_map; lia))).
    unfold set_pointer, state_of. simpl. do 4 f_equal. lia. }
  rewrite (bind_Ret _ _ _ _ _ Hpush). reflexivity.
Qed.

Lemma peek_underflow st cap :
  Repr rev st cap [] -> Stack.peek rev st = Throw underflow_error st.
Proof.
  intros HR. unfold Stack.peek.
  apply bind_Throw. apply (pop_underflow _ _ HR).
Qed.

End Specs.

(** ** [pick] and [roll] on a represented stack *)

Section PickRoll.
Context {T : Type}.
Variable rev : revision.
Implicit Types (st : state T) (l below above : list T).

(** Whatever the state, [push] throws only [overflow_error], only when the
    stack is full, and before it has changed anything. *)
Lemma push_ref_Throw_inv st st' (x : Stack.operand T) (e : exn) :
  Stack.push_ref rev x st = Throw e st' ->
  st' = st /\ e = overflow_error /\
  exists s, Stack.size rev st = Ret s st /\ _capacity (self st) <= s.
Proof.
  unfold Stack.push_ref. intros H.
  apply bind_Throw_inv in H as [H|(s & st1 & Hs & H)]; [destruct (size_no_throw _ _ _ _ H)|].
  pose proof (size_Ret _ _ _ _ Hs) as ->.
  apply bind_Throw_inv in H as [H|(c & st1 & Hc & H)]; [discriminate H|].
  inversion Hc; subst c st1; clear Hc.
  destruct (Z.geb_spec s (_capacity (self st))).
  - inversion H. subst. repeat split. exists s. split; [exact Hs | lia].
  - apply bind_Throw_inv in H as [H|(v & st1 & Hv & H)].
    + destruct x; [discriminate H | destruct (load_no_throw _ _ _ _ H)].
    + apply bind_Throw_inv in H as [H|(p & st2 & Hp & H)]; [discriminate H|].
      apply bind_Throw_inv in H as [H|(u & st3 & Hu & H)];
        [destruct (store_no_throw _ _ _ _ _ H) | discriminate H].
Qed.

(** When [push] returns, there was room and [_pointer] has moved up one slot. *)
Lemma push_ref_Ret_inv st st1 (x : Stack.operand T) :
  Stack.push_ref rev x st = Ret tt st1 ->
  self st1 = mkStack (_base (self st)) (ptr_add (_pointer (self st)) 1)
               (_capacity (self st)) /\
  exists s, Stack.size rev st = Ret s st /\ s < _capacity (self st).
Proof.
  unfold Stack.push_ref. unfold bind at 1.
  destruct (Stack.size rev st) as [s st0| |] eqn:Hs; try discriminate.
  pose proof (size_Ret _ _ _ _ Hs) as ->.
  unfold bind at 1. cbn [Stack.capacity get_capacity].
  destruct (Z.geb_spec s (_capacity (self st))) as [Hge|Hlt]; [discriminate|].
  unfold bind at 1.
  destruct (Stack.read x st) as [v st0| |] eqn:Hv; try discriminate.
  assert (st0 = st) as ->.
  { destruct x; simpl in Hv; [inversion Hv; reflexivity | exact (load_Ret _ _ _ _ Hv)]. }
  unfold bind at 1. cbn [get_pointer]. unfold bind at 1.
  destruct (store _ v st) as [[] st2| |] eqn:Hst; try discriminate.
  apply store_Ret_self in Hst. intros Hret. inversion Hret. subst st1. simpl.
  rewrite Hst. split; [reflexivity|]. exists s. split; [reflexivity | lia].
Qed.

Lemma pick_underflow st cap l (n : Z) :
  Repr rev st cap l -> Z.of_nat (length l) <= n ->
  Stack.pick rev n st = Throw underflow_error st.
Proof.
  intros HR Hn. unfold Stack.pick.
  rewrite (bind_Ret _ _ _ _ _ (Repr_size rev _ _ _ HR)).
  destruct (Z.leb_spec (Z.of_nat (length l)) n); [reflexivity | lia].
Qed.

Lemma pick_overflow st cap l (n : Z) :
  Repr rev st cap l -> 0 <= n < Z.of_nat (length l) -> n + 1 < 2 ^ 31 ->
  Z.of_nat (length l) = cap ->
  Stack.pick rev n st = Throw overflow_error st.
Proof.
  intros HR Hn Hint Hfull. unfold Stack.pick.
  rewrite (bind_Ret _ _ _ _ _ (Repr_size rev _ _ _ HR)).
  destruct (Z.leb_spec (Z.of_nat (length l)) n); [lia|].
  rewrite pick_index by lia.
  destruct HR as (b & h & rest & -> & _ & Hlen & Hcap).
  unfold bind at 1. simpl. apply push_ref_full; lia.
Qed.

(** A throw of [pick] leaves the state as it was; it is [underflow_error]
    when the stack is too shallow and [overflow_error] when it is full. *)
Lemma pick_Throw_cases st st' cap l (n : Z) (e : exn) :
  Repr rev st cap l -> Stack.pick rev n st = Throw e st' ->
  st' = st /\
  (e = underflow_error /\ Z.of_nat (length l) <= n \/
   e = overflow_error /\ n < Z.of_nat (length l) /\ Z.of_nat (length l) = cap).
Proof.
  intros HR. unfold Stack.pick.
  rewrite (bind_Ret _ _ _ _ _ (Repr_size rev _ _ _ HR)).
  destruct (Z.leb_spec (Z.of_nat (length l)) n) as [Hle|Hgt].
  - intros Hthrow. inversion Hthrow. auto.
  - destruct (neg_signed _ _) as [i|]; [|discriminate].
    unfold bind at 1. cbn [get_pointer]. intros Hthrow.
    apply push_ref_Throw_inv in Hthrow as (-> & -> & s & Hs & Hge).
    split; [reflexivity|]. right.
    rewrite (Repr_size rev _ _ _ HR) in Hs. inversion Hs; subst s.
    pose proof (Repr_bounds rev _ _ _ HR).
    pose proof (Repr_capacity rev _ _ _ HR) as Hc. inversion Hc as [Hc'].
    rewrite Hc' in Hge. repeat split; lia.
Qed.

(** [pick(n)] with room left: a copy of the value at depth [n] becomes the
    new top and nothing else changes. *)
Lemma pick_spec st cap below (x : T) above (n : Z) :
  Repr rev st cap (below ++ x :: above) ->
  n = Z.of_nat (length above) ->
  Z.of_nat (length (below ++ x :: above)) < cap ->
  n + 1 < 2 ^ 31 ->
  exists st',
    Stack.pick rev n st = Ret tt st' /\
    Repr rev st' cap ((below ++ x :: above) ++ [x]).
Proof.
  intros (b & h & rest & -> & Hb & Hlen & Hcap) Hn Hroom Hint.
  destruct rest as [|c post]; [simpl in Hlen; lia|].
  rewrite length_app in *. simpl in *.
  rewrite map_app, <- app_assoc in Hb. simpl in Hb.
  destruct (pick_room rev h b (Z.of_nat (length below + S (length above))) cap n
              (map Val below) x (map Val above) c post) as (h' & Hpick & Hb' & _);
    rewrite ?length_map; try lia.
  { exact Hb. }
  eexists. split; [exact Hpick|].
  exists b, h', post. rewrite !length_app, !map_app. simpl.
  split; [f_equal; lia|]. split; [|lia].
  rewrite Hb', <- !app_assoc. reflexivity.
Qed.

(** [roll(n)] with room left: the value at depth [n] leaves its slot and
    becomes the top; the values above it move down one slot each; the values
    below it stay. *)
Lemma roll_spec st cap below (x : T) above (n : Z) :
  Repr rev st cap (below ++ x :: above) ->
  n = Z.of_nat (length above) ->
  Z.of_nat (length (below ++ x :: above)) < cap ->
  n + 2 < 2 ^ 31 ->
  exists st',
    Stack.roll rev n st = Ret tt st' /\
    Repr rev st' cap (below ++ above ++ [x]).
Proof.
  intros (b & h & rest & -> & Hb & Hlen & Hcap) Hn Hroom Hint.
  destruct rest as [|c post]; [simpl in Hlen; lia|].
  rewrite length_app in *. simpl in *.
  set (k := Z.of_nat (length below + S (length above))) in *.
  rewrite map_app, <- app_assoc in Hb. simpl in Hb.
  destruct (pick_room rev h b k cap n
              (map Val below) x (map Val above) c post) as (h1 & Hpick & Hb1 & _);
    rewrite ?length_map; try lia.
  { exact Hb. }
  destruct (roll_loop_shift b cap (above ++ [x]) h1 (k + 1) (- (n + 2))
              (map Val below) x post) as (h2 & Hloop & Hb2 & _).
  { rewrite Hb1, map_app, <- app_assoc. reflexivity. }
  { rewrite length_map. lia. }
  rewrite last_last in Hb2.
  assert (Hpop : Stack.pop rev (state_of h2 b (k + 1) cap)
                 = Ret x (state_of h2 b (k + 1 - 1) cap)).
  { apply (pop_top rev h2 b (k + 1) cap (map Val below ++ map Val above ++ [Val x]) x post).
    - rewrite Hb2, map_app, <- !app_assoc. reflexivity.
    - rewrite !length_app, !length_map. simpl. lia.
    - lia. }
  eexists. split.
  - unfold Stack.roll. rewrite (bind_Ret _ _ _ _ _ Hpick).
    rewrite roll_index by lia.
    replace (Z.to_nat (-1 - - (n + 2))) with (length (above ++ [x]))
      by (rewrite length_app; simpl; lia).
    rewrite (bind_Ret _ _ _ _ _ Hloop).
    unfold Stack.drop. rewrite (bind_Ret _ _ _ _ _ Hpop). reflexivity.
  - exists b, h2, (Val x :: post). rewrite !length_app, !map_app. simpl.
    split; [f_equal; lia|]. split; [|lia].
    rewrite Hb2, map_app, <- !app_assoc. reflexivity.
Qed.

Lemma roll_underflow st cap l (n : Z) :
  Repr rev st cap l -> Z.of_nat (length l) <= n ->
  Stack.roll rev n st = Throw underflow_error st.
Proof.
  intros HR Hn. unfold Stack.roll. apply bind_Throw. exact (pick_underflow _ _ _ _ HR Hn).
Qed.

Lemma roll_overflow st cap l (n : Z) :
  Repr rev st cap l -> 0 <= n < Z.of_nat (length l) -> n + 1 < 2 ^ 31 ->
  Z.of_nat (length l) = cap ->
  Stack.roll rev n st = Throw overflow_error st.
Proof.
  intros HR Hn Hint Hfull. unfold Stack.roll. apply bind_Throw.
  exact (pick_overflow _ _ _ _ HR Hn Hint Hfull).
Qed.

End PickRoll.

(** ** Throws are atomic *)

Section Atomic.
Context {T : Type}.
Variable rev : revision.
Implicit Types (st : state T) (l below above : list T).

(** [size()] reads the members of [*this] only. *)
Lemma size_self st st' (s : Z) :
  self st' = self st -> Stack.size rev st = Ret s st -> Stack.size rev st' = Ret s st'.
Proof.
  unfold Stack.size. intros ->.
  destruct (ptr_diff _ _); [|discriminate]. intros H. inversion H. reflexivity.
Qed.

(** [pop] throws only on a size of zero. *)
Lemma pop_Throw_size st st' (e : exn) :
  Stack.pop rev st = Throw e st' -> exists s, Stack.size rev st = Ret s st /\ s <= 0.
Proof.
  unfold Stack.pop. unfold bind at 1.
  destruct (Stack.size rev st) as [s st0|e0 st0|] eqn:Hs;
    [|destruct (size_no_throw _ _ _ _ Hs)|discriminate].
  pose proof (size_Ret _ _ _ _ Hs) as ->.
  destruct (Z.leb_spec s 0) as [Hle|Hgt].
  - intros _. exists s. auto.
  - intros H.
    apply bind_Throw_inv in H as [H|(p & st1 & Hp & H)]; [discriminate H|].
    apply bind_Throw_inv in H as [H|(u & st2 & Hu & H)]; [discriminate H|].
    destruct (load_no_throw _ _ _ _ H).
Qed.

(** Every decomposition of a list at a depth below its length. *)
Lemma split_at_depth l (n : nat) :
  (n < length l)%nat ->
  exists below x above, l = below ++ x :: above /\ length above = n.
Proof.
  intros Hn.
  destruct (lookup_lt_is_Some_2 l (length l - S n)%nat ltac:(lia)) as [x Hx].
  exists (take (length l - S n)%nat l), x, (drop (S (length l - S n)) l).
  split.
  - symmetry. apply take_drop_middle, Hx.
  - rewrite length_drop. lia.
Qed.

(** A throw of [roll] leaves the state as it was: it comes from the tests of
    [pick], before anything is written. *)
Lemma roll_Throw_cases st st' cap l (n : Z) (e : exn) :
  Repr rev st cap l -> Stack.roll rev n st = Throw e st' ->
  st' = st /\
  (e = underflow_error /\ Z.of_nat (length l) <= n \/
   e = overflow_error /\ n < Z.of_nat (length l) /\ Z.of_nat (length l) = cap).
Proof.
  intros HR H. unfold Stack.roll in H.
  apply bind_Throw_inv in H as [H|([] & st1 & Hpick & H)];
    [exact (pick_Throw_cases rev _ _ _ _ _ _ HR H)|].
  exfalso.
  (* after the push of [pick], the size is positive *)
  assert (Hsize1 : Stack.size rev st1 = Ret (Z.of_nat (length l) + 1) st1).
  { unfold Stack.pick in Hpick.
    rewrite (bind_Ret _ _ _ _ _ (Repr_size rev _ _ _ HR)) in Hpick.
    destruct (_ <=? n); [discriminate|].
    destruct (neg_signed _ _) as [i|]; [|discriminate].
    unfold bind at 1 in Hpick. cbn [get_pointer] in Hpick.
    apply push_ref_Ret_inv in Hpick as (Hself & s & Hs & Hlt).
    rewrite (Repr_size rev _ _ _ HR) in Hs. inversion Hs; subst s.
    destruct HR as (b & h & rest & -> & _ & Hlen & Hcap).
    simpl in Hself, Hlt. unfold Stack.size. rewrite Hself. simpl.
    rewrite decide_True by reflexivity.
    rewrite to_index_small by lia. do 2 f_equal. lia. }
  apply bind_Throw_inv in H as [H|([] & st2 & Hloop & H)].
  - destruct (neg_signed _ _) as [i|]; [|discriminate H].
    exact (roll_loop_no_throw _ _ _ _ _ H).
  - destruct (neg_signed _ _) as [i|]; [|discriminate Hloop].
    apply roll_loop_self in Hloop.
    unfold Stack.drop in H.
    apply bind_Throw_inv in H as [H|(x & st3 & _ & H)]; [|discriminate H].
    apply pop_Throw_size in H as (s & Hs & Hle).
    rewrite (size_self _ _ _ Hloop Hsize1) in Hs. inversion Hs. lia.
Qed.

End Atomic.

(** ** Depths *)

Section Depths.
Context {T : Type}.
Implicit Types (l below above : list T).

Lemma at_depth_split below (x : T) above :
  at_depth (below ++ x :: above) (length above) = Some x.
Proof.
  unfold at_depth. rewrite reverse_app, reverse_cons, <- app_assoc.
  apply list_lookup_middle. rewrite length_reverse. reflexivity.
Qed.

Lemma at_depth_above below (x : T) above (d : nat) :
  (d < length above)%nat ->
  at_depth (below ++ x :: above) d = reverse above !! d.
Proof.
  intros Hd. unfold at_depth. rewrite reverse_app, reverse_cons, <- app_assoc.
  apply lookup_app_l. rewrite length_reverse. exact Hd.
Qed.

Lemma at_depth_below below (x : T) above (d : nat) :
  (length above < d)%nat ->
  at_depth (below ++ x :: above) d = reverse below !! (d - length above - 1)%nat.
Proof.
  intros Hd. unfold at_depth. rewrite reverse_app, reverse_cons, <- app_assoc.
  rewrite lookup_app_r by (rewrite length_reverse; lia).
  rewrite length_reverse.
  destruct (d - length above)%nat as [|k] eqn:Hk; [lia|].
  simpl. f_equal. lia.
Qed.

(** Depth by depth, what moving the value at depth [length above] to the top
    does. *)
Lemma at_depth_rolled below (x : T) above :
  let l := below ++ x :: above in
  let l' := below ++ above ++ [x] in
  let n := length above in
  length l' = length l /\
  at_depth l' 0 = at_depth l n /\
  (forall d, (d < n)%nat -> at_depth l' (S d) = at_depth l d) /\
  (forall d, (n < d)%nat -> at_depth l' d = at_depth l d).
Proof.
  simpl. split; [|split; [|split]].
  - rewrite !length_app. simpl. lia.
  - rewrite at_depth_split. unfold at_depth.
    rewrite app_assoc, reverse_app. reflexivity.
  - intros d Hd. rewrite at_depth_above by exact Hd. unfold at_depth.
    rewrite app_assoc, reverse_app, reverse_app. simpl.
    apply lookup_app_l. rewrite length_reverse. exact Hd.
  - intros d Hd. rewrite at_depth_below by exact Hd. unfold at_depth.
    rewrite app_assoc, reverse_app, reverse_app. simpl.
    destruct d as [|d]; [lia|]. simpl.
    rewrite lookup_app_r by (rewrite length_reverse; lia).
    rewrite length_reverse. f_equal. lia.
Qed.

End Depths.

(** Solves [Repr] on a closed state by evaluation. *)
Ltac repr_by_eval :=
  eexists _, _, _; split; [vm_compute; reflexivity|];
  split; [vm_compute; reflexivity|]; split; vm_compute; reflexivity.

(** ** Claims about [pick] and [roll] *)

Section PickRollClaims.
Context {T : Type}.
Variable rev : revision.
Implicit Types (st : state T) (l : list T).

(** C2, amended.  On a stack of size [s] and capacity [c], [pick(n)] (with
    [n + 1] in the range of [int]) throws [underflow_error] when [s <= n] and
    [overflow_error] when [n < s = c], leaving the stack unchanged in both
    cases; when [n < s < c] it pushes a copy of the value at depth [n], so the
    size grows by one and every other value stays.  It throws
    [underflow_error] exactly when [s <= n]. *)
Theorem C2_pick_cases st cap l (n : nat) :
  Repr rev st cap l ->
  Z.of_nat n + 1 < 2 ^ 31 ->
  ((length l <= n)%nat /\
     Stack.pick rev (Z.of_nat n) st = Throw underflow_error st
   \/ (n < length l)%nat /\ Z.of_nat (length l) = cap /\
     Stack.pick rev (Z.of_nat n) st = Throw overflow_error st
   \/ (n < length l)%nat /\ Z.of_nat (length l) < cap /\
     exists st' x,
       at_depth l n = Some x /\
       Stack.pick rev (Z.of_nat n) st = Ret tt st' /\
       Repr rev st' cap (l ++ [x]) /\
       Stack.size rev st' = Ret (Z.of_nat (length l) + 1) st')
  /\ ((exists st', Stack.pick rev (Z.of_nat n) st = Throw underflow_error st')
      <-> (length l <= n)%nat).
Proof.
  intros HR Hint.
  pose proof (Repr_bounds rev _ _ _ HR) as [Hlen Hcap].
  split.
  - destruct (Nat.le_gt_cases (length l) n) as [Hle|Hgt].
    { left. split; [exact Hle|]. apply (pick_underflow rev _ _ _ _ HR). lia. }
    right. destruct (Z.eq_dec (Z.of_nat (length l)) cap) as [Hfull|Hroom].
    { left. split; [exact Hgt|]. split; [exact Hfull|].
      apply (pick_overflow rev _ _ _ _ HR); lia. }
    right. split; [exact Hgt|]. split; [lia|].
    destruct (split_at_depth l n Hgt) as (below & x & above & -> & Hn).
    destruct (pick_spec rev st cap below x above (Z.of_nat n) HR) as (st' & Hpick & HR');
      [lia | lia | lia |].
    exists st', x. rewrite <- Hn at 1. rewrite at_depth_split.
    repeat split; try assumption.
    pose proof (Repr_size rev _ _ _ HR') as Hs.
    rewrite length_app, Nat2Z.inj_add in Hs. exact Hs.
  - split.
    + intros (st' & H).
      destruct (pick_Throw_cases rev _ _ _ _ _ _ HR H) as (_ & [[_ Hle]|[He _]]);
        [lia | discriminate He].
    + intros Hle. exists st. apply (pick_underflow rev _ _ _ _ HR). lia.
Qed.

(** C1, amended.  On a stack of size [s] and capacity [c], [roll(n)] (with
    [n + 2] in the range of [int]) throws [underflow_error] when [s <= n] and
    [overflow_error] when [n < s = c], leaving the stack unchanged in both
    cases; when [n < s < c] it brings the value at depth [n] to the top, moves
    every value that was above it one slot down, leaves the values below depth
    [n] where they were and leaves the size unchanged.  It throws
    [underflow_error] exactly when [s <= n]. *)
Theorem C1_roll_cases st cap l (n : nat) :
  Repr rev st cap l ->
  Z.of_nat n + 2 < 2 ^ 31 ->
  ((length l <= n)%nat /\
     Stack.roll rev (Z.of_nat n) st = Throw underflow_error st
   \/ (n < length l)%nat /\ Z.of_nat (length l) = cap /\
     Stack.roll rev (Z.of_nat n) st = Throw overflow_error st
   \/ (n < length l)%nat /\ Z.of_nat (length l) < cap /\
     exists st' l',
       Stack.roll rev (Z.of_nat n) st = Ret tt st' /\
       Repr rev st' cap l' /\
       length l' = length l /\
       at_depth l' 0 = at_depth l n /\
       (forall d, (d < n)%nat -> at_depth l' (S d) = at_depth l d) /\
       (forall d, (n < d)%nat -> at_depth l' d = at_depth l d))
  /\ ((exists st', Stack.roll rev (Z.of_nat n) st = Throw underflow_error st')
      <-> (length l <= n)%nat).
Proof.
  intros HR Hint.
  pose proof (Repr_bounds rev _ _ _ HR) as [Hlen Hcap].
  split.
  - destruct (Nat.le_gt_cases (length l) n) as [Hle|Hgt].
    { left. split; [exact Hle|]. apply (roll_underflow rev _ _ _ _ HR). lia. }
    right. destruct (Z.eq_dec (Z.of_nat (length l)) cap) as [Hfull|Hroom].
    { left. split; [exact Hgt|]. split; [exact Hfull|].
      apply (roll_overflow rev _ _ _ _ HR); lia. }
    right. split; [exact Hgt|]. split; [lia|].
    destruct (split_at_depth l n Hgt) as (below & x & above & -> & Hn).
    destruct (roll_spec rev st cap below x above (Z.of_nat n) HR) as (st' & Hroll & HR');
      [lia | lia | lia |].
    exists st', (below ++ above ++ [x]).
    split; [exact Hroll|]. split; [exact HR'|].
    rewrite <- Hn. apply at_depth_rolled.
  - split.
    + intros (st' & H).
      destruct (roll_Throw_cases rev _ _ _ _ _ _ HR H) as (_ & [[_ Hle]|[He _]]);
        [lia | discriminate He].
    + intros Hle. exists st. apply (roll_underflow rev _ _ _ _ HR). lia.
Qed.

End PickRollClaims.

(** C2 as stated fails on a full stack: with one [int] in a [Stack<int>] of
    capacity one, [pick(0)] has [s = 1 > 0] and yet pushes nothing; it throws
    [overflow_error]. *)
Lemma C2_pick_on_full_stack :
  let st := int_state rev_unsigned 1 [5] in
  Repr rev_unsigned st 1 [5] /\
  (0 < length [5])%nat /\
  Stack.pick rev_unsigned 0 st = Throw overflow_error st /\
  ~ (exists st', Stack.pick rev_unsigned 0 st = Ret tt st').
Proof.
  cbv zeta. split; [repr_by_eval|]. split; [simpl; lia|].
  split; [vm_compute; reflexivity|].
  intros (st' & H). vm_compute in H. discriminate H.
Qed.

(** C1 as stated fails on a full stack: with two values in a [Stack<int>] of
    capacity two, [roll(1)] has [s = 2 > 1] and yet throws
    [overflow_error]. *)
Lemma C1_roll_on_full_stack :
  let st := int_state rev_unsigned 2 [1; 2] in
  Repr rev_unsigned st 2 [1; 2] /\
  (1 < length [1; 2])%nat /\
  Stack.roll rev_unsigned 1 st = Throw overflow_error st /\
  ~ (exists st', Stack.roll rev_unsigned 1 st = Ret tt st').
Proof.
  cbv zeta. split; [repr_by_eval|]. split; [simpl; lia|].
  split; [vm_compute; reflexivity|].
  intros (st' & H). vm_compute in H. discriminate H.
Qed.

Lemma C2_pick_cases_witness :
  Repr rev_unsigned (int_state rev_unsigned 4 [1; 2; 3]) 4 [1; 2; 3] /\
  Z.of_nat 1 + 1 < 2 ^ 31 /\
  exists st' x,
    at_depth [1; 2; 3] 1 = Some x /\
    Stack.pick rev_unsigned 1 (int_state rev_unsigned 4 [1; 2; 3]) = Ret tt st' /\
    Repr rev_unsigned st' 4 ([1; 2; 3] ++ [x]) /\
    Stack.size rev_unsigned st' = Ret (Z.of_nat (length [1; 2; 3]) + 1) st'.
Proof.
  assert (HR : Repr rev_unsigned (int_state rev_unsigned 4 [1; 2; 3]) 4 [1; 2; 3])
    by repr_by_eval.
  assert (Hint : Z.of_nat 1 + 1 < 2 ^ 31) by (vm_compute; reflexivity).
  split; [exact HR|]. split; [exact Hint|].
  destruct (C2_pick_cases rev_unsigned _ 4 [1; 2; 3] 1 HR Hint)
    as [[(Hle & _)|[(_ & Hfull & _)|(_ & _ & H)]] _].
  - simpl in Hle. lia.
  - simpl in Hfull. lia.
  - exact H.
Defined.

Lemma C1_roll_cases_witness :
  Repr rev_unsigned (int_state rev_unsigned 4 [1; 2; 3]) 4 [1; 2; 3] /\
  Z.of_nat 2 + 2 < 2 ^ 31 /\
  exists st' l',
    Stack.roll rev_unsigned 2 (int_state rev_unsigned 4 [1; 2; 3]) = Ret tt st' /\
    Repr rev_unsigned st' 4 l' /\
    at_depth l' 0 = at_depth [1; 2; 3] 2.
Proof.
  assert (HR : Repr rev_unsigned (int_state rev_unsigned 4 [1; 2; 3]) 4 [1; 2; 3])
    by repr_by_eval.
  assert (Hint : Z.of_nat 2 + 2 < 2 ^ 31) by (vm_compute; reflexivity).
  split; [exact HR|]. split; [exact Hint|].
  destruct (C1_roll_cases rev_unsigned _ 4 [1; 2; 3] 2 HR Hint)
    as [[(Hle & _)|[(_ & Hfull & _)|(_ & _ & st' & l' & H1 & H2 & _ & H3 & _)]] _].
  - simpl in Hle. lia.
  - simpl in Hfull. lia.
  - exists st', l'. auto.
Defined.

(** ** Batches of pushes, pops and peeks *)

Section Batches.
Context {T : Type}.
Variable rev : revision.
Implicit Types (st : state T) (l vs : list T).

Lemma push_all_spec vs : forall st cap l,
  Repr rev st cap l ->
  Z.of_nat (length l) + Z.of_nat (length vs) <= cap ->
  exists st', Stack.push_all rev vs st = Ret tt st' /\ Repr rev st' cap (l ++ vs).
Proof.
  induction vs as [|v vs IH]; intros st cap l HR Hroom.
  - exists st. rewrite app_nil_r. auto.
  - simpl in Hroom.
    destruct (push_spec rev st cap l v HR) as (st1 & Hpush & HR1); [lia|].
    destruct (IH st1 cap (l ++ [v]) HR1) as (st' & Hall & HR').
    { rewrite length_app. simpl. lia. }
    exists st'. split.
    + simpl. rewrite (bind_Ret _ _ _ _ _ Hpush). exact Hall.
    + rewrite <- app_assoc in HR'. exact HR'.
Qed.

Lemma pop_n_spec vs : forall st cap l,
  Repr rev st cap (l ++ vs) ->
  exists st', Stack.pop_n rev (length vs) st = Ret (reverse vs) st' /\ Repr rev st' cap l.
Proof.
  induction vs as [|x vs IH] using rev_ind; intros st cap l HR.
  - exists st. rewrite app_nil_r in HR. auto.
  - rewrite app_assoc in HR.
    destruct (pop_spec rev st cap (l ++ vs) x HR) as (st1 & Hpop & HR1).
    destruct (IH st1 cap l HR1) as (st' & Hn & HR').
    exists st'. split; [|exact HR'].
    rewrite length_app, Nat.add_1_r, reverse_app. simpl.
    rewrite (bind_Ret _ _ _ _ _ Hpop), (bind_Ret _ _ _ _ _ Hn). reflexivity.
Qed.

Lemma peek_n_spec (k : nat) st cap l (x : T) :
  Repr rev st cap (l ++ [x]) ->
  Stack.peek_n rev k st = Ret (replicate k x) st.
Proof.
  intros HR. induction k as [|k IH]; [reflexivity|]. simpl.
  rewrite (bind_Ret _ _ _ _ _ (peek_spec rev _ _ _ _ HR)).
  rewrite (bind_Ret _ _ _ _ _ IH). reflexivity.
Qed.

End Batches.

(** ** The derived primitives *)

Section Derived.
Context {T : Type}.
Variable rev : revision.
Implicit Types (st : state T) (l below : list T).

Lemma int_range_1 : 1 + 2 < 2 ^ 31.
Proof. reflexivity. Qed.

Lemma int_range_2 : 2 + 2 < 2 ^ 31.
Proof. reflexivity. Qed.

(** [( x -- x x )] *)
Lemma dup_spec st cap below (x : T) :
  Repr rev st cap (below ++ [x]) ->
  Z.of_nat (length (below ++ [x])) < cap ->
  exists st', Stack.dup rev st = Ret tt st' /\ Repr rev st' cap (below ++ [x; x]).
Proof.
  intros HR Hroom.
  destruct (pick_spec rev st cap below x [] 0 HR) as (st' & H & HR');
    [reflexivity | exact Hroom | reflexivity |].
  exists st'. rewrite <- app_assoc in HR'. auto.
Qed.

(** [( x y -- x y x )] *)
Lemma over_spec st cap below (x y : T) :
  Repr rev st cap (below ++ [x; y]) ->
  Z.of_nat (length (below ++ [x; y])) < cap ->
  exists st', Stack.over rev st = Ret tt st' /\ Repr rev st' cap (below ++ [x; y; x]).
Proof.
  intros HR Hroom.
  destruct (pick_spec rev st cap below x [y] 1 HR) as (st' & H & HR');
    [reflexivity | exact Hroom | reflexivity |].
  exists st'. rewrite <- app_assoc in HR'. auto.
Qed.

(** [( x y -- y x )] *)
Lemma swap_spec st cap below (x y : T) :
  Repr rev st cap (below ++ [x; y]) ->
  Z.of_nat (length (below ++ [x; y])) < cap ->
  exists st', Stack.swap rev st = Ret tt st' /\ Repr rev st' cap (below ++ [y; x]).
Proof.
  intros HR Hroom.
  exact (roll_spec rev st cap below x [y] 1 HR eq_refl Hroom int_range_1).
Qed.

(** [( x y z -- y z x )] *)
Lemma rot_spec st cap below (x y z : T) :
  Repr rev st cap (below ++ [x; y; z]) ->
  Z.of_nat (length (below ++ [x; y; z])) < cap ->
  exists st', Stack.rot rev st = Ret tt st' /\ Repr rev st' cap (below ++ [y; z; x]).
Proof.
  intros HR Hroom.
  exact (roll_spec rev st cap below x [y; z] 2 HR eq_refl Hroom int_range_2).
Qed.

(** [( x -- )] *)
Lemma drop_spec st cap l (x : T) :
  Repr rev st cap (l ++ [x]) ->
  exists st', Stack.drop rev st = Ret tt st' /\ Repr rev st' cap l.
Proof.
  intros HR. destruct (pop_spec rev st cap l x HR) as (st' & Hpop & HR').
  exists st'. split; [|exact HR'].
  unfold Stack.drop. rewrite (bind_Ret _ _ _ _ _ Hpop). reflexivity.
Qed.

(** [( x y -- y )] *)
Lemma nip_spec st cap below (x y : T) :
  Repr rev st cap (below ++ [x; y]) ->
  Z.of_nat (length (below ++ [x; y])) < cap ->
  exists st', Stack.nip rev st = Ret tt st' /\ Repr rev st' cap (below ++ [y]).
Proof.
  intros HR Hroom.
  destruct (swap_spec st cap below x y HR Hroom) as (st1 & Hswap & HR1).
  destruct (drop_spec st1 cap (below ++ [y]) x) as (st' & Hdrop & HR').
  { rewrite <- app_assoc. exact HR1. }
  exists st'. split; [|exact HR'].
  unfold Stack.nip. rewrite (bind_Ret _ _ _ _ _ Hswap). exact Hdrop.
Qed.

(** [( x y -- y x y )] *)
Lemma tuck_spec st cap below (x y : T) :
  Repr rev st cap (below ++ [x; y]) ->
  Z.of_nat (length (below ++ [x; y])) < cap ->
  exists st', Stack.tuck rev st = Ret tt st' /\ Repr rev st' cap (below ++ [y; x; y]).
Proof.
  intros HR Hroom.
  destruct (swap_spec st cap below x y HR Hroom) as (st1 & Hswap & HR1).
  destruct (over_spec st1 cap below y x HR1) as (st' & Hover & HR').
  { rewrite length_app in *. exact Hroom. }
  exists st'. split; [|exact HR'].
  unfold Stack.tuck. rewrite (bind_Ret _ _ _ _ _ Hswap). exact Hover.
Qed.

(** The last two values of a list of at least two. *)
Lemma split_last_two l :
  (2 <= length l)%nat -> exists below x y, l = below ++ [x; y].
Proof.
  intros Hl. destruct (split_at_depth l 1 ltac:(lia)) as (below & x & above & -> & Ha).
  destruct above as [|y [|z above]]; try discriminate Ha.
  exists below, x, y. reflexivity.
Qed.

Lemma split_last l :
  (1 <= length l)%nat -> exists below x, l = below ++ [x].
Proof.
  intros Hl. destruct (split_at_depth l 0 ltac:(lia)) as (below & x & above & -> & Ha).
  destruct above; [|discriminate Ha]. exists below, x. reflexivity.
Qed.

(** When [swap] returns, two values were there, with room for a third, and
    they have changed places. *)
Lemma swap_Ret_inv st st1 cap l :
  Repr rev st cap l -> Stack.swap rev st = Ret tt st1 ->
  exists below x y,
    l = below ++ [x; y] /\ Z.of_nat (length l) < cap /\
    Repr rev st1 cap (below ++ [y; x]).
Proof.
  intros HR H. unfold Stack.swap in *.
  pose proof (Repr_bounds rev _ _ _ HR) as [Hlen Hcap].
  destruct (Nat.le_gt_cases (length l) 1) as [Hle|Hgt].
  { rewrite (roll_underflow rev _ _ _ 1 HR) in H by lia. discriminate H. }
  destruct (Z.eq_dec (Z.of_nat (length l)) cap) as [Hfull|Hroom].
  { rewrite (roll_overflow rev _ _ _ 1 HR) in H by (try reflexivity; lia).
    discriminate H. }
  destruct (split_last_two l Hgt) as (below & x & y & ->).
  destruct (swap_spec st cap below x y HR) as (st' & Hswap & HR'); [lia|].
  unfold Stack.swap in Hswap. rewrite Hswap in H. inversion H; subst st1.
  exists below, x, y. split; [reflexivity|]. split; [lia | exact HR'].
Qed.

End Derived.

(** ** Which operation throws what, and when *)

Section Errors.
Context {T : Type}.
Variable rev : revision.
Implicit Types (st : state T) (l below : list T).

Lemma push_atomic st (x : T) : atomic (Stack.push rev x) st.
Proof. intros e st' H. apply push_ref_Throw_inv in H as [-> _]. reflexivity. Qed.

Lemma pop_atomic st : atomic (Stack.pop rev) st.
Proof. intros e st' H. apply pop_Throw_inv in H as [-> _]. reflexivity. Qed.

Lemma pop_underflows_iff st cap l :
  Repr rev st cap l -> underflows (Stack.pop rev) st <-> length l = 0%nat.
Proof.
  intros HR. split.
  - intros (st' & H). destruct (Nat.eq_dec (length l) 0) as [|Hne]; [assumption|].
    destruct (split_last l ltac:(lia)) as (below & x & ->).
    destruct (pop_spec rev _ _ _ _ HR) as (st1 & Hpop & _).
    rewrite Hpop in H. discriminate H.
  - intros Hl. destruct l; [|discriminate Hl].
    exists st. exact (pop_underflow rev _ _ HR).
Qed.

Lemma drop_Throw st st' (e : exn) :
  Stack.drop rev st = Throw e st' -> Stack.pop rev st = Throw e st'.
Proof.
  unfold Stack.drop. intros H.
  apply bind_Throw_inv in H as [H|(x & st1 & _ & H)]; [exact H | discriminate H].
Qed.

Lemma drop_atomic st : atomic (Stack.drop rev) st.
Proof. intros e st' H. exact (pop_atomic st e st' (drop_Throw _ _ _ H)). Qed.

Lemma drop_underflows_iff st cap l :
  Repr rev st cap l -> underflows (Stack.drop rev) st <-> (length l <= 0)%nat.
Proof.
  intros HR. rewrite Nat.le_0_r, <- (pop_underflows_iff st cap l HR). split.
  - intros (st' & H). exists st'. exact (drop_Throw _ _ _ H).
  - intros (st' & H). exists st'. unfold Stack.drop. apply bind_Throw, H.
Qed.

(** A throw of [peek] is the throw of its [pop]: the [push] that follows a
    [pop] finds room. *)
Lemma peek_Throw st st' cap l (e : exn) :
  Repr rev st cap l -> Stack.peek rev st = Throw e st' ->
  Stack.pop rev st = Throw e st'.
Proof.
  intros HR H. unfold Stack.peek in H.
  apply bind_Throw_inv in H as [H|(x & st1 & Hpop & H)]; [exact H|]. exfalso.
  destruct (Nat.eq_dec (length l) 0) as [Hl|Hne].
  { destruct l; [|discriminate Hl].
    rewrite (pop_underflow rev _ _ HR) in Hpop. discriminate Hpop. }
  destruct (split_last l ltac:(lia)) as (below & y & ->).
  pose proof (Repr_bounds rev _ _ _ HR) as [Hlen _].
  rewrite length_app in Hlen. simpl in Hlen.
  destruct (pop_spec rev _ _ _ _ HR) as (st2 & Hpop' & HR2).
  rewrite Hpop' in Hpop. inversion Hpop; subst x st2.
  destruct (push_spec rev st1 cap below y HR2) as (st3 & Hpush & _); [lia|].
  apply bind_Throw_inv in H as [H|(u & st4 & _ & H)]; [|discriminate H].
  rewrite Hpush in H. discriminate H.
Qed.

Lemma peek_atomic st cap l : Repr rev st cap l -> atomic (Stack.peek rev) st.
Proof.
  intros HR e st' H. exact (pop_atomic st e st' (peek_Throw _ _ _ _ _ HR H)).
Qed.

Lemma peek_underflows_iff st cap l :
  Repr rev st cap l -> underflows (Stack.peek rev) st <-> length l = 0%nat.
Proof.
  intros HR. rewrite <- (pop_underflows_iff st cap l HR). split.
  - intros (st' & H). exists st'. exact (peek_Throw _ _ _ _ _ HR H).
  - intros (st' & H). exists st'. unfold Stack.peek. apply bind_Throw, H.
Qed.

Lemma pick_atomic st cap l (n : Z) :
  Repr rev st cap l -> atomic (Stack.pick rev n) st.
Proof. intros HR e st' H. exact (proj1 (pick_Throw_cases rev _ _ _ _ _ _ HR H)). Qed.

Lemma pick_underflows_iff st cap l (n : Z) :
  Repr rev st cap l ->
  underflows (Stack.pick rev n) st <-> Z.of_nat (length l) <= n.
Proof.
  intros HR. split.
  - intros (st' & H).
    destruct (pick_Throw_cases rev _ _ _ _ _ _ HR H) as (_ & [[_ Hle]|[He _]]);
      [exact Hle | discriminate He].
  - intros Hle. exists st. exact (pick_underflow rev _ _ _ _ HR Hle).
Qed.

Lemma roll_atomic st cap l (n : Z) :
  Repr rev st cap l -> atomic (Stack.roll rev n) st.
Proof. intros HR e st' H. exact (proj1 (roll_Throw_cases rev _ _ _ _ _ _ HR H)). Qed.

Lemma roll_underflows_iff st cap l (n : Z) :
  Repr rev st cap l ->
  underflows (Stack.roll rev n) st <-> Z.of_nat (length l) <= n.
Proof.
  intros HR. split.
  - intros (st' & H).
    destruct (roll_Throw_cases rev _ _ _ _ _ _ HR H) as (_ & [[_ Hle]|[He _]]);
      [exact Hle | discriminate He].
  - intros Hle. exists st. exact (roll_underflow rev _ _ _ _ HR Hle).
Qed.

(** A throw of [nip] or of [tuck] is the throw of its [swap]: once [swap]
    has returned, the [drop] or the [over] that follows succeeds. *)
Lemma nip_Throw st st' cap l (e : exn) :
  Repr rev st cap l -> Stack.nip rev st = Throw e st' ->
  Stack.swap rev st = Throw e st'.
Proof.
  intros HR H. unfold Stack.nip in H.
  apply bind_Throw_inv in H as [H|([] & st1 & Hswap & H)]; [exact H|]. exfalso.
  destruct (swap_Ret_inv rev _ _ _ _ HR Hswap) as (below & x & y & -> & _ & HR1).
  destruct (drop_spec rev st1 cap (below ++ [y]) x) as (st2 & Hdrop & _).
  { rewrite <- app_assoc. exact HR1. }
  rewrite Hdrop in H. discriminate H.
Qed.

Lemma tuck_Throw st st' cap l (e : exn) :
  Repr rev st cap l -> Stack.tuck rev st = Throw e st' ->
  Stack.swap rev st = Throw e st'.
Proof.
  intros HR H. unfold Stack.tuck in H.
  apply bind_Throw_inv in H as [H|([] & st1 & Hswap & H)]; [exact H|]. exfalso.
  destruct (swap_Ret_inv rev _ _ _ _ HR Hswap) as (below & x & y & -> & Hroom & HR1).
  destruct (over_spec rev st1 cap below y x HR1) as (st2 & Hover & _).
  { rewrite length_app in *. exact Hroom. }
  rewrite Hover in H. discriminate H.
Qed.

Lemma nip_underflows_iff st cap l :
  Repr rev st cap l -> underflows (Stack.nip rev) st <-> (length l <= 1)%nat.
Proof.
  intros HR. split.
  - intros (st' & H). apply (nip_Throw _ _ _ _ _ HR) in H.
    assert (Hu : underflows (Stack.roll rev 1) st) by (exists st'; exact H).
    apply (roll_underflows_iff st cap l 1 HR) in Hu. lia.
  - intros Hle. exists st. unfold Stack.nip. apply bind_Throw.
    apply (roll_underflow rev _ _ _ _ HR). lia.
Qed.

Lemma tuck_underflows_iff st cap l :
  Repr rev st cap l -> underflows (Stack.tuck rev) st <-> (length l <= 1)%nat.
Proof.
  intros HR. split.
  - intros (st' & H). apply (tuck_Throw _ _ _ _ _ HR) in H.
    assert (Hu : underflows (Stack.roll rev 1) st) by (exists st'; exact H).
    apply (roll_underflows_iff st cap l 1 HR) in Hu. lia.
  - intros Hle. exists st. unfold Stack.tuck. apply bind_Throw.
    apply (roll_underflow rev _ _ _ _ HR). lia.
Qed.

(** When an operation returns, its requirements were met. *)
Lemma push_Ret_room st st' cap l (x : T) :
  Repr rev st cap l -> Stack.push rev x st = Ret tt st' ->
  Z.of_nat (length l) < cap.
Proof.
  intros HR H. apply push_ref_Ret_inv in H as (_ & s & Hs & Hlt).
  rewrite (Repr_size rev _ _ _ HR) in Hs. inversion Hs; subst s.
  pose proof (Repr_capacity rev _ _ _ HR) as Hc. inversion Hc as [Hc'].
  lia.
Qed.

Lemma pop_Ret_depth st st' cap l (x : T) :
  Repr rev st cap l -> Stack.pop rev st = Ret x st' -> 0 < Z.of_nat (length l).
Proof.
  intros HR H. unfold Stack.pop in H.
  rewrite (bind_Ret _ _ _ _ _ (Repr_size rev _ _ _ HR)) in H.
  destruct (Z.leb_spec (Z.of_nat (length l)) 0); [discriminate H | lia].
Qed.

Lemma peek_Ret_depth st st' cap l (x : T) :
  Repr rev st cap l -> Stack.peek rev st = Ret x st' -> 0 < Z.of_nat (length l).
Proof.
  intros HR H. unfold Stack.peek in H.
  apply bind_Ret_inv in H as (y & st1 & Hpop & _).
  exact (pop_Ret_depth _ _ _ _ _ HR Hpop).
Qed.

Lemma drop_Ret_depth st st' cap l :
  Repr rev st cap l -> Stack.drop rev st = Ret tt st' -> 0 < Z.of_nat (length l).
Proof.
  intros HR H. unfold Stack.drop in H.
  apply bind_Ret_inv in H as (y & st1 & Hpop & _).
  exact (pop_Ret_depth _ _ _ _ _ HR Hpop).
Qed.

Lemma pick_Ret_depth st st' cap l (n : Z) :
  Repr rev st cap l -> Stack.pick rev n st = Ret tt st' ->
  n < Z.of_nat (length l) < cap.
Proof.
  intros HR H. unfold Stack.pick in H.
  rewrite (bind_Ret _ _ _ _ _ (Repr_size rev _ _ _ HR)) in H.
  destruct (Z.leb_spec (Z.of_nat (length l)) n) as [Hle|Hgt]; [discriminate H|].
  destruct (neg_signed _ _) as [i|]; [|discriminate H].
  unfold bind at 1 in H. cbn [get_pointer] in H.
  apply push_ref_Ret_inv in H as (_ & s & Hs & Hlt).
  rewrite (Repr_size rev _ _ _ HR) in Hs. inversion Hs; subst s.
  pose proof (Repr_capacity rev _ _ _ HR) as Hc. inversion Hc as [Hc'].
  lia.
Qed.

Lemma roll_Ret_depth st st' cap l (n : Z) :
  Repr rev st cap l -> Stack.roll rev n st = Ret tt st' ->
  n < Z.of_nat (length l) < cap.
Proof.
  intros HR H. unfold Stack.roll in H.
  apply bind_Ret_inv in H as ([] & st1 & Hpick & _).
  exact (pick_Ret_depth _ _ _ _ _ HR Hpick).
Qed.

Lemma nip_Ret_depth st st' cap l :
  Repr rev st cap l -> Stack.nip rev st = Ret tt st' ->
  1 < Z.of_nat (length l) < cap.
Proof.
  intros HR H. unfold Stack.nip in H.
  apply bind_Ret_inv in H as ([] & st1 & Hswap & _).
  exact (roll_Ret_depth _ _ _ _ 1 HR Hswap).
Qed.

Lemma tuck_Ret_depth st st' cap l :
  Repr rev st cap l -> Stack.tuck rev st = Ret tt st' ->
  1 < Z.of_nat (length l) < cap.
Proof.
  intros HR H. unfold Stack.tuck in H.
  apply bind_Ret_inv in H as ([] & st1 & Hswap & _).
  exact (roll_Ret_depth _ _ _ _ 1 HR Hswap).
Qed.

(** What [push] throws, and when. *)
Lemma push_Throw_full st st' cap l (x : T) (e : exn) :
  Repr rev st cap l -> Stack.push rev x st = Throw e st' ->
  e = overflow_error /\ Z.of_nat (length l) = cap.
Proof.
  intros HR H. apply push_ref_Throw_inv in H as (_ & -> & s & Hs & Hge).
  rewrite (Repr_size rev _ _ _ HR) in Hs. inversion Hs; subst s.
  pose proof (Repr_capacity rev _ _ _ HR) as Hc. inversion Hc as [Hc'].
  pose proof (Repr_bounds rev _ _ _ HR). split; [reflexivity | lia].
Qed.

(** C3.  On a stack of size [s] and capacity [c]: [push] throws
    [overflow_error] when [s = c]; [pop] and [peek] throw [underflow_error]
    exactly when [s = 0]; [pick(n)] and [roll(n)] exactly when [s <= n], and
    so the derived primitives ([dup], [drop]: [s <= 0]; [swap], [over], [nip],
    [tuck]: [s <= 1]; [rot]: [s <= 2]); and whatever any of them throws, the
    state at the throw is the state before the call.  No operation returns
    where it should signal: each one returns only when its depth requirement
    is met and, for those that push ([push], [pick], [roll], [dup], [swap],
    [over], [rot], [nip], [tuck]), only when a slot is free; on a full stack
    ([s = c]) whose depth suffices each of these throws [overflow_error]; and
    [push], [pick] and [roll] throw nothing but [overflow_error] on a full
    stack and [underflow_error] on a stack that is too shallow. *)
Theorem C3_errors_exhaustive_and_atomic st cap l :
  Repr rev st cap l ->
  (Z.of_nat (length l) = cap ->
     forall x, Stack.push rev x st = Throw overflow_error st) /\
  (underflows (Stack.pop rev) st <-> length l = 0%nat) /\
  (underflows (Stack.peek rev) st <-> length l = 0%nat) /\
  (forall n, underflows (Stack.pick rev n) st <-> Z.of_nat (length l) <= n) /\
  (forall n, underflows (Stack.roll rev n) st <-> Z.of_nat (length l) <= n) /\
  (underflows (Stack.dup rev) st <-> (length l <= 0)%nat) /\
  (underflows (Stack.drop rev) st <-> (length l <= 0)%nat) /\
  (underflows (Stack.swap rev) st <-> (length l <= 1)%nat) /\
  (underflows (Stack.over rev) st <-> (length l <= 1)%nat) /\
  (underflows (Stack.rot rev) st <-> (length l <= 2)%nat) /\
  (underflows (Stack.nip rev) st <-> (length l <= 1)%nat) /\
  (underflows (Stack.tuck rev) st <-> (length l <= 1)%nat) /\
  (forall x, atomic (Stack.push rev x) st) /\
  atomic (Stack.pop rev) st /\
  atomic (Stack.peek rev) st /\
  (forall n, atomic (Stack.pick rev n) st) /\
  (forall n, atomic (Stack.roll rev n) st) /\
  atomic (Stack.dup rev) st /\
  atomic (Stack.drop rev) st /\
  atomic (Stack.swap rev) st /\
  atomic (Stack.over rev) st /\
  atomic (Stack.rot rev) st /\
  atomic (Stack.nip rev) st /\
  atomic (Stack.tuck rev) st /\
  (forall x st', Stack.push rev x st = Ret tt st' -> Z.of_nat (length l) < cap) /\
  (forall x st', Stack.pop rev st = Ret x st' -> 0 < Z.of_nat (length l)) /\
  (forall x st', Stack.peek rev st = Ret x st' -> 0 < Z.of_nat (length l)) /\
  (forall n st', Stack.pick rev n st = Ret tt st' -> n < Z.of_nat (length l) < cap) /\
  (forall n st', Stack.roll rev n st = Ret tt st' -> n < Z.of_nat (length l) < cap) /\
  (forall st', Stack.dup rev st = Ret tt st' -> 0 < Z.of_nat (length l) < cap) /\
  (forall st', Stack.drop rev st = Ret tt st' -> 0 < Z.of_nat (length l)) /\
  (forall st', Stack.swap rev st = Ret tt st' -> 1 < Z.of_nat (length l) < cap) /\
  (forall st', Stack.over rev st = Ret tt st' -> 1 < Z.of_nat (length l) < cap) /\
  (forall st', Stack.rot rev st = Ret tt st' -> 2 < Z.of_nat (length l) < cap) /\
  (forall st', Stack.nip rev st = Ret tt st' -> 1 < Z.of_nat (length l) < cap) /\
  (forall st', Stack.tuck rev st = Ret tt st' -> 1 < Z.of_nat (length l) < cap) /\
  (Z.of_nat (length l) = cap ->
     (forall n, 0 <= n < Z.of_nat (length l) -> n + 1 < 2 ^ 31 ->
        Stack.pick rev n st = Throw overflow_error st) /\
     (forall n, 0 <= n < Z.of_nat (length l) -> n + 1 < 2 ^ 31 ->
        Stack.roll rev n st = Throw overflow_error st) /\
     (0 < Z.of_nat (length l) -> Stack.dup rev st = Throw overflow_error st) /\
     (1 < Z.of_nat (length l) -> Stack.swap rev st = Throw overflow_error st) /\
     (1 < Z.of_nat (length l) -> Stack.over rev st = Throw overflow_error st) /\
     (2 < Z.of_nat (length l) -> Stack.rot rev st = Throw overflow_error st) /\
     (1 < Z.of_nat (length l) -> Stack.nip rev st = Throw overflow_error st) /\
     (1 < Z.of_nat (length l) -> Stack.tuck rev st = Throw overflow_error st)) /\
  (forall x e st', Stack.push rev x st = Throw e st' ->
     e = overflow_error /\ Z.of_nat (length l) = cap) /\
  (forall n e st', Stack.pick rev n st = Throw e st' ->
     e = underflow_error /\ Z.of_nat (length l) <= n \/
     e = overflow_error /\ n < Z.of_nat (length l) /\ Z.of_nat (length l) = cap) /\
  (forall n e st', Stack.roll rev n st = Throw e st' ->
     e = underflow_error /\ Z.of_nat (length l) <= n \/
     e = overflow_error /\ n < Z.of_nat (length l) /\ Z.of_nat (length l) = cap).
Proof.
  intros HR.
  assert (Hpick := fun n => pick_underflows_iff st cap l n HR).
  assert (Hroll := fun n => roll_underflows_iff st cap l n HR).
  assert (Hfullcase :
    Z.of_nat (length l) = cap ->
     (forall n, 0 <= n < Z.of_nat (length l) -> n + 1 < 2 ^ 31 ->
        Stack.pick rev n st = Throw overflow_error st) /\
     (forall n, 0 <= n < Z.of_nat (length l) -> n + 1 < 2 ^ 31 ->
        Stack.roll rev n st = Throw overflow_error st) /\
     (0 < Z.of_nat (length l) -> Stack.dup rev st = Throw overflow_error st) /\
     (1 < Z.of_nat (length l) -> Stack.swap rev st = Throw overflow_error st) /\
     (1 < Z.of_nat (length l) -> Stack.over rev st = Throw overflow_error st) /\
     (2 < Z.of_nat (length l) -> Stack.rot rev st = Throw overflow_error st) /\
     (1 < Z.of_nat (length l) -> Stack.nip rev st = Throw overflow_error st) /\
     (1 < Z.of_nat (length l) -> Stack.tuck rev st = Throw overflow_error st)).
  { intros Hfull.
    assert (Hp : forall n, 0 <= n < Z.of_nat (length l) -> n + 1 < 2 ^ 31 ->
                 Stack.pick rev n st = Throw overflow_error st)
      by (intros n Hn Hint; exact (pick_overflow rev _ _ _ n HR Hn Hint Hfull)).
    assert (Hr : forall n, 0 <= n < Z.of_nat (length l) -> n + 1 < 2 ^ 31 ->
                 Stack.roll rev n st = Throw overflow_error st)
      by (intros n Hn Hint; exact (roll_overflow rev _ _ _ n HR Hn Hint Hfull)).
    split; [exact Hp|]. split; [exact Hr|].
    split; [intros Hd; apply (Hp 0); [lia | reflexivity]|].
    split; [intros Hd; apply (Hr 1); [lia | reflexivity]|].
    split; [intros Hd; apply (Hp 1); [lia | reflexivity]|].
    split; [intros Hd; apply (Hr 2); [lia | reflexivity]|].
    split; intros Hd; [unfold Stack.nip | unfold Stack.tuck];
      apply bind_Throw; apply (Hr 1); (lia || reflexivity). }
  repeat match goal with |- _ /\ _ => split end.
  - intros Hfull x. exact (push_overflow rev _ _ _ x HR Hfull).
  - exact (pop_underflows_iff _ _ _ HR).
  - exact (peek_underflows_iff _ _ _ HR).
  - exact Hpick.
  - exact Hroll.
  - unfold Stack.dup. rewrite Hpick. lia.
  - exact (drop_underflows_iff _ _ _ HR).
  - unfold Stack.swap. rewrite Hroll. lia.
  - unfold Stack.over. rewrite Hpick. lia.
  - unfold Stack.rot. rewrite Hroll. lia.
  - exact (nip_underflows_iff _ _ _ HR).
  - exact (tuck_underflows_iff _ _ _ HR).
  - intros x. apply push_atomic.
  - apply pop_atomic.
  - exact (peek_atomic _ _ _ HR).
  - intros n. exact (pick_atomic _ _ _ n HR).
  - intros n. exact (roll_atomic _ _ _ n HR).
  - exact (pick_atomic _ _ _ 0 HR).
  - apply drop_atomic.
  - exact (roll_atomic _ _ _ 1 HR).
  - exact (pick_atomic _ _ _ 1 HR).
  - exact (roll_atomic _ _ _ 2 HR).
  - intros e st' H. exact (roll_atomic _ _ _ 1 HR e st' (nip_Throw _ _ _ _ _ HR H)).
  - intros e st' H. exact (roll_atomic _ _ _ 1 HR e st' (tuck_Throw _ _ _ _ _ HR H)).
  - intros x st'. exact (push_Ret_room _ _ _ _ x HR).
  - intros x st'. exact (pop_Ret_depth _ _ _ _ x HR).
  - intros x st'. exact (peek_Ret_depth _ _ _ _ x HR).
  - intros n st'. exact (pick_Ret_depth _ _ _ _ n HR).
  - intros n st'. exact (roll_Ret_depth _ _ _ _ n HR).
  - intros st'. exact (pick_Ret_depth _ _ _ _ 0 HR).
  - intros st'. exact (drop_Ret_depth _ _ _ _ HR).
  - intros st'. exact (roll_Ret_depth _ _ _ _ 1 HR).
  - intros st'. exact (pick_Ret_depth _ _ _ _ 1 HR).
  - intros st'. exact (roll_Ret_depth _ _ _ _ 2 HR).
  - intros st'. exact (nip_Ret_depth _ _ _ _ HR).
  - intros st'. exact (tuck_Ret_depth _ _ _ _ HR).
  - exact Hfullcase.
  - intros x e st'. exact (push_Throw_full _ _ _ _ x e HR).
  - intros n e st' H. exact (proj2 (pick_Throw_cases rev _ _ _ _ _ _ HR H)).
  - intros n e st' H. exact (proj2 (roll_Throw_cases rev _ _ _ _ _ _ HR H)).
Qed.

End Errors.

Lemma C3_errors_witness :
  let st := int_state rev_unsigned 1 [7] in
  Repr rev_unsigned st 1 [7] /\
  Stack.push rev_unsigned 8 st = Throw overflow_error st /\
  underflows (Stack.swap rev_unsigned) st /\
  atomic (Stack.tuck rev_unsigned) st /\
  Stack.pick rev_unsigned 0 st = Throw overflow_error st /\
  Stack.dup rev_unsigned st = Throw overflow_error st.
Proof.
  cbv zeta.
  assert (HR : Repr rev_unsigned (int_state rev_unsigned 1 [7]) 1 [7]) by repr_by_eval.
  pose proof (C3_errors_exhaustive_and_atomic rev_unsigned _ 1 [7] HR) as H.
  split; [exact HR|].
  split; [exact (proj1 H eq_refl 8)|].
  split; [|split].
  - apply (proj1 (proj2 (proj2 (proj2 (proj2 (proj2 (proj2 (proj2 H)))))))).
    simpl. lia.
  - apply H.
  - do 36 apply proj2 in H. destruct H as [Hfull _].
    destruct (Hfull eq_refl) as (Hpick & _ & Hdup & _).
    split; [apply Hpick; [simpl; lia | reflexivity] | apply Hdup; simpl; lia].
Defined.

(** ** The laws *)

Section Laws.
Context {T : Type}.
Variable rev : revision.
Implicit Types (st : state T) (l vs : list T).

Lemma at_depth_0 l (x : T) :
  at_depth l 0 = Some x -> exists below, l = below ++ [x].
Proof.
  intros H. destruct (Nat.eq_dec (length l) 0) as [Hl|Hne].
  { destruct l; [discriminate H | discriminate Hl]. }
  destruct (split_last l ltac:(lia)) as (below & y & ->).
  exists below. unfold at_depth in H. rewrite reverse_app in H. simpl in H.
  congruence.
Qed.

(** C6.  The values pushed onto a stack with room for them come back from
    as many calls of [pop] in the reverse order, and the stack then holds what
    it held before the pushes. *)
Theorem C6_lifo st cap l vs :
  Repr rev st cap l ->
  Z.of_nat (length l) + Z.of_nat (length vs) <= cap ->
  exists st1 st2,
    Stack.push_all rev vs st = Ret tt st1 /\
    Repr rev st1 cap (l ++ vs) /\
    Stack.pop_n rev (length vs) st1 = Ret (reverse vs) st2 /\
    Repr rev st2 cap l.
Proof.
  intros HR Hroom.
  destruct (push_all_spec rev vs st cap l HR Hroom) as (st1 & Hpush & HR1).
  destruct (pop_n_spec rev vs st1 cap l HR1) as (st2 & Hpop & HR2).
  exists st1, st2. auto.
Qed.

(** C8.  On a stack whose top is [x], [peek()] returns [x] and leaves the
    state exactly as it was (the [push] writes back the value the [pop] has
    read, into the same slot); so any number of calls return [x] each and
    leave the state unchanged. *)
Theorem C8_peek_idempotent st cap l (x : T) :
  Repr rev st cap l ->
  at_depth l 0 = Some x ->
  Stack.peek rev st = Ret x st /\
  forall k : nat, Stack.peek_n rev k st = Ret (replicate k x) st.
Proof.
  intros HR Htop. destruct (at_depth_0 l x Htop) as (below & ->).
  split; [exact (peek_spec rev _ _ _ _ HR)|].
  intros k. exact (peek_n_spec rev k _ _ _ _ HR).
Qed.

(** C10.  With at least two values and one free slot, [swap] twice gives
    back the stack: both calls return and the values are those of before, at
    every depth. *)
Theorem C10_swap_twice st cap l :
  Repr rev st cap l ->
  (2 <= length l)%nat ->
  Z.of_nat (length l) < cap ->
  exists st1 st2,
    Stack.swap rev st = Ret tt st1 /\
    Stack.swap rev st1 = Ret tt st2 /\
    Repr rev st2 cap l.
Proof.
  intros HR Hl Hroom. destruct (split_last_two l Hl) as (below & x & y & ->).
  destruct (swap_spec rev st cap below x y HR Hroom) as (st1 & H1 & HR1).
  destruct (swap_spec rev st1 cap below y x HR1) as (st2 & H2 & HR2).
  { rewrite length_app in *. exact Hroom. }
  exists st1, st2. auto.
Qed.

End Laws.

Section RpnTable.
Variable rev : revision.

(** After the pushes, the primitive runs on the stack holding the values. *)
Lemma after_pushes (st : state Z) (cap : Z) (vs : list Z) (m : M Z unit) :
  Repr rev st cap [] -> Z.of_nat (length vs) <= cap ->
  exists st1,
    Repr rev st1 cap vs /\
    (Stack.push_all rev vs;; m) st = m st1.
Proof.
  intros HR Hroom.
  destruct (push_all_spec rev vs st cap [] HR) as (st1 & Hpush & HR1);
    [simpl; lia|].
  exists st1. split; [exact HR1|].
  exact (bind_Ret _ (fun _ => m) _ _ _ Hpush).
Qed.

(** C7, amended.  On an initially empty stack with one slot more than the
    values pushed (capacity at least 3 for [dup], [over] and [tuck], at
    least 4 for [swap], [rot] and [nip]), the table holds. *)
Theorem C7_rpn_table (st : state Z) (cap : Z) :
  Repr rev st cap [] ->
  (3 <= cap -> exists st',
     (Stack.push_all rev [1; 2];; Stack.dup rev) st = Ret tt st' /\
     Repr rev st' cap [1; 2; 2]) /\
  (4 <= cap -> exists st',
     (Stack.push_all rev [1; 2; 3];; Stack.swap rev) st = Ret tt st' /\
     Repr rev st' cap [1; 3; 2]) /\
  (3 <= cap -> exists st',
     (Stack.push_all rev [1; 2];; Stack.over rev) st = Ret tt st' /\
     Repr rev st' cap [1; 2; 1]) /\
  (4 <= cap -> exists st',
     (Stack.push_all rev [1; 2; 3];; Stack.rot rev) st = Ret tt st' /\
     Repr rev st' cap [2; 3; 1]) /\
  (4 <= cap -> exists st',
     (Stack.push_all rev [1; 2; 3];; Stack.nip rev) st = Ret tt st' /\
     Repr rev st' cap [1; 3]) /\
  (3 <= cap -> exists st',
     (Stack.push_all rev [1; 2];; Stack.tuck rev) st = Ret tt st' /\
     Repr rev st' cap [2; 1; 2]).
Proof.
  intros HR. repeat match goal with |- _ /\ _ => split end; intros Hcap.
  - destruct (after_pushes st cap [1; 2] (Stack.dup rev) HR) as (st1 & HR1 & ->);
      [simpl; lia|].
    apply (dup_spec rev st1 cap [1] 2 HR1). simpl. lia.
  - destruct (after_pushes st cap [1; 2; 3] (Stack.swap rev) HR) as (st1 & HR1 & ->);
      [simpl; lia|].
    apply (swap_spec rev st1 cap [1] 2 3 HR1). simpl. lia.
  - destruct (after_pushes st cap [1; 2] (Stack.over rev) HR) as (st1 & HR1 & ->);
      [simpl; lia|].
    apply (over_spec rev st1 cap [] 1 2 HR1). simpl. lia.
  - destruct (after_pushes st cap [1; 2; 3] (Stack.rot rev) HR) as (st1 & HR1 & ->);
      [simpl; lia|].
    apply (rot_spec rev st1 cap [] 1 2 3 HR1). simpl. lia.
  - destruct (after_pushes st cap [1; 2; 3] (Stack.nip rev) HR) as (st1 & HR1 & ->);
      [simpl; lia|].
    apply (nip_spec rev st1 cap [1] 2 3 HR1). simpl. lia.
  - destruct (after_pushes st cap [1; 2] (Stack.tuck rev) HR) as (st1 & HR1 & ->);
      [simpl; lia|].
    apply (tuck_spec rev st1 cap [] 1 2 HR1). simpl. lia.
Qed.

End RpnTable.

(** C7 as stated fails on an initially empty stack of capacity three: the
    three pushes succeed, and [swap] throws [overflow_error] with the values
    still [1, 2, 3]. *)
Lemma C7_swap_without_free_slot :
  let st := int_state rev_unsigned 3 [] in
  Repr rev_unsigned st 3 [] /\
  (Stack.push_all rev_unsigned [1; 2; 3];; Stack.swap rev_unsigned) st
  = Throw overflow_error (int_state rev_unsigned 3 [1; 2; 3]) /\
  Repr rev_unsigned (int_state rev_unsigned 3 [1; 2; 3]) 3 [1; 2; 3] /\
  ~ (exists st',
       (Stack.push_all rev_unsigned [1; 2; 3];; Stack.swap rev_unsigned) st
       = Ret tt st').
Proof.
  cbv zeta. split; [repr_by_eval|]. split; [vm_compute; reflexivity|].
  split; [repr_by_eval|].
  intros (st' & H). vm_compute in H. discriminate H.
Qed.

Lemma C7_rpn_table_witness :
  let st := int_state rev_unsigned 4 [] in
  Repr rev_unsigned st 4 [] /\
  (exists st',
     (Stack.push_all rev_unsigned [1; 2; 3];; Stack.rot rev_unsigned) st = Ret tt st' /\
     Repr rev_unsigned st' 4 [2; 3; 1]) /\
  (exists st',
     (Stack.push_all rev_unsigned [1; 2];; Stack.tuck rev_unsigned) st = Ret tt st' /\
     Repr rev_unsigned st' 4 [2; 1; 2]).
Proof.
  cbv zeta.
  assert (HR : Repr rev_unsigned (int_state rev_unsigned 4 []) 4 []) by repr_by_eval.
  pose proof (C7_rpn_table rev_unsigned _ 4 HR) as (_ & _ & _ & Hrot & _ & Htuck).
  split; [exact HR|]. split; [apply Hrot | apply Htuck]; lia.
Defined.

Lemma C6_lifo_witness :
  let st := int_state rev_unsigned 3 [] in
  Repr rev_unsigned st 3 [] /\
  Z.of_nat (length (@nil Z)) + Z.of_nat (length [10; 20; 30]) <= 3 /\
  exists st1 st2,
    Stack.push_all rev_unsigned [10; 20; 30] st = Ret tt st1 /\
    Stack.pop_n rev_unsigned 3 st1 = Ret [30; 20; 10] st2 /\
    Repr rev_unsigned st2 3 [].
Proof.
  cbv zeta.
  assert (HR : Repr rev_unsigned (int_state rev_unsigned 3 []) 3 []) by repr_by_eval.
  assert (Hroom : Z.of_nat (length (@nil Z)) + Z.of_nat (length [10; 20; 30]) <= 3)
    by (simpl; lia).
  split; [exact HR|]. split; [exact Hroom|].
  destruct (C6_lifo rev_unsigned _ 3 [] [10; 20; 30] HR Hroom)
    as (st1 & st2 & H1 & _ & H2 & H3).
  exists st1, st2. auto.
Defined.

Lemma C8_peek_idempotent_witness :
  let st := int_state rev_size_t 2 [4; 5] in
  Repr rev_size_t st 2 [4; 5] /\
  at_depth [4; 5] 0 = Some 5 /\
  Stack.peek rev_size_t st = Ret 5 st /\
  Stack.peek_n rev_size_t 3 st = Ret [5; 5; 5] st.
Proof.
  cbv zeta.
  assert (HR : Repr rev_size_t (int_state rev_size_t 2 [4; 5]) 2 [4; 5]) by repr_by_eval.
  split; [exact HR|]. split; [reflexivity|].
  destruct (C8_peek_idempotent rev_size_t _ 2 [4; 5] 5 HR eq_refl) as [H1 H2].
  split; [exact H1 | exact (H2 3%nat)].
Defined.

Lemma C10_swap_twice_witness :
  let st := int_state rev_unsigned 3 [1; 2] in
  Repr rev_unsigned st 3 [1; 2] /\
  (2 <= length [1; 2])%nat /\
  Z.of_nat (length [1; 2]) < 3 /\
  exists st1 st2,
    Stack.swap rev_unsigned st = Ret tt st1 /\
    Stack.swap rev_unsigned st1 = Ret tt st2 /\
    Repr rev_unsigned st2 3 [1; 2].
Proof.
  cbv zeta.
  assert (HR : Repr rev_unsigned (int_state rev_unsigned 3 [1; 2]) 3 [1; 2])
    by repr_by_eval.
  assert (Hl : (2 <= length [1; 2])%nat) by (simpl; lia).
  assert (Hroom : Z.of_nat (length [1; 2]) < 3) by (simpl; lia).
  split; [exact HR|]. split; [exact Hl|]. split; [exact Hroom|].
  exact (C10_swap_twice rev_unsigned _ 3 [1; 2] HR Hl Hroom).
Defined.

(** ** Allocation *)

Section Allocation.
Context {T : Type} `{!Allocator T}.
Variable sizeofT : Z.
Hypothesis sizeofT_pos : 0 < sizeofT.
Implicit Types (h : heap T) (cells dcells scells : list (cell T)) (s : Stack).

Lemma allocates_true h (n : Z) :
  allocates sizeofT h n = true ->
  n * sizeofT < 2 ^ 63 /\ grants h (n * sizeofT) = true.
Proof.
  unfold allocates. intros H. apply andb_true_iff in H as [H1 H2].
  split; [apply Z.ltb_lt, H1 | exact H2].
Qed.

Lemma new_array_eq s h (n : Z) :
  allocates sizeofT h n = true ->
  new_array sizeofT n (mkState s h)
  = Ret (Ptr (length h) 0)
      (mkState s (h ++ [Some (replicate (Z.to_nat n) Indet)])).
Proof.
  intros Hn. apply allocates_true in Hn as [Hn Hg]. unfold new_array. simpl.
  destruct (Z.leb_spec (2 ^ 63) (n * sizeofT)); [lia|]. rewrite Hg. reflexivity.
Qed.

(** When [new T[n]] does not return it throws, and nothing has changed. *)
Lemma new_array_refused s h (n : Z) :
  allocates sizeofT h n = false ->
  new_array sizeofT n (mkState s h) = Throw (refusal sizeofT n) (mkState s h).
Proof.
  unfold allocates, new_array, refusal. simpl. intros H.
  destruct (Z.leb_spec (2 ^ 63) (n * sizeofT)) as [Hle|Hlt].
  - reflexivity.
  - destruct (Z.ltb_spec (n * sizeofT) (2 ^ 63)); [|lia]. simpl in H.
    rewrite H. reflexivity.
Qed.

Lemma delete_array_eq s h b cells :
  block h b = Some cells ->
  delete_array (Ptr b 0) (mkState s h) = Ret tt (mkState s (<[b := None]> h)).
Proof. intros Hb. unfold delete_array. simpl. rewrite Hb. reflexivity. Qed.

Lemma memcpy_eq s h d src dcells scells (nbytes : Z) :
  block h d = Some dcells -> block h src = Some scells -> d <> src ->
  nbytes <= Z.of_nat (length dcells) * sizeofT ->
  nbytes <= Z.of_nat (length scells) * sizeofT ->
  memcpy sizeofT (Ptr d 0) (Ptr src 0) nbytes (mkState s h)
  = Ret tt (mkState s (<[d := Some (copy_bytes sizeofT dcells scells nbytes)]> h)).
Proof.
  intros Hd Hs Hne Hdlen Hslen. unfold memcpy. simpl. rewrite Hd, Hs.
  rewrite decide_False by exact Hne.
  destruct (Z.ltb_spec (Z.of_nat (length dcells) * sizeofT) nbytes); [lia|].
  destruct (Z.ltb_spec (Z.of_nat (length scells) * sizeofT) nbytes); [lia|].
  reflexivity.
Qed.

(** Reading a released block through [memcpy] is undefined. *)
Lemma memcpy_released s h (dst : ptr) src (nbytes : Z) :
  block h src = None ->
  memcpy sizeofT dst (Ptr src 0) nbytes (mkState s h) = Undefined.
Proof.
  intros Hs. unfold memcpy. simpl.
  destruct dst as [|d [| |]]; try reflexivity.
  rewrite Hs. destruct (block h d); reflexivity.
Qed.

(** Copying [m] whole slots into a fresh array of [n] slots. *)
Lemma copy_bytes_whole dcells scells (m : nat) :
  copy_bytes sizeofT dcells scells (Z.of_nat m * sizeofT)
  = take m scells ++ drop m dcells.
Proof.
  unfold copy_bytes.
  rewrite Z.mod_mul by lia. rewrite Z.div_mul by lia.
  rewrite Nat2Z.id. reflexivity.
Qed.

Lemma copy_bytes_length dcells scells (nbytes : Z) :
  0 <= nbytes ->
  nbytes <= Z.of_nat (length dcells) * sizeofT ->
  nbytes <= Z.of_nat (length scells) * sizeofT ->
  length (copy_bytes sizeofT dcells scells nbytes) = length dcells.
Proof.
  intros H0 Hd Hs. unfold copy_bytes.
  assert (Hdiv : 0 <= nbytes / sizeofT) by (apply Z.div_pos; lia).
  pose proof (Z.mod_pos_bound nbytes sizeofT sizeofT_pos) as Hmod.
  pose proof (Z.div_mod nbytes sizeofT ltac:(lia)) as Hdm.
  set (q := nbytes / sizeofT) in *. set (r := nbytes mod sizeofT) in *.
  destruct (Z.eqb_spec r 0) as [Hr|Hr].
  - assert (q <= Z.of_nat (length dcells)) by nia.
    assert (q <= Z.of_nat (length scells)) by nia.
    rewrite length_app, length_take, length_drop. lia.
  - assert (q < Z.of_nat (length dcells)) by nia.
    assert (q < Z.of_nat (length scells)) by nia.
    rewrite length_app. simpl. rewrite length_take, length_drop. lia.
Qed.

Variable rev : revision.

(** The byte count of [allocate] never exceeds either array. *)
Lemma allocate_bytes_bounds (cap n : Z) :
  0 <= cap -> 0 <= n -> cap * sizeofT < 2 ^ 64 -> n * sizeofT < 2 ^ 64 ->
  0 <= Stack.allocate_bytes sizeofT rev cap n /\
  Stack.allocate_bytes sizeofT rev cap n <= n * sizeofT /\
  Stack.allocate_bytes sizeofT rev cap n <= cap * sizeofT.
Proof.
  intros Hcap Hn Hcb Hnb. unfold Stack.allocate_bytes, to_size_t, to_unsigned.
  destruct rev; destruct (Z.gtb_spec cap n).
  - nia.
  - rewrite Z.mod_small by nia. nia.
  - rewrite Z.mod_small by nia. nia.
  - rewrite Z.mod_small by nia. nia.
Qed.

(** [allocate(n)] on a stack with a buffer: a new block receives the bytes
    copied from the old one, the old block is released, [_pointer] keeps its
    offset from [_base] and the capacity becomes [n]. *)
Lemma allocate_state h b (k cap : Z) cells (n : Z) :
  block h b = Some cells ->
  Z.of_nat (length cells) = cap ->
  0 <= k < 2 ^ index_bits rev ->
  0 <= n -> cap * sizeofT < 2 ^ 64 -> allocates sizeofT h n = true ->
  exists h',
    Stack.allocate sizeofT rev n (state_of h b k cap)
    = Ret tt (state_of h' (length h) k n) /\
    block h' (length h)
    = Some (copy_bytes sizeofT (replicate (Z.to_nat n) Indet) cells
              (Stack.allocate_bytes sizeofT rev cap n)) /\
    block h' b = None.
Proof.
  intros Hb Hlen Hk Hn Hcb Hgr.
  assert (Hnb : n * sizeofT < 2 ^ 64) by (apply allocates_true in Hgr; lia).
  pose proof (block_lt _ _ _ Hb) as Hblt.
  destruct (allocate_bytes_bounds cap n ltac:(lia) Hn Hcb Hnb) as (Hb0 & Hbn & Hbc).
  set (fresh := replicate (Z.to_nat n) (@Indet T)) in *.
  set (nb := Stack.allocate_bytes sizeofT rev cap n) in *.
  set (h1 := h ++ [Some fresh]).
  set (h2 := <[length h := Some (copy_bytes sizeofT fresh cells nb)]> h1).
  exists (<[b := None]> h2).
  assert (Hfresh : block h1 (length h) = Some fresh) by apply block_app_new.
  assert (Hold : block h1 b = Some cells) by (apply block_app_l; exact Hb).
  assert (Hlen1 : length h1 = S (length h)).
  { unfold h1. rewrite length_app. simpl. lia. }
  assert (Hlen2 : length h2 = S (length h)).
  { unfold h2. unfold heap in *. rewrite length_insert. exact Hlen1. }
  split; [|split].
  - unfold Stack.allocate, state_of.
    rewrite (bind_Ret _ _ _ _ _ (new_array_eq _ h n Hgr)). fold fresh. fold h1.
    rewrite (bind_Ret _ _ _ _ _ (size_state_of rev h1 b k cap Hk)).
    unfold state_of. unfold bind at 1. cbn [get_base self _base is_null].
    unfold bind at 1. unfold bind at 1. cbn [get_capacity self _capacity].
    fold nb.
    rewrite (bind_Ret _ _ _ _ _
               (memcpy_eq _ h1 (length h) b fresh cells nb Hfresh Hold
                  ltac:(lia)
                  ltac:(unfold fresh; rewrite length_replicate; lia)
                  ltac:(lia))).
    fold h2.
    rewrite (delete_array_eq _ h2 b cells).
    + unfold bind, set_base, set_pointer, set_capacity. simpl. reflexivity.
    + unfold h2. etransitivity; [apply block_insert_ne; lia | exact Hold].
  - etransitivity; [apply block_insert_ne; lia|].
    unfold h2. apply block_insert_eq. lia.
  - apply block_insert_eq. lia.
Qed.

(** When [new T[n]] does not return, [allocate(n)] throws what it throws
    and nothing has changed. *)
Lemma allocate_refused (st : state T) (n : Z) :
  allocates sizeofT (mem st) n = false ->
  Stack.allocate sizeofT rev n st = Throw (refusal sizeofT n) st.
Proof.
  destruct st as [s h]. cbn [mem]. intros Hno. unfold Stack.allocate.
  apply bind_Throw, (new_array_refused s h n Hno).
Qed.

(** The constructor: an empty stack of capacity [n] in a new block. *)
Lemma new_stack_eq h (n : Z) :
  0 <= n -> allocates sizeofT h n = true ->
  Stack.new_stack sizeofT rev n h
  = Ret tt (state_of (h ++ [Some (replicate (Z.to_nat n) Indet)]) (length h) 0 n).
Proof.
  intros Hn Hnb. unfold Stack.new_stack, Stack.construct, Stack.raw_object.
  unfold bind at 1. cbn [set_base]. unfold bind at 1. cbn [set_pointer].
  unfold bind at 1. cbn [set_capacity]. simpl.
  unfold Stack.allocate.
  rewrite (bind_Ret _ _ _ _ _ (new_array_eq _ h n Hnb)).
  unfold bind at 1. unfold Stack.size. simpl.
  rewrite to_index_small by (destruct rev; simpl; lia).
  reflexivity.
Qed.

(** When the allocation fails the constructor throws: there is no object. *)
Lemma new_stack_refused h (n : Z) :
  allocates sizeofT h n = false ->
  Stack.new_stack sizeofT rev n h
  = Throw (refusal sizeofT n) (mkState (mkStack Null Null 0) h).
Proof.
  intros Hno. unfold Stack.new_stack, Stack.construct, Stack.raw_object.
  unfold bind at 1. cbn [set_base]. unfold bind at 1. cbn [set_pointer].
  unfold bind at 1. cbn [set_capacity]. simpl.
  unfold Stack.allocate.
  apply bind_Throw, (new_array_refused (mkStack Null Null 0) h n Hno).
Qed.

Lemma new_stack_Repr h (n : Z) :
  0 <= n -> allocates sizeofT h n = true -> n < 2 ^ index_bits rev ->
  exists st, Stack.new_stack sizeofT rev n h = Ret tt st /\ Repr rev st n [].
Proof.
  intros Hn Hnb Hidx. eexists. split; [exact (new_stack_eq h n Hn Hnb)|].
  exists (length h), (h ++ [Some (replicate (Z.to_nat n) Indet)]),
    (replicate (Z.to_nat n) Indet).
  split; [reflexivity|]. split; [apply block_app_new|].
  rewrite length_replicate. simpl. lia.
Qed.

End Allocation.

(** ** Copies *)

Section Copies.
Context {T : Type} `{!Allocator T}.
Variable sizeofT : Z.
Hypothesis sizeofT_pos : 0 < sizeofT.
Variable rev : revision.
Implicit Types (h : heap T) (cells : list (cell T)).

(** [copy()]: a new block with the same slots; the returned object points
    into it at the same offset; the source is untouched. *)
Lemma copy_state h (s : Stack) b (k cap : Z) cells :
  block h b = Some cells ->
  Z.of_nat (length cells) = cap ->
  0 <= k < 2 ^ index_bits rev ->
  cap * sizeofT < 2 ^ 64 ->
  allocates sizeofT h cap = true ->
  exists h',
    on_object (mkStack (Ptr b 0) (Ptr b k) cap) (Stack.copy sizeofT rev) (mkState s h)
    = Ret (mkStack (Ptr (length h) 0) (Ptr (length h) k) cap,
           mkStack (Ptr b 0) (Ptr b k) cap)
        (mkState s h') /\
    block h' (length h) = Some cells /\
    block h' b = Some cells /\
    length h' = S (length h).
Proof.
  intros Hb Hlen Hk Hcb Hgr.
  pose proof (block_lt _ _ _ Hb) as Hblt.
  set (fresh := replicate (Z.to_nat cap) (@Indet T)).
  set (h1 := h ++ [Some fresh]).
  set (nb := to_size_t (cap * sizeofT)).
  assert (Hnb : nb = Z.of_nat (length cells) * sizeofT).
  { unfold nb, to_size_t, to_unsigned. rewrite Z.mod_small by nia. lia. }
  set (h2 := <[length h := Some (copy_bytes sizeofT fresh cells nb)]> h1).
  exists h2.
  assert (Hsize := size_state_of rev h2 b k cap Hk).
  unfold state_of in Hsize.
  assert (Hfresh : block h1 (length h) = Some fresh) by apply block_app_new.
  assert (Hold : block h1 b = Some cells) by (apply block_app_l; exact Hb).
  assert (Hlen1 : length h1 = S (length h)).
  { unfold h1. rewrite length_app. simpl. lia. }
  assert (Hcopy : copy_bytes sizeofT fresh cells nb = cells).
  { rewrite Hnb, copy_bytes_whole by exact sizeofT_pos.
    rewrite take_ge by lia.
    rewrite drop_ge by (unfold fresh; rewrite length_replicate; lia).
    apply app_nil_r. }
  split; [|split; [|split]].
  - unfold on_object. cbn [mem self].
    unfold Stack.copy.
    unfold bind at 1. cbn [Stack.capacity get_capacity self _capacity].
    unfold bind at 1. unfold on_object at 1. cbn [mem self].
    change (Stack.construct sizeofT rev cap (mkState Stack.raw_object h))
      with (Stack.new_stack sizeofT rev cap h).
    rewrite (new_stack_eq sizeofT rev h cap ltac:(lia) Hgr).
    fold fresh. fold h1. unfold state_of. cbn [self mem snd _base _pointer _capacity].
    unfold bind at 1. cbn [get_base self _base].
    fold nb.
    rewrite (bind_Ret _ _ _ _ _
               (memcpy_eq sizeofT _ h1 (length h) b fresh cells nb Hfresh Hold
                  ltac:(lia)
                  ltac:(unfold fresh; rewrite length_replicate; lia)
                  ltac:(lia))).
    fold h2. rewrite (bind_Ret _ _ _ _ _ Hsize).
    unfold ret, state_of. cbn [self mem ptr_add]. reflexivity.
  - etransitivity; [apply block_insert_eq; lia | f_equal; exact Hcopy].
  - etransitivity; [apply block_insert_ne; lia | exact Hold].
  - unfold h2, heap in *. rewrite length_insert. exact Hlen1.
Qed.

(** Copy-assignment from another stack [src] whose buffer is not the
    destination's: the destination takes the capacity and the size of the
    source.  The block it then points to has been released by the destructor
    of the local [copy]. *)
Lemma assign_other h (dst : Stack) d dcells b (k cap : Z) cells :
  _base dst = Ptr d 0 -> block h d = Some dcells ->
  block h b = Some cells -> d <> b ->
  Z.of_nat (length cells) = cap ->
  0 <= k < 2 ^ index_bits rev ->
  cap * sizeofT < 2 ^ 64 ->
  allocates sizeofT (<[d := None]> h) cap = true ->
  exists h',
    Stack.assign sizeofT rev (mkStack (Ptr b 0) (Ptr b k) cap) (mkState dst h)
    = Ret tt (state_of h' (length h) k cap) /\
    block h' (length h) = None.
Proof.
  intros Hbase Hd Hb Hne Hlen Hk Hcb Hgr.
  pose proof (block_lt _ _ _ Hb) as Hblt.
  pose proof (block_lt _ _ _ Hd) as Hdlt.
  set (h1 := <[d := None]> h).
  assert (Hlen1 : length h1 = length h).
  { unfold h1, heap in *. apply length_insert. }
  assert (Hb1 : block h1 b = Some cells).
  { etransitivity; [apply block_insert_ne; exact Hne | exact Hb]. }
  destruct (copy_state h1 dst b k cap cells Hb1 Hlen Hk Hcb Hgr)
    as (h2 & Hcopy & Hnew & _ & Hlen2).
  rewrite Hlen1 in *.
  exists (<[length h := None]> h2). split.
  - unfold Stack.assign.
    unfold bind at 1. cbn [get_base self]. rewrite Hbase. cbn [is_null].
    rewrite (bind_Ret _ _ _ _ _ (delete_array_eq dst h d dcells Hd)). fold h1.
    rewrite (bind_Ret _ _ _ _ _ Hcopy). cbn [fst _base _pointer _capacity].
    unfold bind at 1. cbn [set_base]. unfold bind at 1. cbn [set_pointer].
    unfold bind at 1. cbn [set_capacity]. cbn [self mem _base _pointer _capacity].
    unfold bind at 1. unfold on_object, Stack.destruct_.
    unfold bind at 1. cbn [get_base self mem _base].
    rewrite (delete_array_eq _ h2 (length h) cells Hnew). reflexivity.
  - apply block_insert_eq. lia.
Qed.

(** When its allocation fails, [copy()] throws and nothing has changed. *)
Lemma copy_refused (st : state T) :
  allocates sizeofT (mem st) (_capacity (self st)) = false ->
  Stack.copy sizeofT rev st = Throw (refusal sizeofT (_capacity (self st))) st.
Proof.
  destruct st as [s h]. cbn [self mem]. intros Hno. unfold Stack.copy.
  unfold bind at 1. cbn [Stack.capacity get_capacity self _capacity].
  apply bind_Throw. unfold on_object. cbn [mem self].
  change (Stack.construct sizeofT rev (_capacity s) (mkState Stack.raw_object h))
    with (Stack.new_stack sizeofT rev (_capacity s) h).
  rewrite (new_stack_refused sizeofT rev h _ Hno). reflexivity.
Qed.

(** Copy-assignment of a stack to itself: the buffer is released first, and
    [copy()] then reads it, unless its allocation fails: then the exception
    leaves the object with the released buffer. *)
Lemma assign_self_undefined (st : state T) (cap : Z) (l : list T) :
  Repr rev st cap l -> cap * sizeofT < 2 ^ 64 ->
  Stack.assign sizeofT rev (self st) st = Undefined
  \/ exists e st', Stack.assign sizeofT rev (self st) st = Throw e st'
                   /\ self st' = self st /\ buffer st' = None.
Proof.
  intros (b & h & rest & -> & Hb & Hlen & Hcap) Hcb.
  pose proof (block_lt _ _ _ Hb) as Hblt.
  destruct (allocates sizeofT (<[b:=None]> h) cap) eqn:Hgr; cycle 1.
  { right.
    pose proof (new_stack_refused sizeofT rev (<[b:=None]> h) cap Hgr) as He.
    exists (refusal sizeofT cap). eexists. split.
    - unfold Stack.assign, state_of. cbn [self].
      unfold bind at 1. cbn [get_base self _base is_null].
      rewrite (bind_Ret _ _ _ _ _ (delete_array_eq _ h b _ Hb)).
      apply bind_Throw. unfold on_object. cbn [mem self].
      unfold Stack.copy.
      unfold bind at 1. cbn [Stack.capacity get_capacity self _capacity].
      unfold bind at 1. unfold on_object at 1. cbn [mem self].
      change (Stack.construct sizeofT rev cap
                (mkState Stack.raw_object (<[b:=None]> h)))
        with (Stack.new_stack sizeofT rev cap (<[b:=None]> h)).
      rewrite He. cbn [mem self]. reflexivity.
    - split; [reflexivity|].
      unfold buffer. cbn [self mem _base].
      apply block_insert_eq. exact Hblt. }
  left.
  unfold Stack.assign, state_of. cbn [self].
  unfold bind at 1. cbn [get_base self _base is_null].
  rewrite (bind_Ret _ _ _ _ _ (delete_array_eq _ h b _ Hb)).
  apply bind_Undefined.
  unfold on_object. cbn [mem self].
  unfold Stack.copy.
  unfold bind at 1. cbn [Stack.capacity get_capacity self _capacity].
  unfold bind at 1. unfold on_object at 1. cbn [mem self].
  change (Stack.construct sizeofT rev cap (mkState Stack.raw_object (<[b:=None]> h)))
    with (Stack.new_stack sizeofT rev cap (<[b:=None]> h)).
  rewrite (new_stack_eq sizeofT rev _ cap ltac:(lia) Hgr).
  unfold state_of. cbn [self mem snd _base].
  unfold bind at 1. cbn [get_base self _base mem].
  assert (Hgone : block (<[b:=None]> h ++ [Some (replicate (Z.to_nat cap) Indet)]) b
                  = None).
  { unfold block, heap in *.
    rewrite lookup_app_l by (rewrite length_insert; exact Hblt).
    rewrite list_lookup_insert_eq by exact Hblt. reflexivity. }
  rewrite (bind_Undefined _ _ _ (memcpy_released sizeofT _ _ _ b _ Hgone)).
  reflexivity.
Qed.

End Copies.

(** ** The operations keep the representation *)

Section Invariant.
Context {T : Type}.
Variable rev : revision.
Implicit Types (st : state T) (l : list T).


Lemma push_ends st cap l (x : T) :
  Repr rev st cap l -> ends_represented rev (Stack.push rev x) st cap.
Proof.
  intros HR. pose proof (Repr_bounds rev _ _ _ HR) as [Hlen _].
  destruct (Z.eq_dec (Z.of_nat (length l)) cap) as [Hfull|Hroom].
  - right. exists overflow_error. exact (push_overflow rev _ _ _ x HR Hfull).
  - left. destruct (push_spec rev st cap l x HR) as (st' & H & HR'); [lia|].
    exists tt, st', (l ++ [x]). auto.
Qed.

Lemma pop_ends st cap l :
  Repr rev st cap l -> ends_represented rev (Stack.pop rev) st cap.
Proof.
  intros HR. destruct (Nat.eq_dec (length l) 0) as [Hl|Hne].
  - right. destruct l; [|discriminate Hl].
    exists underflow_error. exact (pop_underflow rev _ _ HR).
  - left. destruct (split_last l ltac:(lia)) as (below & x & ->).
    destruct (pop_spec rev _ _ _ _ HR) as (st' & H & HR').
    exists x, st', below. auto.
Qed.

Lemma drop_ends st cap l :
  Repr rev st cap l -> ends_represented rev (Stack.drop rev) st cap.
Proof.
  intros HR. unfold Stack.drop.
  destruct (pop_ends st cap l HR) as [(x & st' & l' & H & HR')|(e & H)].
  - left. exists tt, st', l'. rewrite (bind_Ret _ _ _ _ _ H). auto.
  - right. exists e. apply bind_Throw, H.
Qed.

Lemma peek_ends st cap l :
  Repr rev st cap l -> ends_represented rev (Stack.peek rev) st cap.
Proof.
  intros HR. destruct (Nat.eq_dec (length l) 0) as [Hl|Hne].
  - right. destruct l; [|discriminate Hl].
    exists underflow_error. exact (peek_underflow rev _ _ HR).
  - left. destruct (split_last l ltac:(lia)) as (below & x & ->).
    exists x, st, (below ++ [x]). split; [exact (peek_spec rev _ _ _ _ HR) | exact HR].
Qed.

Lemma pick_ends st cap l (n : Z) :
  Repr rev st cap l -> 0 <= n -> n + 1 < 2 ^ 31 ->
  ends_represented rev (Stack.pick rev n) st cap.
Proof.
  intros HR Hn Hint. pose proof (Repr_bounds rev _ _ _ HR) as [Hlen _].
  destruct (Z.le_gt_cases (Z.of_nat (length l)) n) as [Hle|Hgt].
  { right. exists underflow_error. exact (pick_underflow rev _ _ _ _ HR Hle). }
  destruct (Z.eq_dec (Z.of_nat (length l)) cap) as [Hfull|Hroom].
  { right. exists overflow_error. apply (pick_overflow rev _ _ _ _ HR); lia. }
  left. destruct (split_at_depth l (Z.to_nat n) ltac:(lia))
    as (below & x & above & -> & Ha).
  destruct (pick_spec rev st cap below x above n HR) as (st' & H & HR'); [lia..|].
  exists tt, st', ((below ++ x :: above) ++ [x]). auto.
Qed.

Lemma roll_ends st cap l (n : Z) :
  Repr rev st cap l -> 0 <= n -> n + 2 < 2 ^ 31 ->
  ends_represented rev (Stack.roll rev n) st cap.
Proof.
  intros HR Hn Hint. pose proof (Repr_bounds rev _ _ _ HR) as [Hlen _].
  destruct (Z.le_gt_cases (Z.of_nat (length l)) n) as [Hle|Hgt].
  { right. exists underflow_error. exact (roll_underflow rev _ _ _ _ HR Hle). }
  destruct (Z.eq_dec (Z.of_nat (length l)) cap) as [Hfull|Hroom].
  { right. exists overflow_error. apply (roll_overflow rev _ _ _ _ HR); lia. }
  left. destruct (split_at_depth l (Z.to_nat n) ltac:(lia))
    as (below & x & above & -> & Ha).
  destruct (roll_spec rev st cap below x above n HR) as (st' & H & HR'); [lia..|].
  exists tt, st', (below ++ above ++ [x]). auto.
Qed.

(** [swap] then a second primitive that succeeds on the swapped stack. *)
Lemma after_swap_ends (m : M T unit) st cap l :
  Repr rev st cap l ->
  (forall st1 below x y,
     Z.of_nat (length (below ++ [y; x])) < cap ->
     Repr rev st1 cap (below ++ [y; x]) ->
     exists st' l', m st1 = Ret tt st' /\ Repr rev st' cap l') ->
  ends_represented rev (Stack.swap rev;; m) st cap.
Proof.
  intros HR Hm.
  destruct (roll_ends st cap l 1 HR ltac:(lia) ltac:(reflexivity))
    as [([] & st1 & l1 & H & HR1)|(e & H)].
  - left. destruct (swap_Ret_inv rev _ _ _ _ HR H) as (below & x & y & -> & Hroom & HR1').
    destruct (Hm st1 below x y) as (st' & l' & Hm' & HR'); [|exact HR1'|].
    { rewrite length_app in *. exact Hroom. }
    exists tt, st', l'. split; [|exact HR'].
    exact (eq_trans (bind_Ret _ (fun _ => m) _ _ _ H) Hm').
  - right. exists e. apply bind_Throw, H.
Qed.

Lemma nip_ends st cap l :
  Repr rev st cap l -> ends_represented rev (Stack.nip rev) st cap.
Proof.
  intros HR. apply (after_swap_ends _ st cap l HR).
  intros st1 below x y _ HR1.
  destruct (drop_spec rev st1 cap (below ++ [y]) x) as (st' & H & HR').
  { rewrite <- app_assoc. exact HR1. }
  exists st', (below ++ [y]). auto.
Qed.

Lemma tuck_ends st cap l :
  Repr rev st cap l -> ends_represented rev (Stack.tuck rev) st cap.
Proof.
  intros HR. apply (after_swap_ends _ st cap l HR).
  intros st1 below x y Hroom HR1.
  destruct (over_spec rev st1 cap below y x HR1 Hroom) as (st' & H & HR').
  exists st', (below ++ [y; x; y]). auto.
Qed.

Lemma clear_ends st cap l :
  Repr rev st cap l -> ends_represented rev Stack.clear st cap.
Proof.
  intros (b & h & rest & -> & Hb & Hlen & Hcap). left.
  exists tt, (state_of h b 0 cap), []. split; [reflexivity|].
  exists b, h, (map Val l ++ rest). simpl. rewrite length_app, length_map.
  repeat split; [exact Hb | lia | exact Hcap].
Qed.

End Invariant.

Section MemoryClaims.
Context {T : Type} `{!Allocator T}.
Variable sizeofT : Z.
Hypothesis sizeofT_pos : 0 < sizeofT.
Variable rev : revision.
Implicit Types (st : state T) (l : list T).

Lemma on_object_Ret_inv {A} (obj s : Stack) (h h' : heap T) (body : M T A)
    (a : A) (obj' : Stack) :
  on_object obj body (mkState s h) = Ret (a, obj') (mkState s h') ->
  body (mkState obj h) = Ret a (mkState obj' h').
Proof.
  unfold on_object. simpl.
  destruct (body (mkState obj h)) as [a0 [s0 h0]| |]; try discriminate.
  simpl. intros H. inversion H. reflexivity.
Qed.

(** [allocate(n)] on a represented stack: it returns, the capacity is [n]
    and the size is what it was. *)
Lemma allocate_size st cap l (n : Z) :
  Repr rev st cap l -> cap * sizeofT < 2 ^ 64 ->
  0 <= n -> allocates sizeofT (mem st) n = true ->
  exists st',
    Stack.allocate sizeofT rev n st = Ret tt st' /\
    Stack.size rev st' = Ret (Z.of_nat (length l)) st' /\
    _capacity (self st') = n.
Proof.
  intros (b & h & rest & -> & Hb & Hlen & Hcap) Hcb Hn Hnb.
  destruct (allocate_state sizeofT sizeofT_pos rev h b (Z.of_nat (length l)) cap _ n Hb)
    as (h' & Halloc & _); try lia; try exact Hnb.
  { rewrite length_app, length_map. lia. }
  eexists. split; [exact Halloc|]. split; [apply size_state_of; lia | reflexivity].
Qed.

(** On the later revision, and on [stack.hh] when the buffer does not
    shrink, [allocate(n)] returns, the capacity is [n], the size is what it
    was, and the first [min(capacity, n)] slots of the new buffer are those
    of the old one. *)
Lemma allocate_keeps_slots st cap l (n : Z) (cells : list (cell T)) :
  Repr rev st cap l -> cap * sizeofT < 2 ^ 64 ->
  0 <= n -> allocates sizeofT (mem st) n = true ->
  rev = rev_size_t \/ cap <= n ->
  buffer st = Some cells ->
  exists st' cells',
    Stack.allocate sizeofT rev n st = Ret tt st' /\
    Stack.capacity st' = Ret n st' /\
    Stack.size rev st' = Ret (Z.of_nat (length l)) st' /\
    buffer st' = Some cells' /\
    length cells' = Z.to_nat n /\
    take (Z.to_nat (Z.min cap n)) cells' = take (Z.to_nat (Z.min cap n)) cells.
Proof.
  intros (b & h & rest & -> & Hb & Hlen & Hcap) Hcb Hn Hgr Hrev Hbuf.
  assert (Hnb : n * sizeofT < 2 ^ 64)
    by (apply (allocates_true sizeofT) in Hgr; lia).
  unfold buffer in Hbuf. simpl in Hbuf. rewrite Hb in Hbuf.
  inversion Hbuf; subst cells; clear Hbuf.
  assert (Hcells : Z.of_nat (length (map Val l ++ rest)) = cap).
  { rewrite length_app, length_map. lia. }
  destruct (allocate_state sizeofT sizeofT_pos rev h b (Z.of_nat (length l)) cap _ n Hb)
    as (h' & Halloc & Hnew & _); try lia; try exact Hgr.
  assert (Hbytes : Stack.allocate_bytes sizeofT rev cap n
                   = Z.of_nat (Z.to_nat (Z.min cap n)) * sizeofT).
  { rewrite Z2Nat.id by lia.
    unfold Stack.allocate_bytes, to_size_t, to_unsigned.
    destruct Hrev as [->|Hgrow].
    - destruct (Z.gtb_spec cap n); rewrite Z.mod_small by nia; f_equal; lia.
    - destruct rev; destruct (Z.gtb_spec cap n); try lia;
        rewrite Z.mod_small by nia; f_equal; lia. }
  rewrite Hbytes, copy_bytes_whole in Hnew by exact sizeofT_pos.
  eexists _, _. split; [exact Halloc|].
  split; [reflexivity|]. split; [apply size_state_of; lia|].
  split; [exact Hnew|]. split.
  - rewrite length_app, length_take, length_drop, length_replicate. lia.
  - rewrite take_app_le by (rewrite length_take; lia).
    rewrite take_take. f_equal. lia.
Qed.

End MemoryClaims.

(** C4 as stated fails for [allocate] below the size: a [Stack<int>] of
    capacity four holding three values, after [allocate(2)], has size three
    and capacity two. *)
Lemma C4_allocate_below_size :
  let st := int_state rev_size_t 4 [1; 2; 3] in
  Repr rev_size_t st 4 [1; 2; 3] /\
  exists st',
    Stack.allocate 4 rev_size_t 2 st = Ret tt st' /\
    Stack.size rev_size_t st' = Ret 3 st' /\
    Stack.capacity st' = Ret 2 st' /\
    ~ size_le_capacity rev_size_t st'.
Proof.
  cbv zeta. split; [repr_by_eval|].
  eexists. split; [vm_compute; reflexivity|].
  split; [vm_compute; reflexivity|]. split; [vm_compute; reflexivity|].
  intros (s & Hs & Hle). vm_compute in Hs. inversion Hs. subst s.
  vm_compute in Hle. destruct Hle as [_ Hle]. apply Hle. reflexivity.
Qed.

(** C5 on [stack.hh]: a [Stack<int>] of capacity eight holding 1, 2, 3, 4,
    after [allocate(4)], has capacity four and size four, and of the first
    four slots only the first is kept: [memcpy] was given four bytes. *)
Lemma C5_allocate_shrink_copies_bytes :
  let st := int_state rev_unsigned 8 [1; 2; 3; 4] in
  buffer st
  = Some [Val 1; Val 2; Val 3; Val 4; Indet; Indet; Indet; Indet] /\
  Stack.allocate_bytes 4 rev_unsigned 8 4 = 4 /\
  exists st',
    Stack.allocate 4 rev_unsigned 4 st = Ret tt st' /\
    Stack.capacity st' = Ret 4 st' /\
    Stack.size rev_unsigned st' = Ret 4 st' /\
    buffer st' = Some [Val 1; Indet; Indet; Indet].
Proof.
  cbv zeta. split; [vm_compute; reflexivity|]. split; [reflexivity|].
  eexists. split; [vm_compute; reflexivity|].
  repeat split; vm_compute; reflexivity.
Qed.

(** C9: assigning a [Stack<int>] that holds one value to itself is
    undefined in both revisions: [operator=] releases the buffer and
    [copy()] then reads it. *)
Lemma C9_self_assignment_undefined :
  let st := int_state rev_unsigned 2 [7] in
  let st' := int_state rev_size_t 2 [7] in
  Repr rev_unsigned st 2 [7] /\
  Stack.assign 4 rev_unsigned (self st) st = Undefined /\
  Repr rev_size_t st' 2 [7] /\
  Stack.assign 4 rev_size_t (self st') st' = Undefined.
Proof.
  cbv zeta. split; [repr_by_eval|]. split; [vm_compute; reflexivity|].
  split; [repr_by_eval|]. vm_compute; reflexivity.
Qed.

(** * Further properties of the class *)

(** ** Frames: what an operation leaves alone *)

Section FrameLemmas.
Context {T : Type}.
Variable rev : revision.
Implicit Types (st : state T) (l : list T) (h : heap T).

(** A represented stack stays represented when its own block is kept. *)
Lemma Repr_frame (o : Stack) h h' cap l b :
  Repr rev (mkState o h) cap l ->
  base_block o = Some b ->
  block h' b = block h b ->
  Repr rev (mkState o h') cap l.
Proof.
  intros (b0 & h0 & rest & Hst & Hb & Hlen & Hcap) Hbase Hkept.
  inversion Hst; subst o h0. unfold base_block in Hbase. simpl in Hbase.
  inversion Hbase; subst b0.
  exists b, h', rest. repeat split; try assumption. congruence.
Qed.

Lemma Repr_base_block st cap l :
  Repr rev st cap l -> exists b, base_block (self st) = Some b /\
                                 (b < length (mem st))%nat.
Proof.
  intros (b & h & rest & -> & Hb & _). exists b. split; [reflexivity|].
  exact (block_lt _ _ _ Hb).
Qed.

(** [push] writes into the buffer of the stack only. *)
Lemma push_frame st cap l (x : T) b :
  Repr rev st cap l -> Z.of_nat (length l) < cap ->
  base_block (self st) = Some b ->
  exists st',
    Stack.push rev x st = Ret tt st' /\
    Repr rev st' cap (l ++ [x]) /\
    base_block (self st') = Some b /\
    length (mem st') = length (mem st) /\
    other_blocks_kept b (mem st) (mem st').
Proof.
  intros (b0 & h & rest & -> & Hb & Hlen & Hcap) Hroom Hbase.
  unfold base_block in Hbase. simpl in Hbase. inversion Hbase; subst b0.
  destruct rest as [|c post]; [simpl in Hlen; lia|].
  destruct (push_ref_room rev h b (Z.of_nat (length l)) cap (Stack.Imm x) x
              (map Val l) c post Hb)
    as (h' & Hpush & Hb' & Hlen' & Hframe); try lia.
  { rewrite length_map. reflexivity. }
  { reflexivity. }
  exists (state_of h' b (Z.of_nat (length l) + 1) cap).
  split; [exact Hpush|]. split; [|split; [reflexivity|split; [exact Hlen'|]]].
  - exists b, h', post. rewrite length_app, map_app. simpl in *.
    split; [f_equal; lia|]. split; [|lia].
    rewrite <- app_assoc. exact Hb'.
  - intros b' Hne. apply Hframe. congruence.
Qed.

End FrameLemmas.

(** ** Construction, [clear], destruction *)

Section Lifecycle.
Context {T : Type} `{!Allocator T}.
Variable sizeofT : Z.
Variable rev : revision.
Implicit Types (st : state T) (l : list T) (h : heap T).

(** X1.  [Stack(n)] on a heap where [new T[n]] returns (the array has
    fewer than [2^63] bytes and the allocator grants it) returns an empty
    stack of capacity [n] whose buffer is a new block; the blocks that existed
    are untouched; [pop] on it throws [underflow_error], and when [n = 0] (the
    default) every [push] throws [overflow_error].  Where [new T[n]] does not
    return, the constructor throws [bad_array_new_length] (an array of [2^63]
    bytes or more) or [bad_alloc], and the heap is as it was. *)
Theorem new_stack_is_empty h (n : Z) :
  0 <= n -> n < 2 ^ index_bits rev ->
  (allocates sizeofT h n = true ->
   exists st,
     Stack.new_stack sizeofT rev n h = Ret tt st /\
     Repr rev st n [] /\
     base_block (self st) = Some (length h) /\
     (forall b cells, block h b = Some cells -> block (mem st) b = Some cells) /\
     Stack.pop rev st = Throw underflow_error st /\
     (n = 0 -> forall x, Stack.push rev x st = Throw overflow_error st)) /\
  (allocates sizeofT h n = false ->
   exists st,
     Stack.new_stack sizeofT rev n h = Throw (refusal sizeofT n) st /\
     mem st = h /\
     (2 ^ 63 <= n * sizeofT -> refusal sizeofT n = bad_array_new_length) /\
     (n * sizeofT < 2 ^ 63 -> refusal sizeofT n = bad_alloc)).
Proof.
  intros Hn Hidx. split.
  - intros Hgr.
    destruct (new_stack_Repr sizeofT rev h n Hn Hgr Hidx) as (st & Hnew & HR).
    exists st. split; [exact Hnew|]. split; [exact HR|].
    rewrite (new_stack_eq sizeofT rev h n Hn Hgr) in Hnew. inversion Hnew; subst st.
    split; [reflexivity|]. split; [|split].
    + intros b cells Hb. simpl. apply block_app_l, Hb.
    + exact (pop_underflow rev _ _ HR).
    + intros -> x. exact (push_overflow rev _ _ _ x HR eq_refl).
  - intros Hno. eexists. split; [exact (new_stack_refused sizeofT rev h n Hno)|].
    split; [reflexivity|]. unfold refusal.
    split; intros Hb; destruct (Z.leb_spec (2 ^ 63) (n * sizeofT)); (reflexivity || lia).
Qed.

(** X2.  [clear()] empties the stack and keeps its capacity; nothing in
    memory changes (the old values stay in the buffer), and a [pop] that
    follows throws [underflow_error]. *)
Theorem clear_empties st cap l :
  Repr rev st cap l ->
  exists st',
    Stack.clear st = Ret tt st' /\
    Repr rev st' cap [] /\
    mem st' = mem st /\
    buffer st' = buffer st /\
    Stack.pop rev st' = Throw underflow_error st'.
Proof.
  intros HR.
  assert (H : exists st', Stack.clear st = Ret tt st' /\ Repr rev st' cap [] /\
                          mem st' = mem st /\ buffer st' = buffer st).
  { destruct HR as (b & h & rest & -> & Hb & Hlen & Hcap).
    exists (state_of h b 0 cap). split; [reflexivity|]. split; [|auto].
    exists b, h, (map Val l ++ rest). simpl. rewrite length_app, length_map.
    repeat split; [exact Hb | lia | exact Hcap]. }
  destruct H as (st' & Hclear & HR' & Hmem & Hbuf).
  exists st'. repeat split; try assumption.
  exact (pop_underflow rev _ _ HR').
Qed.

(** X3.  The destructor releases the buffer and nothing else; destroying
    the object a second time is undefined (the block is deleted twice). *)
Theorem destructor_releases_once st cap l b :
  Repr rev st cap l ->
  base_block (self st) = Some b ->
  exists st',
    Stack.destruct_ st = Ret tt st' /\
    block (mem st') b = None /\
    other_blocks_kept b (mem st) (mem st') /\
    Stack.destruct_ st' = Undefined.
Proof.
  intros (b0 & h & rest & -> & Hb & Hlen & Hcap) Hbase.
  unfold base_block in Hbase. simpl in Hbase. inversion Hbase; subst b0.
  pose proof (block_lt _ _ _ Hb) as Hlt.
  exists (mkState (mkStack (Ptr b 0) (Ptr b (Z.of_nat (length l))) cap) (<[b := None]> h)).
  assert (Hgone : block (<[b := None]> h) b = None) by (apply block_insert_eq; exact Hlt).
  split; [|split; [exact Hgone|split]].
  - unfold Stack.destruct_, state_of. unfold bind. simpl. rewrite Hb. reflexivity.
  - intros b' Hne. simpl. apply block_insert_ne. congruence.
  - unfold Stack.destruct_. unfold bind. simpl. rewrite Hgone. reflexivity.
Qed.

End Lifecycle.

Lemma new_stack_is_empty_witness :
  (0 <= 3 /\ 3 < 2 ^ index_bits rev_unsigned /\
   allocates 4 ([] : heap Z) 3 = true /\
   exists st : state Z,
     Stack.new_stack 4 rev_unsigned 3 [] = Ret tt st /\
     Repr rev_unsigned st 3 [] /\
     Stack.pop rev_unsigned st = Throw underflow_error st) /\
  (0 <= 2 ^ 61 /\ 2 ^ 61 < 2 ^ index_bits rev_size_t /\
   allocates 4 ([] : heap Z) (2 ^ 61) = false /\
   exists st : state Z,
     Stack.new_stack 4 rev_size_t (2 ^ 61) [] = Throw bad_array_new_length st /\
     mem st = []).
Proof.
  split.
  - assert (H0 : 0 <= 3) by lia.
    assert (H2 : 3 < 2 ^ index_bits rev_unsigned) by reflexivity.
    assert (H3 : allocates 4 ([] : heap Z) 3 = true) by reflexivity.
    split; [exact H0|]. split; [exact H2|]. split; [exact H3|].
    destruct (new_stack_is_empty (T:=Z) 4 rev_unsigned [] 3 H0 H2)
      as [Hret _].
    destruct (Hret H3) as (st & Hnew & HR & _ & _ & Hpop & _).
    exists st. split; [exact Hnew|]. split; [exact HR|]. exact Hpop.
  - assert (H0 : 0 <= 2 ^ 61) by lia.
    assert (H2 : 2 ^ 61 < 2 ^ index_bits rev_size_t) by reflexivity.
    assert (H3 : allocates 4 ([] : heap Z) (2 ^ 61) = false) by reflexivity.
    split; [exact H0|]. split; [exact H2|]. split; [exact H3|].
    destruct (new_stack_is_empty (T:=Z) 4 rev_size_t [] (2 ^ 61) H0 H2)
      as [_ Hthrow].
    destruct (Hthrow H3) as (st & Hnew & Hmem & Hlen & _).
    exists st. split; [|exact Hmem].
    rewrite <- (Hlen ltac:(lia)). exact Hnew.
Defined.

Lemma clear_empties_witness :
  let st := int_state rev_unsigned 3 [1; 2] in
  Repr rev_unsigned st 3 [1; 2] /\
  exists st',
    Stack.clear st = Ret tt st' /\
    Repr rev_unsigned st' 3 [] /\
    buffer st' = Some [Val 1; Val 2; Indet].
Proof.
  cbv zeta.
  assert (HR : Repr rev_unsigned (int_state rev_unsigned 3 [1; 2]) 3 [1; 2])
    by repr_by_eval.
  split; [exact HR|].
  destruct (clear_empties rev_unsigned _ 3 [1; 2] HR) as (st' & H1 & H2 & _ & H3 & _).
  exists st'. split; [exact H1|]. split; [exact H2|]. rewrite H3. reflexivity.
Defined.

Lemma destructor_releases_once_witness :
  let st := int_state rev_size_t 2 [5] in
  Repr rev_size_t st 2 [5] /\
  base_block (self st) = Some 0%nat /\
  exists st',
    Stack.destruct_ st = Ret tt st' /\
    block (mem st') 0 = None /\
    Stack.destruct_ st' = Undefined.
Proof.
  cbv zeta.
  assert (HR : Repr rev_size_t (int_state rev_size_t 2 [5]) 2 [5]) by repr_by_eval.
  assert (Hb : base_block (self (int_state rev_size_t 2 [5])) = Some 0%nat)
    by reflexivity.
  split; [exact HR|]. split; [exact Hb|].
  destruct (destructor_releases_once rev_size_t _ 2 [5] 0%nat HR Hb)
    as (st' & H1 & H2 & _ & H3).
  exists st'. auto.
Defined.

(** ** [copy()] *)

Section CopyIndependence.
Context {T : Type} `{!Allocator T}.
Variable sizeofT : Z.
Hypothesis sizeofT_pos : 0 < sizeofT.
Variable rev : revision.
Implicit Types (st : state T) (l : list T) (h : heap T).

Lemma copy_spec st cap l :
  Repr rev st cap l -> cap * sizeofT < 2 ^ 64 ->
  allocates sizeofT (mem st) cap = true ->
  exists c h' b,
    Stack.copy sizeofT rev st = Ret c (mkState (self st) h') /\
    Repr rev (mkState (self st) h') cap l /\
    Repr rev (mkState c h') cap l /\
    base_block (self st) = Some b /\
    base_block c = Some (length (mem st)) /\
    (b < length (mem st))%nat /\
    length h' = S (length (mem st)).
Proof.
  intros (b & h & rest & -> & Hb & Hlen & Hcap) Hcb Hgr.
  pose proof (block_lt _ _ _ Hb) as Hlt.
  destruct (copy_state sizeofT sizeofT_pos rev h
              (mkStack (Ptr b 0) (Ptr b (Z.of_nat (length l))) cap)
              b (Z.of_nat (length l)) cap _ Hb)
    as (h' & Hcopy & Hnew & Hold & Hlen'); try lia; try exact Hgr.
  { rewrite length_app, length_map. lia. }
  apply on_object_Ret_inv in Hcopy.
  exists (mkStack (Ptr (length h) 0) (Ptr (length h) (Z.of_nat (length l))) cap), h', b.
  split; [exact Hcopy|]. split; [|split; [|repeat split; assumption]].
  - exists b, h', rest. repeat split; assumption.
  - exists (length h), h', rest. repeat split; assumption.
Qed.

(** X4.  Where [new T[capacity]] returns, [copy()] returns a stack of the
    same capacity holding the same values in a buffer of its own (a new
    block); the source keeps its members and its values.  Where it does not,
    [copy()] throws what [new] throws and nothing has changed. *)
Theorem copy_same_contents st cap l :
  Repr rev st cap l ->
  (allocates sizeofT (mem st) cap = true ->
   exists c st',
     Stack.copy sizeofT rev st = Ret c st' /\
     self st' = self st /\
     Repr rev st' cap l /\
     Repr rev (mkState c (mem st')) cap l /\
     base_block c = Some (length (mem st)) /\
     base_block c <> base_block (self st)) /\
  (allocates sizeofT (mem st) cap = false ->
   Stack.copy sizeofT rev st = Throw (refusal sizeofT cap) st).
Proof.
  intros HR. split.
  - intros Hgr.
    assert (Hcb : cap * sizeofT < 2 ^ 64)
      by (pose proof (allocates_true sizeofT _ _ Hgr); lia).
    destruct (copy_spec st cap l HR Hcb Hgr)
      as (c & h' & b & Hcopy & HR1 & HR2 & Hb & Hc & Hlt & _).
    exists c, (mkState (self st) h'). simpl.
    repeat split; try assumption.
    rewrite Hb, Hc. intros H. inversion H. lia.
  - intros Hno.
    pose proof (Repr_capacity rev _ _ _ HR) as Hc. inversion Hc as [Hc'].
    rewrite <- Hc' in Hno. exact (copy_refused sizeofT rev st Hno).
Qed.

(** X5.  The copy (made where [new T[capacity]] returns) and the source do
    not share storage: a [push] on the copy leaves the values of the source as
    they were, and a [push] on the source leaves the values of the copy as
    they were. *)
Theorem copy_independent st cap l :
  Repr rev st cap l ->
  allocates sizeofT (mem st) cap = true ->
  Z.of_nat (length l) < cap ->
  exists c st',
    Stack.copy sizeofT rev st = Ret c st' /\
    (forall x, exists st2,
        Stack.push rev x (mkState c (mem st')) = Ret tt st2 /\
        Repr rev st2 cap (l ++ [x]) /\
        Repr rev (mkState (self st) (mem st2)) cap l) /\
    (forall x, exists st3,
        Stack.push rev x st' = Ret tt st3 /\
        Repr rev st3 cap (l ++ [x]) /\
        Repr rev (mkState c (mem st3)) cap l).
Proof.
  intros HR Hgr Hroom.
  assert (Hcb : cap * sizeofT < 2 ^ 64)
    by (pose proof (allocates_true sizeofT _ _ Hgr); lia).
  destruct (copy_spec st cap l HR Hcb Hgr)
    as (c & h' & b & Hcopy & HR1 & HR2 & Hb & Hc & Hlt & _).
  exists c, (mkState (self st) h'). split; [exact Hcopy|]. split; intros x.
  - destruct (push_frame rev _ cap l x _ HR2 Hroom Hc) as (st2 & Hpush & HR' & _ & _ & Hkept).
    exists st2. split; [exact Hpush|]. split; [exact HR'|].
    apply (Repr_frame rev (self st) h' (mem st2) cap l b HR1 Hb).
    apply Hkept. lia.
  - destruct (push_frame rev _ cap l x _ HR1 Hroom Hb) as (st3 & Hpush & HR' & _ & _ & Hkept).
    exists st3. split; [exact Hpush|]. split; [exact HR'|].
    apply (Repr_frame rev c h' (mem st3) cap l _ HR2 Hc).
    apply Hkept. lia.
Qed.

End CopyIndependence.

Lemma copy_same_contents_witness :
  let st := int_state rev_unsigned 3 [1; 2] in
  Repr rev_unsigned st 3 [1; 2] /\
  allocates 4 (mem st) 3 = true /\
  exists c st',
    Stack.copy 4 rev_unsigned st = Ret c st' /\
    Repr rev_unsigned (mkState c (mem st')) 3 [1; 2] /\
    base_block c = Some 1%nat.
Proof.
  cbv zeta.
  assert (HR : Repr rev_unsigned (int_state rev_unsigned 3 [1; 2]) 3 [1; 2])
    by repr_by_eval.
  assert (Hgr : allocates 4 (mem (int_state rev_unsigned 3 [1; 2])) 3 = true)
    by reflexivity.
  split; [exact HR|]. split; [exact Hgr|].
  destruct (copy_same_contents 4 ltac:(lia) rev_unsigned _ 3 [1; 2] HR)
    as [Hret _].
  destruct (Hret Hgr) as (c & st' & H1 & _ & _ & H2 & H3 & _).
  exists c, st'. auto.
Defined.

Lemma copy_independent_witness :
  let st := int_state rev_unsigned 3 [1; 2] in
  Repr rev_unsigned st 3 [1; 2] /\
  allocates 4 (mem st) 3 = true /\
  Z.of_nat (length [1; 2]) < 3 /\
  exists c st' st2,
    Stack.copy 4 rev_unsigned st = Ret c st' /\
    Stack.push rev_unsigned 9 (mkState c (mem st')) = Ret tt st2 /\
    Repr rev_unsigned (mkState (self st) (mem st2)) 3 [1; 2].
Proof.
  cbv zeta.
  assert (HR : Repr rev_unsigned (int_state rev_unsigned 3 [1; 2]) 3 [1; 2])
    by repr_by_eval.
  assert (Hroom : Z.of_nat (length [1; 2]) < 3) by (simpl; lia).
  assert (Hgr : allocates 4 (mem (int_state rev_unsigned 3 [1; 2])) 3 = true)
    by reflexivity.
  split; [exact HR|]. split; [exact Hgr|].
  split; [exact Hroom|].
  destruct (copy_independent 4 ltac:(lia) rev_unsigned _ 3 [1; 2] HR Hgr Hroom)
    as (c & st' & H1 & H2 & _).
  destruct (H2 9) as (st2 & Hpush & _ & Hsrc).
  exists c, st', st2. auto.
Defined.

(** ** [allocate]: growing, shrinking *)

Section Resizing.
Context {T : Type} `{!Allocator T}.
Variable sizeofT : Z.
Hypothesis sizeofT_pos : 0 < sizeofT.
Implicit Types (st : state T) (l : list T) (h : heap T) (cells : list (cell T)).

(** [allocate(n)] on a represented stack, with the new buffer spelt out. *)
Lemma allocate_Repr_state (rev : revision) st cap l (n : Z) cells :
  Repr rev st cap l -> buffer st = Some cells ->
  cap * sizeofT < 2 ^ 64 -> 0 <= n -> allocates sizeofT (mem st) n = true ->
  exists h' b b',
    base_block (self st) = Some b /\
    Z.of_nat (length cells) = cap /\
    take (length l) cells = map Val l /\
    Stack.allocate sizeofT rev n st = Ret tt (state_of h' b' (Z.of_nat (length l)) n) /\
    block h' b'
    = Some (copy_bytes sizeofT (replicate (Z.to_nat n) Indet) cells
              (Stack.allocate_bytes sizeofT rev cap n)) /\
    block h' b = None.
Proof.
  intros (b & h & rest & -> & Hb & Hlen & Hcap) Hbuf Hcb Hn Hnb.
  unfold buffer in Hbuf. simpl in Hbuf. rewrite Hb in Hbuf.
  inversion Hbuf; subst cells; clear Hbuf.
  assert (Hcells : Z.of_nat (length (map Val l ++ rest)) = cap).
  { rewrite length_app, length_map. lia. }
  destruct (allocate_state sizeofT sizeofT_pos rev h b (Z.of_nat (length l)) cap _ n Hb)
    as (h' & Halloc & Hnew & Hold); try lia; try exact Hnb.
  exists h', b, (length h). repeat split; try assumption.
  rewrite take_app_length'; [reflexivity | rewrite length_map; reflexivity].
Qed.

(** The byte count of [allocate] when whole slots are copied. *)
Lemma allocate_bytes_slots (rev : revision) (cap n : Z) :
  0 <= cap -> 0 <= n -> cap * sizeofT < 2 ^ 64 -> n * sizeofT < 2 ^ 64 ->
  rev = rev_size_t \/ cap <= n ->
  Stack.allocate_bytes sizeofT rev cap n
  = Z.of_nat (Z.to_nat (Z.min cap n)) * sizeofT.
Proof.
  intros Hcap Hn Hcb Hnb Hrev. rewrite Z2Nat.id by lia.
  unfold Stack.allocate_bytes, to_size_t, to_unsigned.
  destruct Hrev as [->|Hgrow].
  - destruct (Z.gtb_spec cap n); rewrite Z.mod_small by nia; f_equal; lia.
  - destruct rev; destruct (Z.gtb_spec cap n); try lia;
      rewrite Z.mod_small by nia; f_equal; lia.
Qed.

Lemma allocate_keeps_Repr (rev : revision) st cap l (n : Z) :
  Repr rev st cap l ->
  cap * sizeofT < 2 ^ 64 -> allocates sizeofT (mem st) n = true ->
  n < 2 ^ index_bits rev ->
  cap <= n \/ rev = rev_size_t /\ Z.of_nat (length l) <= n ->
  exists st', Stack.allocate sizeofT rev n st = Ret tt st' /\ Repr rev st' n l.
Proof.
  intros HR Hcb Hgr Hidx Hcase.
  assert (Hnb : n * sizeofT < 2 ^ 64)
    by (apply (allocates_true sizeofT) in Hgr; lia).
  pose proof (Repr_bounds rev _ _ _ HR) as [Hlen Hcap].
  assert (Hbuf : exists cells, buffer st = Some cells).
  { destruct HR as (b & h & rest & -> & Hb & _). exists (map Val l ++ rest). exact Hb. }
  destruct Hbuf as (cells & Hbuf).
  destruct (allocate_Repr_state rev st cap l n cells HR Hbuf Hcb ltac:(lia) Hgr)
    as (h' & b & b' & _ & Hcells & Htake & Halloc & Hnew & _).
  assert (Hn : 0 <= n) by lia.
  assert (Hcase' : rev = rev_size_t \/ cap <= n) by tauto.
  rewrite (allocate_bytes_slots rev cap n ltac:(lia) Hn Hcb Hnb Hcase') in Hnew.
  rewrite copy_bytes_whole in Hnew by exact sizeofT_pos.
  set (m := Z.to_nat (Z.min cap n)) in *.
  assert (Hm : (length l <= m)%nat) by (unfold m; destruct Hcase; lia).
  assert (Hsplit : take m cells = map Val l ++ drop (length l) (take m cells)).
  { rewrite <- Htake at 1. rewrite <- (take_drop (length l) (take m cells)) at 1.
    rewrite take_take. f_equal. f_equal. lia. }
  eexists. split; [exact Halloc|].
  exists b', h', (drop (length l) (take m cells) ++ drop m (replicate (Z.to_nat n) Indet)).
  split; [reflexivity|]. split; [|split; [|exact Hidx]].
  - rewrite Hnew, Hsplit at 1. rewrite <- app_assoc. reflexivity.
  - rewrite length_app, !length_drop, length_take, length_replicate. lia.
Qed.

(** X6.  Growing keeps the stack: where [new T[n]] returns (the array has
    fewer than [2^63] bytes and the allocator grants it), after [allocate(n)]
    with [n] at least the capacity the stack holds the same values, in the
    same order, with capacity [n]; in the later revision this holds as soon as
    [n] is at least the size.  Where [new T[n]] does not return,
    [allocate(n)] throws what it throws and nothing has changed. *)
Theorem allocate_keeps_contents (rev : revision) st cap l (n : Z) :
  Repr rev st cap l ->
  cap * sizeofT < 2 ^ 64 -> n < 2 ^ index_bits rev ->
  cap <= n \/ rev = rev_size_t /\ Z.of_nat (length l) <= n ->
  (allocates sizeofT (mem st) n = true ->
   exists st',
     Stack.allocate sizeofT rev n st = Ret tt st' /\
     Repr rev st' n l /\
     Stack.size rev st' = Ret (Z.of_nat (length l)) st' /\
     Stack.capacity st' = Ret n st') /\
  (allocates sizeofT (mem st) n = false ->
   Stack.allocate sizeofT rev n st = Throw (refusal sizeofT n) st).
Proof.
  intros HR Hcb Hidx Hcase. split.
  - intros Hgr.
    destruct (allocate_keeps_Repr rev st cap l n HR Hcb Hgr Hidx Hcase)
      as (st' & H & HR').
    exists st'. split; [exact H|]. split; [exact HR'|].
    split; [exact (Repr_size rev _ _ _ HR') | exact (Repr_capacity rev _ _ _ HR')].
  - exact (allocate_refused sizeofT rev st n).
Qed.

(** X7.  Overflow is recovered by growing: on a full stack [push] throws
    [overflow_error]; where [new T[n]] returns (the array has fewer than
    [2^63] bytes and the allocator grants it), after [allocate(n)] with [n]
    above the capacity the same [push] returns, and the stack holds the old
    values and the new one.  Where [new T[n]] does not return, [allocate(n)]
    throws what it throws and the stack is as it was, still full. *)
Theorem grow_then_push (rev : revision) st cap l (n : Z) (x : T) :
  Repr rev st cap l ->
  Z.of_nat (length l) = cap -> cap < n ->
  n < 2 ^ index_bits rev ->
  Stack.push rev x st = Throw overflow_error st /\
  (allocates sizeofT (mem st) n = true ->
   exists st1 st2,
     Stack.allocate sizeofT rev n st = Ret tt st1 /\
     Stack.push rev x st1 = Ret tt st2 /\
     Repr rev st2 n (l ++ [x])) /\
  (allocates sizeofT (mem st) n = false ->
   Stack.allocate sizeofT rev n st = Throw (refusal sizeofT n) st).
Proof.
  intros HR Hfull Hgrow Hidx.
  split; [exact (push_overflow rev _ _ _ x HR Hfull)|]. split.
  - intros Hgr.
    assert (Hnb : n * sizeofT < 2 ^ 63)
      by (apply (allocates_true sizeofT) in Hgr; lia).
    destruct (allocate_keeps_Repr rev st cap l n HR ltac:(nia) Hgr Hidx ltac:(lia))
      as (st1 & Halloc & HR1).
    destruct (push_spec rev st1 n l x HR1 ltac:(lia)) as (st2 & Hpush & HR2).
    exists st1, st2. auto.
  - exact (allocate_refused sizeofT rev st n).
Qed.

(** [pop] when the slot below [_pointer] holds no value (or lies outside the
    block): undefined. *)
Lemma pop_no_value (rev : revision) h b (k cap : Z) cells :
  block h b = Some cells ->
  0 < k < 2 ^ index_bits rev ->
  (forall x, cells !! Z.to_nat (k - 1) <> Some (Val x)) ->
  Stack.pop rev (state_of h b k cap) = Undefined.
Proof.
  intros Hb Hk Hno. unfold Stack.pop.
  rewrite (bind_Ret _ _ _ _ _ (size_state_of rev h b k cap ltac:(lia))).
  destruct (Z.leb_spec k 0); [lia|].
  unfold state_of. unfold bind at 1. simpl. unfold bind. simpl.
  unfold load. simpl. rewrite Hb.
  replace (k + -1) with (k - 1) by lia.
  destruct (Z.ltb_spec (k - 1) 0); [reflexivity|].
  destruct (cells !! Z.to_nat (k - 1)) as [[|x]|] eqn:Hc; try reflexivity.
  destruct (Hno x). reflexivity.
Qed.




(** X10.  After [allocate(n)] with [n] below the size (either revision),
    where [new T[n]] returns, [push] throws [overflow_error], [pop] is
    undefined (the slot below [_pointer] lies outside the new buffer), and
    [clear()] brings the stack back to an empty stack of capacity [n].  Where
    [new T[n]] does not return, [allocate(n)] throws what it throws and
    nothing has changed. *)
Theorem allocate_below_size_then (rev : revision) st cap l (n : Z) :
  Repr rev st cap l ->
  cap * sizeofT < 2 ^ 64 ->
  0 <= n < Z.of_nat (length l) ->
  (allocates sizeofT (mem st) n = true ->
   exists st',
     Stack.allocate sizeofT rev n st = Ret tt st' /\
     (forall x, Stack.push rev x st' = Throw overflow_error st') /\
     Stack.pop rev st' = Undefined /\
     exists st'', Stack.clear st' = Ret tt st'' /\ Repr rev st'' n []) /\
  (allocates sizeofT (mem st) n = false ->
   Stack.allocate sizeofT rev n st = Throw (refusal sizeofT n) st).
Proof.
  intros HR Hcb Hn.
  split; [|exact (allocate_refused sizeofT rev st n)]. intros Hgr.
  pose proof (Repr_bounds rev _ _ _ HR) as [Hlen Hcap].
  assert (Hbuf : exists cells, buffer st = Some cells).
  { destruct HR as (b & h & rest & -> & Hb & _). exists (map Val l ++ rest). exact Hb. }
  destruct Hbuf as (cells & Hbuf).
  destruct (allocate_Repr_state rev st cap l n cells HR Hbuf Hcb ltac:(lia) Hgr)
    as (h' & b & b' & _ & Hcells & _ & Halloc & Hnew & _).
  destruct (allocate_bytes_bounds sizeofT sizeofT_pos rev cap n
              ltac:(lia) ltac:(lia) Hcb ltac:(nia)) as (Hb0 & Hbn & Hbc).
  set (cells' := copy_bytes sizeofT (replicate (Z.to_nat n) Indet) cells
                   (Stack.allocate_bytes sizeofT rev cap n)) in *.
  assert (Hlen' : length cells' = Z.to_nat n).
  { unfold cells'. rewrite (copy_bytes_length sizeofT sizeofT_pos);
      rewrite ?length_replicate; lia. }
  eexists. split; [exact Halloc|]. split; [|split].
  - intros x. apply push_ref_full; lia.
  - apply (pop_no_value rev h' b' _ n _ Hnew); [lia|].
    intros x Hx. apply lookup_lt_Some in Hx. lia.
  - exists (state_of h' b' 0 n). split; [reflexivity|].
    exists b', h', cells'. simpl. repeat split; [exact Hnew | lia | lia].
Qed.

End Resizing.

Lemma allocate_keeps_contents_witness :
  let st := int_state rev_unsigned 2 [1; 2] in
  let big := int_state rev_size_t 2 [1; 2] in
  (Repr rev_unsigned st 2 [1; 2] /\
   2 * 4 < 2 ^ 64 /\ 4 < 2 ^ index_bits rev_unsigned /\
   (2 <= 4 \/ rev_unsigned = rev_size_t /\ Z.of_nat (length [1; 2]) <= 4) /\
   allocates 4 (mem st) 4 = true /\
   exists st',
     Stack.allocate 4 rev_unsigned 4 st = Ret tt st' /\
     Repr rev_unsigned st' 4 [1; 2]) /\
  (Repr rev_size_t big 2 [1; 2] /\
   2 * 4 < 2 ^ 64 /\ 2 ^ 61 < 2 ^ index_bits rev_size_t /\
   (2 <= 2 ^ 61 \/ rev_size_t = rev_size_t /\ Z.of_nat (length [1; 2]) <= 2 ^ 61) /\
   allocates 4 (mem big) (2 ^ 61) = false /\
   Stack.allocate 4 rev_size_t (2 ^ 61) big = Throw bad_array_new_length big).
Proof.
  cbv zeta. split.
  - assert (HR : Repr rev_unsigned (int_state rev_unsigned 2 [1; 2]) 2 [1; 2])
      by repr_by_eval.
    assert (H1 : 2 * 4 < 2 ^ 64) by reflexivity.
    assert (H3 : 4 < 2 ^ index_bits rev_unsigned) by reflexivity.
    assert (H4 : 2 <= 4 \/ rev_unsigned = rev_size_t /\ Z.of_nat (length [1; 2]) <= 4)
      by (left; lia).
    assert (H5 : allocates 4 (mem (int_state rev_unsigned 2 [1; 2])) 4 = true)
      by reflexivity.
    split; [exact HR|]. split; [exact H1|]. split; [exact H3|].
    split; [exact H4|]. split; [exact H5|].
    destruct (allocate_keeps_contents 4 ltac:(lia) rev_unsigned _ 2 [1; 2] 4 HR H1 H3 H4)
      as [Hret _].
    destruct (Hret H5) as (st' & Ha & HR' & _).
    exists st'. auto.
  - assert (HR : Repr rev_size_t (int_state rev_size_t 2 [1; 2]) 2 [1; 2])
      by repr_by_eval.
    assert (H1 : 2 * 4 < 2 ^ 64) by reflexivity.
    assert (H3 : 2 ^ 61 < 2 ^ index_bits rev_size_t) by reflexivity.
    assert (H4 : 2 <= 2 ^ 61
                 \/ rev_size_t = rev_size_t /\ Z.of_nat (length [1; 2]) <= 2 ^ 61)
      by (left; lia).
    assert (H5 : allocates 4 (mem (int_state rev_size_t 2 [1; 2])) (2 ^ 61) = false)
      by reflexivity.
    split; [exact HR|]. split; [exact H1|]. split; [exact H3|].
    split; [exact H4|]. split; [exact H5|].
    destruct (allocate_keeps_contents 4 ltac:(lia) rev_size_t _ 2 [1; 2] (2 ^ 61)
                HR H1 H3 H4)
      as [_ Hthrow].
    exact (Hthrow H5).
Defined.

Lemma grow_then_push_witness :
  let st := int_state rev_unsigned 2 [1; 2] in
  Repr rev_unsigned st 2 [1; 2] /\
  Z.of_nat (length [1; 2]) = 2 /\ 2 < 3 /\
  3 < 2 ^ index_bits rev_unsigned /\
  allocates 4 (mem st) 3 = true /\
  Stack.push rev_unsigned 3 st = Throw overflow_error st /\
  exists st1 st2,
    Stack.allocate 4 rev_unsigned 3 st = Ret tt st1 /\
    Stack.push rev_unsigned 3 st1 = Ret tt st2 /\
    Repr rev_unsigned st2 3 [1; 2; 3].
Proof.
  cbv zeta.
  assert (HR : Repr rev_unsigned (int_state rev_unsigned 2 [1; 2]) 2 [1; 2])
    by repr_by_eval.
  assert (H1 : Z.of_nat (length [1; 2]) = 2) by reflexivity.
  assert (H2 : 2 < 3) by lia.
  assert (H4 : 3 < 2 ^ index_bits rev_unsigned) by reflexivity.
  assert (H5 : allocates 4 (mem (int_state rev_unsigned 2 [1; 2])) 3 = true)
    by reflexivity.
  split; [exact HR|]. split; [exact H1|]. split; [exact H2|]. split; [exact H4|].
  split; [exact H5|].
  destruct (grow_then_push 4 ltac:(lia) rev_unsigned _ 2 [1; 2] 3 3 HR H1 H2 H4)
    as (Hfull & Hret & _).
  split; [exact Hfull | exact (Hret H5)].
Defined.



Lemma allocate_below_size_then_witness :
  let st := int_state rev_size_t 4 [1; 2; 3] in
  Repr rev_size_t st 4 [1; 2; 3] /\
  4 * 4 < 2 ^ 64 /\
  0 <= 2 < Z.of_nat (length [1; 2; 3]) /\
  allocates 4 (mem st) 2 = true /\
  exists st',
    Stack.allocate 4 rev_size_t 2 st = Ret tt st' /\
    Stack.push rev_size_t 9 st' = Throw overflow_error st' /\
    Stack.pop rev_size_t st' = Undefined /\
    exists st'', Stack.clear st' = Ret tt st'' /\ Repr rev_size_t st'' 2 [].
Proof.
  cbv zeta.
  assert (HR : Repr rev_size_t (int_state rev_size_t 4 [1; 2; 3]) 4 [1; 2; 3])
    by repr_by_eval.
  assert (H1 : 4 * 4 < 2 ^ 64) by reflexivity.
  assert (H2 : 0 <= 2 < Z.of_nat (length [1; 2; 3])) by (simpl; lia).
  assert (H3 : allocates 4 (mem (int_state rev_size_t 4 [1; 2; 3])) 2 = true)
    by reflexivity.
  split; [exact HR|]. split; [exact H1|]. split; [exact H2|]. split; [exact H3|].
  destruct (allocate_below_size_then 4 ltac:(lia) rev_size_t _ 4 [1; 2; 3] 2 HR H1 H2)
    as [Hret _].
  destruct (Hret H3) as (st' & Ha & Hpush & Hpop & Hclear).
  exists st'. split; [exact Ha|]. split; [exact (Hpush 9)|]. split; [exact Hpop|].
  exact Hclear.
Defined.

(** ** After copy-assignment *)

Section AfterAssign.
Context {T : Type} `{!Allocator T}.
Variable sizeofT : Z.
Variable rev : revision.
Implicit Types (st : state T) (h : heap T).

Lemma memcpy_Ret_inv (d : nat) (src : ptr) (nbytes : Z) st st' :
  memcpy sizeofT (Ptr d 0) src nbytes st = Ret tt st' ->
  self st' = self st /\ exists cells, block (mem st') d = Some cells.
Proof.
  unfold memcpy. destruct src as [|s [| |]]; try discriminate.
  destruct (block (mem st) d) as [dcells|] eqn:Hd; [|discriminate].
  destruct (block (mem st) s) as [scells|]; [|discriminate].
  destruct (decide (d = s)); [discriminate|].
  destruct (_ || _); [discriminate|].
  intros H. inversion H. simpl. split; [reflexivity|].
  eexists. apply block_insert_eq. exact (block_lt _ _ _ Hd).
Qed.

(** What [copy()] returns points into a block of its own, allocated. *)
Lemma copy_Ret_shape st st2 (c : Stack) :
  Stack.copy sizeofT rev st = Ret c st2 ->
  exists d k cells,
    _base c = Ptr d 0 /\ _pointer c = Ptr d k /\
    block (mem st2) d = Some cells /\ self st2 = self st.
Proof.
  destruct st as [s h]. unfold Stack.copy.
  unfold bind at 1. cbn [Stack.capacity get_capacity self _capacity].
  unfold bind at 1. unfold on_object. cbn [mem self].
  unfold Stack.construct, Stack.raw_object.
  unfold bind at 1. cbn [set_base]. unfold bind at 1. cbn [set_pointer].
  unfold bind at 1. cbn [set_capacity]. cbn [self mem _base _pointer _capacity].
  unfold Stack.allocate. unfold bind at 1. unfold new_array. cbn [self mem].
  destruct (2 ^ 63 <=? _capacity s * sizeofT); [discriminate|].
  destruct (grants h (_capacity s * sizeofT)); [|discriminate].
  unfold bind at 1. unfold Stack.size at 1. cbn [self mem _base _pointer ptr_diff].
  unfold bind at 1. cbn [get_base self _base is_null].
  unfold bind at 1. cbn [ret]. unfold bind at 1.
  cbn [set_base self mem _base _pointer _capacity].
  unfold bind at 1. cbn [set_pointer self mem _base _pointer _capacity].
  cbn [set_capacity self mem _base _pointer _capacity snd ptr_add].
  intros H.
  apply bind_Ret_inv in H as (b & st1 & Hb & H). inversion Hb; subst b st1; clear Hb.
  apply bind_Ret_inv in H as ([] & st3 & Hm & H).
  apply memcpy_Ret_inv in Hm as (Hself & cells & Hcells).
  apply bind_Ret_inv in H as (s0 & st4 & Hs & H).
  apply size_Ret in Hs. subst st4. inversion H; subst c st2.
  eexists _, _, cells. repeat split; [exact Hcells | exact Hself].
Qed.

(** Whenever [operator=] returns, [*this] points into the block of the
    local [copy], which the destructor of [copy] has released. *)
Lemma assign_Ret_shape (stack : Stack) st st' :
  Stack.assign sizeofT rev stack st = Ret tt st' ->
  exists d k cap,
    self st' = mkStack (Ptr d 0) (Ptr d k) cap /\ block (mem st') d = None.
Proof.
  unfold Stack.assign. intros H.
  apply bind_Ret_inv in H as (b & st0 & Hb & H). inversion Hb; subst b st0; clear Hb.
  apply bind_Ret_inv in H as ([] & st1 & _ & H).
  apply bind_Ret_inv in H as ([c o] & st2 & Hcopy & H).
  unfold on_object in Hcopy.
  destruct (Stack.copy sizeofT rev (mkState stack (mem st1))) as [c' stc| |] eqn:Hc;
    try discriminate.
  inversion Hcopy; subst c' o st2; clear Hcopy.
  apply copy_Ret_shape in Hc as (d & k & cells & Hbase & Hptr & Hcells & _).
  cbn [fst] in H.
  unfold bind at 1 in H. cbn [set_base] in H.
  unfold bind at 1 in H. cbn [set_pointer self mem _base _pointer _capacity] in H.
  unfold bind at 1 in H. cbn [set_capacity self mem _base _pointer _capacity] in H.
  unfold bind at 1, on_object, Stack.destruct_ in H.
  cbn [self mem] in H. unfold bind at 1 in H. cbn [get_base self] in H.
  rewrite Hbase in H. unfold delete_array in H. cbn [mem] in H.
  rewrite Hcells in H. simpl in H. inversion H; subst st'. simpl.
  exists d, k, (_capacity c). rewrite Hptr. split; [reflexivity|].
  apply block_insert_eq. exact (block_lt _ _ _ Hcells).
Qed.

Lemma store_released (b : nat) (off : Z) (x : T) st :
  block (mem st) b = None -> store (Ptr b off) x st = Undefined.
Proof. intros Hb. unfold store. rewrite Hb. reflexivity. Qed.

Lemma load_released (b : nat) (off : Z) st :
  block (mem st) b = None -> load (Ptr b off) st = Undefined.
Proof. intros Hb. unfold load. rewrite Hb. reflexivity. Qed.

(** X11.  Whenever copy-assignment returns, whatever the destination and
    the source were, the buffer of the destination is a released block: the
    local [copy] whose buffer [*this] has taken is destroyed on return. *)
Theorem assign_releases_buffer (stack : Stack) st st' :
  Stack.assign sizeofT rev stack st = Ret tt st' ->
  (exists d, base_block (self st') = Some d /\ block (mem st') d = None) /\
  buffer st' = None.
Proof.
  intros H. apply assign_Ret_shape in H as (d & k & cap & Hself & Hgone).
  split.
  - exists d. unfold base_block. rewrite Hself. auto.
  - unfold buffer. rewrite Hself. exact Hgone.
Qed.

(** X12.  After copy-assignment has returned the destination cannot be
    used: no [push] and no [pop] on it returns (each throws or is undefined),
    and destroying it is undefined (its block is deleted a second time). *)
Theorem assign_then_unusable (stack : Stack) st st' :
  Stack.assign sizeofT rev stack st = Ret tt st' ->
  Stack.destruct_ st' = Undefined /\
  (forall x st'', Stack.push rev x st' <> Ret tt st'') /\
  (forall x st'', Stack.pop rev st' <> Ret x st'').
Proof.
  intros H. apply assign_Ret_shape in H as (d & k & cap & Hself & Hgone).
  split; [|split].
  - unfold Stack.destruct_. unfold bind. cbn [get_base]. rewrite Hself. simpl.
    unfold delete_array. rewrite Hgone. reflexivity.
  - intros x st'' Hpush. unfold Stack.push, Stack.push_ref in Hpush.
    apply bind_Ret_inv in Hpush as (s & st1 & Hs & Hpush).
    apply size_Ret in Hs. subst st1.
    apply bind_Ret_inv in Hpush as (c & st1 & Hc & Hpush).
    inversion Hc; subst c st1; clear Hc.
    destruct (_ >=? _); [discriminate Hpush|].
    unfold bind at 1 in Hpush. cbn [Stack.read ret] in Hpush.
    unfold bind at 1 in Hpush. cbn [get_pointer] in Hpush.
    rewrite Hself in Hpush. cbn [_pointer] in Hpush.
    rewrite (bind_Undefined _ _ _ (store_released d k x st' Hgone)) in Hpush.
    discriminate Hpush.
  - intros x st'' Hpop. unfold Stack.pop in Hpop.
    apply bind_Ret_inv in Hpop as (s & st1 & Hs & Hpop).
    apply size_Ret in Hs. subst st1.
    destruct (_ <=? _); [discriminate Hpop|].
    unfold bind at 1 in Hpop. cbn [get_pointer] in Hpop.
    rewrite Hself in Hpop. cbn [_pointer ptr_add] in Hpop.
    unfold bind at 1 in Hpop. cbn [set_pointer] in Hpop.
    rewrite load_released in Hpop by exact Hgone.
    discriminate Hpop.
Qed.

End AfterAssign.

Lemma assign_releases_buffer_witness :
  let h : heap Z := [Some [Val 1; Indet]; Some [Val 7; Val 8]] in
  let dst := mkStack (Ptr 0 0) (Ptr 0 1) 2 in
  let src := mkStack (Ptr 1 0) (Ptr 1 2) 2 in
  exists st',
    Stack.assign 4 rev_unsigned src (mkState dst h) = Ret tt st' /\
    buffer st' = None.
Proof.
  cbv zeta.
  destruct (Stack.assign 4 rev_unsigned (mkStack (Ptr 1 0) (Ptr 1 2) 2)
              (mkState (mkStack (Ptr 0 0) (Ptr 0 1) 2)
                 [Some [Val 1; Indet]; Some [Val 7; Val 8]]))
    as [[] st'| |] eqn:H; try (vm_compute in H; discriminate H).
  exists st'. split; [reflexivity|].
  exact (proj2 (assign_releases_buffer 4 rev_unsigned _ _ _ H)).
Defined.

Lemma assign_then_unusable_witness :
  let h : heap Z := [Some [Val 1; Indet]; Some [Val 7; Val 8]] in
  let dst := mkStack (Ptr 0 0) (Ptr 0 1) 2 in
  let src := mkStack (Ptr 1 0) (Ptr 1 2) 2 in
  exists st',
    Stack.assign 4 rev_size_t src (mkState dst h) = Ret tt st' /\
    Stack.destruct_ st' = Undefined /\
    (forall x st'', Stack.pop rev_size_t st' <> Ret x st'').
Proof.
  cbv zeta.
  destruct (Stack.assign 4 rev_size_t (mkStack (Ptr 1 0) (Ptr 1 2) 2)
              (mkState (mkStack (Ptr 0 0) (Ptr 0 1) 2)
                 [Some [Val 1; Indet]; Some [Val 7; Val 8]]))
    as [[] st'| |] eqn:H; try (vm_compute in H; discriminate H).
  exists st'. split; [reflexivity|].
  destruct (assign_then_unusable 4 rev_size_t _ _ _ H) as (Hd & _ & Hpop).
  split; [exact Hd | exact Hpop].
Defined.

(** ** How the operations compose *)

Section Compositions.
Context {T : Type}.
Variable rev : revision.
Implicit Types (st : state T) (l below above : list T).

(** X13.  [pick(n)] followed by [pop] reads the value at depth [n]: the
    [pop] returns it and the stack holds what it held. *)
Theorem pick_then_pop_reads st cap l (n : nat) :
  Repr rev st cap l ->
  (n < length l)%nat -> Z.of_nat (length l) < cap ->
  Z.of_nat n + 1 < 2 ^ 31 ->
  exists x st',
    at_depth l n = Some x /\
    (Stack.pick rev (Z.of_nat n);; Stack.pop rev) st = Ret x st' /\
    Repr rev st' cap l.
Proof.
  intros HR Hn Hroom Hint.
  destruct (split_at_depth l n Hn) as (below & x & above & -> & Ha).
  destruct (pick_spec rev st cap below x above (Z.of_nat n) HR) as (st1 & Hpick & HR1);
    [lia..|].
  destruct (pop_spec rev st1 cap _ x HR1) as (st' & Hpop & HR').
  exists x, st'. split; [rewrite <- Ha; apply at_depth_split|].
  split; [|exact HR'].
  exact (eq_trans (bind_Ret _ (fun _ => Stack.pop rev) _ _ _ Hpick) Hpop).
Qed.

(** X14.  [roll(n)] followed by [pop] removes the value at depth [n]: the
    [pop] returns it, and the values below and above it stay, in order. *)
Theorem roll_then_pop_removes st cap below (x : T) above :
  Repr rev st cap (below ++ x :: above) ->
  Z.of_nat (length (below ++ x :: above)) < cap ->
  Z.of_nat (length above) + 2 < 2 ^ 31 ->
  exists st',
    (Stack.roll rev (Z.of_nat (length above));; Stack.pop rev) st = Ret x st' /\
    Repr rev st' cap (below ++ above).
Proof.
  intros HR Hroom Hint.
  destruct (roll_spec rev st cap below x above _ HR eq_refl Hroom Hint)
    as (st1 & Hroll & HR1).
  rewrite app_assoc in HR1.
  destruct (pop_spec rev st1 cap _ x HR1) as (st' & Hpop & HR').
  exists st'. split; [|exact HR'].
  exact (eq_trans (bind_Ret _ (fun _ => Stack.pop rev) _ _ _ Hroll) Hpop).
Qed.

(** [k] calls of [roll(n)] rotate the top [n + 1] values by [k] places. *)
Lemma roll_iterated (n : nat) cap below (ys1 : list T) :
  forall ys2 st,
    length (ys1 ++ ys2) = S n ->
    Repr rev st cap (below ++ ys1 ++ ys2) ->
    Z.of_nat (length below + S n) < cap ->
    Z.of_nat n + 2 < 2 ^ 31 ->
    exists st',
      repeat_op (length ys1) (Stack.roll rev (Z.of_nat n)) st = Ret tt st' /\
      Repr rev st' cap (below ++ ys2 ++ ys1).
Proof.
  induction ys1 as [|x ys1 IH]; intros ys2 st Hlen HR Hroom Hint.
  - exists st. rewrite app_nil_r. auto.
  - simpl in Hlen, HR.
    destruct (roll_spec rev st cap below x (ys1 ++ ys2) (Z.of_nat n) HR)
      as (st1 & Hroll & HR1); [lia | | lia |].
    { rewrite length_app. simpl. lia. }
    rewrite <- app_assoc in HR1.
    destruct (IH (ys2 ++ [x]) st1) as (st' & Hrest & HR'); try assumption.
    { rewrite !length_app in *. simpl. lia. }
    exists st'. split.
    + simpl. rewrite (bind_Ret _ _ _ _ _ Hroll). exact Hrest.
    + rewrite <- app_assoc in HR'. exact HR'.
Qed.

(** X15.  [roll(n)] applied [n + 1] times gives back the stack ([swap]
    twice, [rot] three times, ...), provided there is a free slot. *)
Theorem roll_cycle st cap l (n : nat) :
  Repr rev st cap l ->
  (n < length l)%nat -> Z.of_nat (length l) < cap ->
  Z.of_nat n + 2 < 2 ^ 31 ->
  exists st',
    repeat_op (S n) (Stack.roll rev (Z.of_nat n)) st = Ret tt st' /\
    Repr rev st' cap l.
Proof.
  intros HR Hn Hroom Hint.
  destruct (split_at_depth l n Hn) as (below & x & above & -> & Ha).
  rewrite length_app in Hroom. simpl in Hroom.
  destruct (roll_iterated n cap below (x :: above) [] st) as (st' & H & HR').
  - rewrite app_nil_r. simpl. lia.
  - rewrite app_nil_r. exact HR.
  - lia.
  - exact Hint.
  - exists st'. simpl in H. rewrite Ha in H. auto.
Qed.

(** X16.  The stack effects written above the derived primitives hold for
    all values, below any rest of the stack, when there is a free slot:
    [dup ( z -- z z )], [drop ( y z -- y )], [swap ( y z -- z y )],
    [over ( y z -- y z y )], [rot ( x y z -- y z x )], [nip ( x y z -- x z )],
    [tuck ( x y z -- x z y z )]. *)
Theorem stack_effects st cap below (x y z : T) :
  Repr rev st cap (below ++ [x; y; z]) ->
  Z.of_nat (length (below ++ [x; y; z])) < cap ->
  (exists st', Stack.dup rev st = Ret tt st' /\ Repr rev st' cap (below ++ [x; y; z; z])) /\
  (exists st', Stack.drop rev st = Ret tt st' /\ Repr rev st' cap (below ++ [x; y])) /\
  (exists st', Stack.swap rev st = Ret tt st' /\ Repr rev st' cap (below ++ [x; z; y])) /\
  (exists st', Stack.over rev st = Ret tt st' /\ Repr rev st' cap (below ++ [x; y; z; y])) /\
  (exists st', Stack.rot rev st = Ret tt st' /\ Repr rev st' cap (below ++ [y; z; x])) /\
  (exists st', Stack.nip rev st = Ret tt st' /\ Repr rev st' cap (below ++ [x; z])) /\
  (exists st', Stack.tuck rev st = Ret tt st' /\ Repr rev st' cap (below ++ [x; z; y; z])).
Proof.
  intros HR Hroom.
  assert (E1 : below ++ [x; y; z] = (below ++ [x; y]) ++ [z])
    by (rewrite <- app_assoc; reflexivity).
  assert (E2 : below ++ [x; y; z] = (below ++ [x]) ++ [y; z])
    by (rewrite <- app_assoc; reflexivity).
  repeat match goal with |- _ /\ _ => split end.
  - rewrite E1 in HR, Hroom.
    destruct (dup_spec rev st cap _ z HR Hroom) as (st' & H & HR').
    exists st'. rewrite <- app_assoc in HR'. auto.
  - rewrite E1 in HR. exact (drop_spec rev st cap _ z HR).
  - rewrite E2 in HR, Hroom.
    destruct (swap_spec rev st cap _ y z HR Hroom) as (st' & H & HR').
    exists st'. rewrite <- app_assoc in HR'. auto.
  - rewrite E2 in HR, Hroom.
    destruct (over_spec rev st cap _ y z HR Hroom) as (st' & H & HR').
    exists st'. rewrite <- app_assoc in HR'. auto.
  - exact (rot_spec rev st cap below x y z HR Hroom).
  - rewrite E2 in HR, Hroom.
    destruct (nip_spec rev st cap _ y z HR Hroom) as (st' & H & HR').
    exists st'. rewrite <- app_assoc in HR'. auto.
  - rewrite E2 in HR, Hroom.
    destruct (tuck_spec rev st cap _ y z HR Hroom) as (st' & H & HR').
    exists st'. rewrite <- app_assoc in HR'. auto.
Qed.

(** X17.  On a full stack every primitive built on [pick] throws
    [overflow_error] and leaves the stack as it was, also those that do not
    grow it ([swap], [rot]) or that shrink it ([nip]); [drop] and [peek] still
    work. *)
Theorem full_stack_primitives st cap l :
  Repr rev st cap l ->
  Z.of_nat (length l) = cap -> (3 <= length l)%nat ->
  Stack.dup rev st = Throw overflow_error st /\
  Stack.over rev st = Throw overflow_error st /\
  Stack.swap rev st = Throw overflow_error st /\
  Stack.rot rev st = Throw overflow_error st /\
  Stack.nip rev st = Throw overflow_error st /\
  Stack.tuck rev st = Throw overflow_error st /\
  (exists st' l', Stack.drop rev st = Ret tt st' /\ Repr rev st' cap l' /\
                  S (length l') = length l) /\
  (exists x, Stack.peek rev st = Ret x st).
Proof.
  intros HR Hfull Hl.
  assert (Hpick : forall n, 0 <= n < 3 ->
             Stack.pick rev n st = Throw overflow_error st).
  { intros n Hn. apply (pick_overflow rev _ _ _ _ HR); try lia. }
  assert (Hroll : forall n, 0 <= n < 3 ->
             Stack.roll rev n st = Throw overflow_error st).
  { intros n Hn. apply (roll_overflow rev _ _ _ _ HR); try lia. }
  destruct (split_last l ltac:(lia)) as (below & x & ->).
  repeat match goal with |- _ /\ _ => split end.
  - apply Hpick. lia.
  - apply Hpick. lia.
  - apply Hroll. lia.
  - apply Hroll. lia.
  - unfold Stack.nip. apply bind_Throw. apply Hroll. lia.
  - unfold Stack.tuck. apply bind_Throw. apply Hroll. lia.
  - destruct (drop_spec rev st cap below x HR) as (st' & H & HR').
    exists st', below. split; [exact H|]. split; [exact HR'|].
    rewrite length_app. simpl. lia.
  - exists x. exact (peek_spec rev _ _ _ _ HR).
Qed.

End Compositions.

Lemma pick_then_pop_reads_witness :
  let st := int_state rev_unsigned 4 [1; 2; 3] in
  Repr rev_unsigned st 4 [1; 2; 3] /\
  (2 < length [1; 2; 3])%nat /\ Z.of_nat (length [1; 2; 3]) < 4 /\
  Z.of_nat 2 + 1 < 2 ^ 31 /\
  exists st',
    (Stack.pick rev_unsigned 2;; Stack.pop rev_unsigned) st = Ret 1 st' /\
    Repr rev_unsigned st' 4 [1; 2; 3].
Proof.
  cbv zeta.
  assert (HR : Repr rev_unsigned (int_state rev_unsigned 4 [1; 2; 3]) 4 [1; 2; 3])
    by repr_by_eval.
  assert (H1 : (2 < length [1; 2; 3])%nat) by (simpl; lia).
  assert (H2 : Z.of_nat (length [1; 2; 3]) < 4) by (simpl; lia).
  assert (H3 : Z.of_nat 2 + 1 < 2 ^ 31) by reflexivity.
  split; [exact HR|]. split; [exact H1|]. split; [exact H2|]. split; [exact H3|].
  destruct (pick_then_pop_reads rev_unsigned _ 4 [1; 2; 3] 2 HR H1 H2 H3)
    as (x & st' & Hx & Hrun & HR').
  vm_compute in Hx. inversion Hx; subst x.
  exists st'. auto.
Defined.

Lemma roll_then_pop_removes_witness :
  let st := int_state rev_size_t 4 [1; 2; 3] in
  Repr rev_size_t st 4 ([1] ++ 2 :: [3]) /\
  Z.of_nat (length ([1] ++ 2 :: [3])) < 4 /\
  Z.of_nat (length [3]) + 2 < 2 ^ 31 /\
  exists st',
    (Stack.roll rev_size_t 1;; Stack.pop rev_size_t) st = Ret 2 st' /\
    Repr rev_size_t st' 4 [1; 3].
Proof.
  cbv zeta.
  assert (HR : Repr rev_size_t (int_state rev_size_t 4 [1; 2; 3]) 4 ([1] ++ 2 :: [3]))
    by repr_by_eval.
  assert (H1 : Z.of_nat (length ([1] ++ 2 :: [3])) < 4) by (simpl; lia).
  assert (H2 : Z.of_nat (length [3]) + 2 < 2 ^ 31) by reflexivity.
  split; [exact HR|]. split; [exact H1|]. split; [exact H2|].
  exact (roll_then_pop_removes rev_size_t _ 4 [1] 2 [3] HR H1 H2).
Defined.

Lemma roll_cycle_witness :
  let st := int_state rev_unsigned 4 [1; 2; 3] in
  Repr rev_unsigned st 4 [1; 2; 3] /\
  (2 < length [1; 2; 3])%nat /\ Z.of_nat (length [1; 2; 3]) < 4 /\
  Z.of_nat 2 + 2 < 2 ^ 31 /\
  exists st',
    (Stack.rot rev_unsigned;; Stack.rot rev_unsigned;; Stack.rot rev_unsigned;; ret tt) st
    = Ret tt st' /\
    Repr rev_unsigned st' 4 [1; 2; 3].
Proof.
  cbv zeta.
  assert (HR : Repr rev_unsigned (int_state rev_unsigned 4 [1; 2; 3]) 4 [1; 2; 3])
    by repr_by_eval.
  assert (H1 : (2 < length [1; 2; 3])%nat) by (simpl; lia).
  assert (H2 : Z.of_nat (length [1; 2; 3]) < 4) by (simpl; lia).
  assert (H3 : Z.of_nat 2 + 2 < 2 ^ 31) by reflexivity.
  split; [exact HR|]. split; [exact H1|]. split; [exact H2|]. split; [exact H3|].
  exact (roll_cycle rev_unsigned _ 4 [1; 2; 3] 2 HR H1 H2 H3).
Defined.

Lemma stack_effects_witness :
  let st := int_state rev_unsigned 5 [0; 1; 2; 3] in
  Repr rev_unsigned st 5 ([0] ++ [1; 2; 3]) /\
  Z.of_nat (length ([0] ++ [1; 2; 3])) < 5 /\
  (exists st', Stack.nip rev_unsigned st = Ret tt st' /\
               Repr rev_unsigned st' 5 [0; 1; 3]) /\
  (exists st', Stack.tuck rev_unsigned st = Ret tt st' /\
               Repr rev_unsigned st' 5 [0; 1; 3; 2; 3]).
Proof.
  cbv zeta.
  assert (HR : Repr rev_unsigned (int_state rev_unsigned 5 [0; 1; 2; 3]) 5
                 ([0] ++ [1; 2; 3])) by repr_by_eval.
  assert (H1 : Z.of_nat (length ([0] ++ [1; 2; 3])) < 5) by (simpl; lia).
  split; [exact HR|]. split; [exact H1|].
  destruct (stack_effects rev_unsigned _ 5 [0] 1 2 3 HR H1)
    as (_ & _ & _ & _ & _ & Hnip & Htuck).
  split; [exact Hnip | exact Htuck].
Defined.

Lemma full_stack_primitives_witness :
  let st := int_state rev_unsigned 3 [1; 2; 3] in
  Repr rev_unsigned st 3 [1; 2; 3] /\
  Z.of_nat (length [1; 2; 3]) = 3 /\ (3 <= length [1; 2; 3])%nat /\
  Stack.nip rev_unsigned st = Throw overflow_error st /\
  Stack.peek rev_unsigned st = Ret 3 st.
Proof.
  cbv zeta.
  assert (HR : Repr rev_unsigned (int_state rev_unsigned 3 [1; 2; 3]) 3 [1; 2; 3])
    by repr_by_eval.
  assert (H1 : Z.of_nat (length [1; 2; 3]) = 3) by reflexivity.
  assert (H2 : (3 <= length [1; 2; 3])%nat) by (simpl; lia).
  split; [exact HR|]. split; [exact H1|]. split; [exact H2|].
  destruct (full_stack_primitives rev_unsigned _ 3 [1; 2; 3] HR H1 H2)
    as (_ & _ & _ & _ & Hnip & _ & _ & x & Hpeek).
  split; [exact Hnip|].
  assert (Hx : x = 3).
  { assert (Hc : Stack.peek rev_unsigned (int_state rev_unsigned 3 [1; 2; 3])
                 = Ret 3 (int_state rev_unsigned 3 [1; 2; 3]))
      by (vm_compute; reflexivity).
    rewrite Hc in Hpeek. inversion Hpeek. reflexivity. }
  subst x. exact Hpeek.
Defined.

(** * The invariant over the reachable states *)

(** ** What completes keeps the sizes *)

Section WellSized.
Context {T : Type}.
Variable rev : revision.
Implicit Types (st : state T) (h : heap T).

Lemma well_sized_size st :
  well_sized rev st ->
  exists b k cap,
    self st = mkStack (Ptr b 0) (Ptr b k) cap /\
    0 <= k <= cap /\ cap < 2 ^ index_bits rev /\
    Stack.size rev st = Ret k st /\
    forall cells, block (mem st) b = Some cells -> Z.of_nat (length cells) = cap.
Proof.
  destruct st as [o h]. intros (b & k & cap & Hself & Hk & Hcap & Hblk).
  simpl in Hself. subst o. exists b, k, cap.
  split; [reflexivity|]. split; [exact Hk|]. split; [exact Hcap|].
  split; [apply (size_state_of rev h b k cap); lia | exact Hblk].
Qed.

Lemma well_sized_size_le_capacity st :
  well_sized rev st -> size_le_capacity rev st.
Proof.
  intros Hws.
  destruct (well_sized_size st Hws) as (b & k & cap & Hself & Hk & _ & Hsz & _).
  exists k. split; [exact Hsz|]. rewrite Hself. simpl. lia.
Qed.

Lemma lengths_kept_refl h : lengths_kept h h.
Proof. intros b cells Hb. exists cells. auto. Qed.

Lemma lengths_kept_release h b : lengths_kept h (<[b := None]> h).
Proof.
  intros b' cells Hb'. destruct (decide (b = b')) as [<-|Hne].
  - destruct (block h b) as [c|] eqn:Hb.
    + pose proof (block_insert_eq h b None (block_lt _ _ _ Hb)) as E.
      rewrite E in Hb'. discriminate Hb'.
    + exfalso. revert Hb'. unfold block, heap in *.
      destruct (decide (b < length h)%nat) as [Hlt|Hge].
      * rewrite list_lookup_insert_eq by exact Hlt. discriminate.
      * rewrite list_insert_ge by lia. rewrite Hb. discriminate.
  - pose proof (block_insert_ne h b b' None Hne) as E. rewrite E in Hb'.
    exists cells. auto.
Qed.

Lemma well_sized_kept st st' :
  well_sized rev st -> self st' = self st -> lengths_kept (mem st) (mem st') ->
  well_sized rev st'.
Proof.
  intros (b & k & cap & Hself & Hk & Hcap & Hblk) Hs Hkept.
  exists b, k, cap. rewrite Hs.
  split; [exact Hself|]. split; [exact Hk|]. split; [exact Hcap|].
  intros cells Hc. destruct (Hkept b cells Hc) as (cells0 & Hc0 & Hlen).
  rewrite Hlen. exact (Hblk _ Hc0).
Qed.

Lemma store_kept (p : ptr) (x : T) st st' :
  store p x st = Ret tt st' ->
  self st' = self st /\ lengths_kept (mem st) (mem st').
Proof.
  unfold store. destruct p as [|b off]; [discriminate|].
  destruct (block (mem st) b) as [cells|] eqn:Hb; [|discriminate].
  destruct (_ || _); [discriminate|]. intros H. inversion H; subst st'; clear H.
  simpl. split; [reflexivity|]. intros b' cells' Hb'.
  destruct (decide (b = b')) as [<-|Hne].
  - pose proof (block_insert_eq (mem st) b
                  (Some (<[Z.to_nat off := Val x]> cells)) (block_lt _ _ _ Hb)) as E.
    rewrite E in Hb'. inversion Hb'; subst cells'.
    exists cells. split; [exact Hb|]. apply length_insert.
  - pose proof (block_insert_ne (mem st) b b'
                  (Some (<[Z.to_nat off := Val x]> cells)) Hne) as E.
    rewrite E in Hb'. exists cells'. auto.
Qed.

(** *** The monad *)

Lemma keeps_bind {A B} (m : M T A) (k : A -> M T B) :
  keeps_well_sized (T:=T) rev m -> (forall a, keeps_well_sized (T:=T) rev (k a)) ->
  keeps_well_sized (T:=T) rev (bind m k).
Proof.
  intros Hm Hk st st' Hws [[b H]|[e H]].
  - apply bind_Ret_inv in H as (a & st1 & Ha & H).
    apply (Hk a st1 st'); [|left; exists b; exact H].
    apply (Hm st st1 Hws). left. exists a. exact Ha.
  - apply bind_Throw_inv in H as [H|(a & st1 & Ha & H)].
    + apply (Hm st st' Hws). right. exists e. exact H.
    + apply (Hk a st1 st'); [|right; exists e; exact H].
      apply (Hm st st1 Hws). left. exists a. exact Ha.
Qed.

Lemma keeps_unchanged {A} (m : M T A) :
  (forall st st', completes_in m st st' -> st' = st) -> keeps_well_sized (T:=T) rev m.
Proof. intros Hsame st st' Hws Hc. rewrite (Hsame st st' Hc). exact Hws. Qed.

Lemma keeps_ret {A} (a : A) : keeps_well_sized (T:=T) rev (ret a : M T A).
Proof.
  apply keeps_unchanged. intros st st' [[a' H]|[e H]]; unfold ret in H;
    [inversion H; reflexivity | discriminate H].
Qed.

Lemma keeps_throw {A} (e : exn) : keeps_well_sized (T:=T) rev (throw e : M T A).
Proof.
  apply keeps_unchanged. intros st st' [[a' H]|[e' H]]; unfold throw in H;
    [discriminate H | inversion H; reflexivity].
Qed.

Lemma keeps_undefined {A} : keeps_well_sized (T:=T) rev (undefined : M T A).
Proof.
  apply keeps_unchanged. intros st st' [[a' H]|[e' H]]; discriminate H.
Qed.

Lemma keeps_size : keeps_well_sized (T:=T) rev (Stack.size rev).
Proof.
  apply keeps_unchanged. intros st st' [[s H]|[e H]].
  - exact (size_Ret rev _ _ _ H).
  - destruct (size_no_throw rev _ _ _ H).
Qed.

Lemma keeps_get_pointer : keeps_well_sized (T:=T) rev (get_pointer : M T ptr).
Proof.
  apply keeps_unchanged. intros st st' [[s H]|[e H]]; unfold get_pointer in H;
    [inversion H; reflexivity | discriminate H].
Qed.

Lemma keeps_capacity : keeps_well_sized (T:=T) rev (Stack.capacity : M T Z).
Proof.
  apply keeps_unchanged. intros st st' [[s H]|[e H]];
    unfold Stack.capacity, get_capacity in H;
    [inversion H; reflexivity | discriminate H].
Qed.

Lemma keeps_load (p : ptr) : keeps_well_sized (T:=T) rev (load p : M T T).
Proof.
  apply keeps_unchanged. intros st st' [[x H]|[e H]].
  - exact (load_Ret _ _ _ _ H).
  - destruct (load_no_throw _ _ _ _ H).
Qed.

Lemma keeps_store (p : ptr) (x : T) : keeps_well_sized (T:=T) rev (store p x).
Proof.
  intros st st' Hws [[[] H]|[e H]].
  - apply store_kept in H as [Hself Hmem].
    exact (well_sized_kept st st' Hws Hself Hmem).
  - destruct (store_no_throw _ _ _ _ _ H).
Qed.

(** *** The operations *)

Lemma push_ref_kept st st' (x : Stack.operand T) :
  Stack.push_ref rev x st = Ret tt st' -> lengths_kept (mem st) (mem st').
Proof.
  unfold Stack.push_ref. intros H.
  apply bind_Ret_inv in H as (s & st0 & Hs & H).
  apply size_Ret in Hs. subst st0.
  apply bind_Ret_inv in H as (c & st1 & Hc & H).
  inversion Hc; subst c st1; clear Hc.
  destruct (_ >=? _); [discriminate H|].
  apply bind_Ret_inv in H as (v & st1 & Hv & H).
  assert (st1 = st) as ->.
  { destruct x; simpl in Hv; [inversion Hv; reflexivity | exact (load_Ret _ _ _ _ Hv)]. }
  apply bind_Ret_inv in H as (p & st1 & Hp & H).
  inversion Hp; subst p st1; clear Hp.
  apply bind_Ret_inv in H as ([] & st2 & Hst & H).
  apply store_kept in Hst as [_ Hk].
  unfold set_pointer in H. inversion H; subst st'. exact Hk.
Qed.

Lemma keeps_push_ref (x : Stack.operand T) :
  keeps_well_sized (T:=T) rev (Stack.push_ref rev x).
Proof.
  intros st st' Hws [[[] H]|[e H]].
  - pose proof (push_ref_kept _ _ _ H) as Hmem.
    apply push_ref_Ret_inv in H as (Hself & s & Hs & Hlt).
    destruct (well_sized_size st Hws) as (b & k & cap & Hst & Hk & Hcap & Hsz & Hblk).
    rewrite Hsz in Hs. inversion Hs; subst s.
    rewrite Hst in Hself, Hlt. simpl in Hself, Hlt.
    exists b, (k + 1), cap. split; [exact Hself|]. split; [lia|].
    split; [exact Hcap|].
    intros cells Hc. destruct (Hmem b cells Hc) as (c0 & Hc0 & Hl).
    rewrite Hl. exact (Hblk _ Hc0).
  - apply push_ref_Throw_inv in H as (-> & _). exact Hws.
Qed.

Lemma keeps_pop : keeps_well_sized (T:=T) rev (Stack.pop rev).
Proof.
  intros st st' Hws [[x H]|[e H]].
  - destruct (well_sized_size st Hws) as (b & k & cap & Hst & Hk & Hcap & Hsz & Hblk).
    unfold Stack.pop in H. rewrite (bind_Ret _ _ _ _ _ Hsz) in H.
    destruct (Z.leb_spec k 0) as [Hle|Hpos]; [discriminate H|].
    apply bind_Ret_inv in H as (p & st1 & Hp & H).
    unfold get_pointer in Hp. inversion Hp; subst p st1; clear Hp.
    apply bind_Ret_inv in H as ([] & st2 & Hset & H).
    unfold set_pointer in Hset. inversion Hset; subst st2; clear Hset.
    apply load_Ret in H. subst st'. rewrite Hst. simpl.
    exists b, (k + -1), cap. simpl.
    split; [reflexivity|]. split; [lia|]. split; [exact Hcap | exact Hblk].
  - apply pop_Throw_inv in H as [-> _]. exact Hws.
Qed.

Lemma keeps_push (x : T) : keeps_well_sized (T:=T) rev (Stack.push rev x).
Proof. apply keeps_push_ref. Qed.

Lemma keeps_drop : keeps_well_sized (T:=T) rev (Stack.drop rev).
Proof.
  unfold Stack.drop. apply keeps_bind; [exact keeps_pop | intros x; apply keeps_ret].
Qed.

Lemma keeps_peek : keeps_well_sized (T:=T) rev (Stack.peek rev).
Proof.
  unfold Stack.peek. apply keeps_bind; [exact keeps_pop|]. intros x.
  apply keeps_bind; [apply keeps_push | intros u; apply keeps_ret].
Qed.

Lemma keeps_pick (n : Z) : keeps_well_sized (T:=T) rev (Stack.pick rev n).
Proof.
  unfold Stack.pick. apply keeps_bind; [exact keeps_size|]. intros s.
  destruct (s <=? n); [apply keeps_throw|].
  destruct (neg_signed _ _) as [i|]; [|apply keeps_undefined].
  apply keeps_bind; [exact keeps_get_pointer|]. intros p. apply keeps_push_ref.
Qed.

Lemma keeps_roll_loop (count : nat) :
  forall i, keeps_well_sized (T:=T) rev (Stack.roll_loop count i : M T unit).
Proof.
  induction count as [|count IH]; intros i; simpl; [apply keeps_ret|].
  apply keeps_bind; [exact keeps_get_pointer|]. intros p.
  apply keeps_bind; [apply keeps_load|]. intros v.
  apply keeps_bind; [apply keeps_store|]. intros u. apply IH.
Qed.

Lemma keeps_roll (n : Z) : keeps_well_sized (T:=T) rev (Stack.roll rev n).
Proof.
  unfold Stack.roll. apply keeps_bind; [apply keeps_pick|]. intros u.
  apply keeps_bind; [|intros u'; exact keeps_drop].
  destruct (neg_signed _ _) as [i|]; [apply keeps_roll_loop | apply keeps_undefined].
Qed.

Lemma keeps_nip : keeps_well_sized (T:=T) rev (Stack.nip rev).
Proof.
  unfold Stack.nip, Stack.swap.
  apply keeps_bind; [apply keeps_roll | intros u; exact keeps_drop].
Qed.

Lemma keeps_tuck : keeps_well_sized (T:=T) rev (Stack.tuck rev).
Proof.
  unfold Stack.tuck, Stack.swap, Stack.over.
  apply keeps_bind; [apply keeps_roll | intros u; apply keeps_pick].
Qed.

Lemma keeps_clear : keeps_well_sized (T:=T) rev (Stack.clear : M T unit).
Proof.
  intros st st' Hws [[[] H]|[e H]].
  - destruct Hws as (b & k & cap & Hst & Hk & Hcap & Hblk).
    unfold Stack.clear, bind, get_base, set_pointer in H. inversion H; subst st'.
    rewrite Hst. simpl. exists b, 0, cap.
    split; [reflexivity|]. split; [lia|]. split; [exact Hcap | exact Hblk].
  - unfold Stack.clear, bind, get_base, set_pointer in H. discriminate H.
Qed.

(** The block of the object is all that [well_sized] looks at. *)
Lemma well_sized_frame (o : Stack) h h' b :
  well_sized rev (mkState o h) ->
  base_block o = Some b -> block h' b = block h b ->
  well_sized rev (mkState o h').
Proof.
  intros (b0 & k & cap & Hst & Hk & Hcap & Hblk) Hbase Hsame.
  simpl in Hst. subst o. unfold base_block in Hbase. simpl in Hbase.
  inversion Hbase; subst b0.
  exists b, k, cap. split; [reflexivity|]. split; [exact Hk|].
  split; [exact Hcap|]. simpl. rewrite Hsame. exact Hblk.
Qed.

End WellSized.

(** ** Allocation, copies and copy-assignment, where they complete *)

Section ReachableStates.
Context {T : Type} `{!Allocator T}.
Variable sizeofT : Z.
Hypothesis sizeofT_pos : 0 < sizeofT.
Variable rev : revision.
Implicit Types (st : state T) (h : heap T).

Lemma block_app_other h (o : option (list (cell T))) b :
  b <> length h -> block (h ++ [o]) b = block h b.
Proof.
  intros Hne. unfold block, heap in *.
  destruct (decide (b < length h)%nat) as [Hlt|Hge].
  - rewrite lookup_app_l by exact Hlt. reflexivity.
  - rewrite lookup_app_r by lia.
    rewrite (proj2 (lookup_ge_None h b)) by lia.
    destruct (b - length h)%nat as [|m] eqn:Hm; [lia|]. reflexivity.
Qed.

Lemma memcpy_no_throw (dst src : ptr) (nbytes : Z) st st' (e : exn) :
  memcpy sizeofT dst src nbytes st <> Throw e st'.
Proof.
  unfold memcpy. destruct dst as [|d [| |]]; destruct src as [|s [| |]];
    try discriminate.
  destruct (block (mem st) d); [|discriminate].
  destruct (block (mem st) s); [|discriminate].
  destruct (decide (d = s)); [discriminate|].
  destruct (_ || _); discriminate.
Qed.

Lemma memcpy_Ret_blocks (d : nat) (src : ptr) (nbytes : Z) st st' :
  memcpy sizeofT (Ptr d 0) src nbytes st = Ret tt st' ->
  exists s dcells scells,
    src = Ptr s 0 /\ d <> s /\
    block (mem st) d = Some dcells /\ block (mem st) s = Some scells /\
    nbytes <= Z.of_nat (length dcells) * sizeofT /\
    nbytes <= Z.of_nat (length scells) * sizeofT /\
    st' = mkState (self st)
            (<[d := Some (copy_bytes sizeofT dcells scells nbytes)]> (mem st)).
Proof.
  unfold memcpy. destruct src as [|s [| |]]; try discriminate.
  destruct (block (mem st) d) as [dcells|] eqn:Hd; [|discriminate].
  destruct (block (mem st) s) as [scells|] eqn:Hs; [|discriminate].
  destruct (decide (d = s)) as [|Hne]; [discriminate|].
  destruct (Z.ltb_spec (Z.of_nat (length dcells) * sizeofT) nbytes) as [|Hd'];
    [discriminate|].
  destruct (Z.ltb_spec (Z.of_nat (length scells) * sizeofT) nbytes) as [|Hs'];
    [discriminate|].
  simpl. intros H. inversion H.
  exists s, dcells, scells. repeat split; assumption.
Qed.

Lemma delete_array_no_throw (p : ptr) st st' (e : exn) :
  delete_array p st <> Throw e st'.
Proof.
  unfold delete_array. destruct p as [|b off]; [discriminate|].
  destruct (block (mem st) b); [|discriminate].
  destruct (off =? 0); discriminate.
Qed.

Lemma delete_array_Ret (b : nat) (off : Z) st st' :
  delete_array (Ptr b off) st = Ret tt st' ->
  st' = mkState (self st) (<[b := None]> (mem st)) /\
  block (mem st') b = None.
Proof.
  unfold delete_array. destruct (block (mem st) b) as [cells|] eqn:Hb; [|discriminate].
  destruct (off =? 0); [|discriminate]. intros H. inversion H. simpl.
  split; [reflexivity|]. apply block_insert_eq. exact (block_lt _ _ _ Hb).
Qed.

(** The first statement of [operator=]. *)
Lemma release_kept (p : ptr) st st' :
  (if is_null p then ret tt else delete_array p) st = Ret tt st' ->
  self st' = self st /\ lengths_kept (mem st) (mem st').
Proof.
  destruct p as [|b off]; simpl.
  - unfold ret. intros H. inversion H. split; [reflexivity | apply lengths_kept_refl].
  - intros H. apply delete_array_Ret in H as [-> _]. simpl.
    split; [reflexivity | apply lengths_kept_release].
Qed.

Lemma release_no_throw (p : ptr) st st' (e : exn) :
  (if is_null p then ret tt else delete_array p) st <> Throw e st'.
Proof.
  destruct p as [|b off]; cbn [is_null]; [discriminate | apply delete_array_no_throw].
Qed.

Lemma allocate_bytes_nonneg (cap n : Z) :
  0 <= n -> 0 <= Stack.allocate_bytes sizeofT rev cap n.
Proof.
  intros Hn. unfold Stack.allocate_bytes, to_size_t, to_unsigned.
  destruct rev; [destruct (cap >? n); [exact Hn|]|];
    apply Z.mod_pos_bound; reflexivity.
Qed.

(** *** allocate *)

Lemma allocate_Throw_inv st st' (n : Z) (e : exn) :
  Stack.allocate sizeofT rev n st = Throw e st' -> st' = st.
Proof.
  intros H. destruct (allocates sizeofT (mem st) n) eqn:Hgr.
  - exfalso. destruct st as [o h]. cbn [mem] in Hgr. unfold Stack.allocate in H.
    rewrite (bind_Ret _ _ _ _ _ (new_array_eq sizeofT o h n Hgr)) in H.
    apply bind_Throw_inv in H as [H|(s & st1 & Hs & H)];
      [exact (size_no_throw rev _ _ _ H)|].
    apply size_Ret in Hs. subst st1.
    apply bind_Throw_inv in H as [H|(b & st1 & Hb & H)]; [discriminate H|].
    unfold get_base in Hb. inversion Hb; subst b st1; clear Hb.
    apply bind_Throw_inv in H as [H|(u & st1 & Hu & H)].
    + destruct (is_null _); [discriminate H|].
      apply bind_Throw_inv in H as [H|(c & st2 & Hc & H)]; [discriminate H|].
      apply bind_Throw_inv in H as [H|(u & st3 & Hu & H)];
        [exact (memcpy_no_throw _ _ _ _ _ _ H)
        |exact (delete_array_no_throw _ _ _ _ H)].
    + unfold bind, set_base, set_pointer, set_capacity in H. discriminate H.
  - rewrite (allocate_refused sizeofT rev st n Hgr) in H. inversion H. reflexivity.
Qed.

(** Where [allocate(n)] returns: the size is what it was, the capacity is
    [n], and the buffer is a block of [n] slots. *)
Lemma allocate_Ret_shape st st' (n : Z) :
  well_sized rev st -> 0 <= n ->
  Stack.allocate sizeofT rev n st = Ret tt st' ->
  exists d k cells,
    Stack.size rev st = Ret k st /\
    self st' = mkStack (Ptr d 0) (Ptr d k) n /\
    block (mem st') d = Some cells /\ Z.of_nat (length cells) = n.
Proof.
  intros Hws Hn H.
  destruct (well_sized_size rev st Hws)
    as (b & k & cap & Hst & Hk & Hcap & Hsz & Hblk).
  destruct st as [o h]. simpl in Hst. subst o. cbn [mem] in Hblk.
  destruct (allocates sizeofT h n) eqn:Hgr;
    [|rewrite (allocate_refused sizeofT rev
                 (mkState (mkStack (Ptr b 0) (Ptr b k) cap) h) n Hgr) in H;
      discriminate H].
  unfold Stack.allocate in H.
  rewrite (bind_Ret _ _ _ _ _ (new_array_eq sizeofT _ h n Hgr)) in H.
  set (fresh := replicate (Z.to_nat n) (@Indet T)) in *.
  set (h1 := h ++ [Some fresh]) in *.
  pose proof (size_state_of rev h1 b k cap ltac:(lia)) as Hsz1.
  unfold state_of in Hsz1.
  rewrite (bind_Ret _ _ _ _ _ Hsz1) in H.
  unfold bind at 1 in H. cbn [get_base self _base is_null] in H.
  apply bind_Ret_inv in H as ([] & st2 & Hcopy & H).
  apply bind_Ret_inv in Hcopy as (c & st1 & Hc & Hcopy).
  unfold get_capacity in Hc. inversion Hc; subst c st1; clear Hc.
  cbn [self _capacity] in Hcopy.
  apply bind_Ret_inv in Hcopy as ([] & st3 & Hm & Hdel).
  apply memcpy_Ret_blocks in Hm
    as (s & dcells & scells & Hsrc & Hne & Hd & Hs & Hb1 & Hb2 & ->).
  inversion Hsrc; subst s; clear Hsrc. cbn [mem self] in Hd, Hs, Hdel.
  assert (dcells = fresh) as ->.
  { unfold h1 in Hd. rewrite block_app_new in Hd. inversion Hd. reflexivity. }
  apply delete_array_Ret in Hdel as [-> _]. cbn [mem self] in H.
  unfold bind, set_base, set_pointer, set_capacity in H.
  cbn [self mem _base _pointer _capacity ptr_add] in H.
  inversion H; subst st'; clear H. cbn [self mem].
  eexists (length h), k, _.
  split; [exact Hsz|]. split; [reflexivity|]. split.
  - etransitivity; [apply block_insert_ne; congruence|].
    apply block_insert_eq. unfold h1. rewrite length_app. simpl. lia.
  - rewrite (copy_bytes_length sizeofT sizeofT_pos);
      [unfold fresh; rewrite length_replicate; lia
      |apply allocate_bytes_nonneg; exact Hn | exact Hb1 | exact Hb2].
Qed.

Lemma allocate_well_sized st st' (n s : Z) :
  well_sized rev st ->
  0 <= n < 2 ^ index_bits rev ->
  Stack.size rev st = Ret s st -> s <= n ->
  completes_in (Stack.allocate sizeofT rev n) st st' ->
  well_sized rev st'.
Proof.
  intros Hws Hn Hs Hle [[[] H]|[e H]].
  - destruct (allocate_Ret_shape st st' n Hws ltac:(lia) H)
      as (d & k & cells & Hsz & Hself & Hblk & Hlen).
    rewrite Hs in Hsz. inversion Hsz; subst k.
    destruct (well_sized_size rev st Hws) as (b & k & cap & _ & Hk & _ & Hsz' & _).
    rewrite Hs in Hsz'. inversion Hsz'; subst k.
    exists d, s, n. split; [exact Hself|]. split; [lia|]. split; [lia|].
    intros cells' Hc. rewrite Hblk in Hc. inversion Hc; subst cells'. exact Hlen.
  - apply allocate_Throw_inv in H. subst st'. exact Hws.
Qed.

(** *** copy *)

Lemma copy_Throw_inv st st' (e : exn) :
  0 <= _capacity (self st) ->
  Stack.copy sizeofT rev st = Throw e st' -> st' = st.
Proof.
  destruct st as [o h]. cbn [self]. intros Hcap H.
  destruct (allocates sizeofT h (_capacity o)) eqn:Hgr.
  - exfalso. unfold Stack.copy in H.
    unfold bind at 1 in H. cbn [Stack.capacity get_capacity self _capacity] in H.
    unfold bind at 1 in H. unfold on_object at 1 in H. cbn [mem self] in H.
    change (Stack.construct sizeofT rev (_capacity o) (mkState Stack.raw_object h))
      with (Stack.new_stack sizeofT rev (_capacity o) h) in H.
    rewrite (new_stack_eq sizeofT rev h _ Hcap Hgr) in H.
    unfold state_of in H. cbn [self mem snd _base _pointer _capacity] in H.
    unfold bind at 1 in H. cbn [get_base self _base] in H.
    apply bind_Throw_inv in H as [H|(u & st1 & Hm & H)];
      [exact (memcpy_no_throw _ _ _ _ _ _ H)|].
    apply bind_Throw_inv in H as [H|(s & st2 & Hs & H)];
      [exact (size_no_throw rev _ _ _ H) | discriminate H].
  - rewrite (copy_refused sizeofT rev (mkState o h) Hgr) in H.
    inversion H. reflexivity.
Qed.

(** Where [copy()] returns: the copy has the size and the capacity of the
    source and a block of its own with that many slots; the source and every
    other block are as they were. *)
Lemma copy_Ret_sized st st' (c : Stack) :
  0 <= _capacity (self st) ->
  Stack.copy sizeofT rev st = Ret c st' ->
  exists k cells,
    Stack.size rev st = Ret k st /\
    c = mkStack (Ptr (length (mem st)) 0) (Ptr (length (mem st)) k)
          (_capacity (self st)) /\
    self st' = self st /\
    block (mem st') (length (mem st)) = Some cells /\
    Z.of_nat (length cells) = _capacity (self st) /\
    other_blocks_kept (length (mem st)) (mem st) (mem st').
Proof.
  destruct st as [o h]. cbn [self mem]. intros Hcap H.
  destruct (allocates sizeofT h (_capacity o)) eqn:Hgr;
    [|rewrite (copy_refused sizeofT rev (mkState o h) Hgr) in H; discriminate H].
  unfold Stack.copy in H.
  unfold bind at 1 in H. cbn [Stack.capacity get_capacity self _capacity] in H.
  unfold bind at 1 in H. unfold on_object at 1 in H. cbn [mem self] in H.
  change (Stack.construct sizeofT rev (_capacity o) (mkState Stack.raw_object h))
    with (Stack.new_stack sizeofT rev (_capacity o) h) in H.
  rewrite (new_stack_eq sizeofT rev h _ Hcap Hgr) in H.
  set (fresh := replicate (Z.to_nat (_capacity o)) (@Indet T)) in *.
  set (h1 := h ++ [Some fresh]) in *.
  unfold state_of in H. cbn [self mem snd _base _pointer _capacity] in H.
  unfold bind at 1 in H. cbn [get_base self _base] in H.
  apply bind_Ret_inv in H as ([] & st1 & Hm & H).
  apply memcpy_Ret_blocks in Hm
    as (s & dcells & scells & Hsrc & Hne & Hd & Hs & Hb1 & Hb2 & ->).
  cbn [mem self] in Hd, Hs, H.
  assert (dcells = fresh) as ->.
  { unfold h1 in Hd. rewrite block_app_new in Hd. inversion Hd. reflexivity. }
  apply bind_Ret_inv in H as (k & st2 & Hk & H).
  pose proof (size_Ret rev _ _ _ Hk) as ->.
  unfold ret in H. cbn [ptr_add] in H. inversion H; subst c st'; clear H.
  cbn [self mem].
  exists k, (copy_bytes sizeofT fresh scells (to_size_t (_capacity o * sizeofT))).
  split; [|split; [|split; [|split; [|split]]]].
  - unfold Stack.size in Hk |- *. cbn [self] in Hk |- *.
    destruct (ptr_diff _ _); [|discriminate Hk]. inversion Hk. reflexivity.
  - reflexivity.
  - reflexivity.
  - apply block_insert_eq. unfold h1. rewrite length_app. simpl. lia.
  - rewrite (copy_bytes_length sizeofT sizeofT_pos);
      [unfold fresh; rewrite length_replicate; lia
      |unfold to_size_t, to_unsigned; apply Z.mod_pos_bound; reflexivity
      |exact Hb1 | exact Hb2].
  - intros b Hb. etransitivity; [apply block_insert_ne; congruence|].
    apply block_app_other. exact Hb.
Qed.

Lemma copy_well_sized st st' :
  well_sized rev st ->
  completes_in (Stack.copy sizeofT rev) st st' ->
  well_sized rev st'.
Proof.
  intros Hws [[c H]|[e H]].
  - destruct Hws as (b & k & cap & Hst & Hk & Hcap & Hblk).
    apply copy_Ret_sized in H
      as (k' & cells & _ & _ & Hself & Hnew & Hlen & Hkept);
      [|rewrite Hst; simpl; lia].
    rewrite Hst in Hlen. cbn [_capacity] in Hlen.
    exists b, k, cap. rewrite Hself.
    split; [exact Hst|]. split; [exact Hk|]. split; [exact Hcap|].
    intros cells' Hc. destruct (decide (b = length (mem st))) as [->|Hne].
    + rewrite Hnew in Hc. inversion Hc; subst cells'. exact Hlen.
    + rewrite (Hkept b Hne) in Hc. exact (Hblk _ Hc).
  - apply copy_Throw_inv in H; [subst st'; exact Hws|].
    destruct Hws as (b & k & cap & Hst & Hk & _). rewrite Hst. simpl. lia.
Qed.

Lemma copied_well_sized st st' (c : Stack) :
  well_sized rev st ->
  Stack.copy sizeofT rev st = Ret c st' ->
  well_sized rev (mkState c (mem st')).
Proof.
  intros Hws H.
  destruct (well_sized_size rev st Hws)
    as (b & k & cap & Hst & Hk & Hcap & Hsz & Hblk).
  apply copy_Ret_sized in H
    as (k' & cells & Hsz' & -> & _ & Hnew & Hlen & _);
    [|rewrite Hst; simpl; lia].
  rewrite Hsz in Hsz'. inversion Hsz'; subst k'.
  rewrite Hst in Hlen |- *. cbn [_capacity] in Hlen |- *.
  exists (length (mem st)), k, cap. cbn [self mem].
  split; [reflexivity|]. split; [exact Hk|]. split; [exact Hcap|].
  intros cells' Hc. rewrite Hnew in Hc. inversion Hc; subst cells'. exact Hlen.
Qed.

(** *** Construction *)

Lemma new_stack_well_sized h (n : Z) st :
  0 <= n < 2 ^ index_bits rev ->
  Stack.new_stack sizeofT rev n h = Ret tt st ->
  well_sized rev st.
Proof.
  intros Hn H.
  destruct (allocates sizeofT h n) eqn:Hgr;
    [|rewrite (new_stack_refused sizeofT rev h n Hgr) in H; discriminate H].
  rewrite (new_stack_eq sizeofT rev h n ltac:(lia) Hgr) in H.
  inversion H; subst st; clear H.
  exists (length h), 0, n. split; [reflexivity|]. split; [lia|]. split; [lia|].
  cbn [mem state_of]. intros cells Hc. rewrite block_app_new in Hc.
  inversion Hc; subst cells. rewrite length_replicate. lia.
Qed.

(** *** Copy-assignment and the copy constructor *)

(** Where [operator=] returns, the destination has the size and the
    capacity of the source (and a released buffer), whatever its members
    were before. *)
Lemma assign_Ret_sized (src : Stack) st st' :
  (exists h, well_sized rev (mkState src h)) ->
  Stack.assign sizeofT rev src st = Ret tt st' ->
  well_sized rev st'.
Proof.
  intros (h0 & b & k & cap & Hsrc & Hk & Hcap & _) H.
  cbn [self] in Hsrc. subst src.
  unfold Stack.assign in H.
  apply bind_Ret_inv in H as (p & st0 & Hp & H).
  unfold get_base in Hp. inversion Hp; subst p st0; clear Hp.
  apply bind_Ret_inv in H as ([] & st1 & _ & H).
  apply bind_Ret_inv in H as ([c o] & st2 & Hcopy & H).
  unfold on_object in Hcopy.
  destruct (Stack.copy sizeofT rev
              (mkState (mkStack (Ptr b 0) (Ptr b k) cap) (mem st1)))
    as [c' stc| |] eqn:Hc; try discriminate Hcopy.
  inversion Hcopy; subst c' o st2; clear Hcopy.
  apply copy_Ret_sized in Hc
    as (k' & cells & Hsz & -> & _ & Hnew & _ & _); [|simpl; lia].
  cbn [self mem _capacity] in Hsz, Hnew, H.
  pose proof (size_state_of rev (mem st1) b k cap ltac:(lia)) as Hsz1.
  unfold state_of in Hsz1. rewrite Hsz1 in Hsz. inversion Hsz; subst k'.
  cbn [fst] in H.
  unfold bind at 1 in H. cbn [set_base] in H.
  unfold bind at 1 in H. cbn [set_pointer self mem _base _pointer _capacity] in H.
  unfold bind at 1 in H. cbn [set_capacity self mem _base _pointer _capacity] in H.
  unfold bind at 1, on_object, Stack.destruct_ in H.
  cbn [self mem] in H. unfold bind at 1 in H. cbn [get_base self _base] in H.
  unfold delete_array in H. cbn [mem] in H.
  rewrite Hnew in H. simpl in H. inversion H; subst st'; clear H.
  exists (length (mem st1)), k, cap. cbn [self mem].
  split; [reflexivity|]. split; [exact Hk|]. split; [exact Hcap|].
  intros cells' Hc'.
  rewrite (block_insert_eq _ _ None (block_lt _ _ _ Hnew)) in Hc'.
  discriminate Hc'.
Qed.

(** Where [operator=] throws, the members are what they were and the old
    buffer, at most, has been released. *)
Lemma assign_Throw_kept (src : Stack) st st' (e : exn) :
  0 <= _capacity src ->
  Stack.assign sizeofT rev src st = Throw e st' ->
  self st' = self st /\ lengths_kept (mem st) (mem st').
Proof.
  intros Hcap H. unfold Stack.assign in H.
  apply bind_Throw_inv in H as [H|(p & st0 & Hp & H)]; [discriminate H|].
  unfold get_base in Hp. inversion Hp; subst p st0; clear Hp.
  apply bind_Throw_inv in H as [H|([] & st1 & Hrel & H)];
    [destruct (release_no_throw _ _ _ _ H)|].
  apply release_kept in Hrel as [Hself Hkept].
  apply bind_Throw_inv in H as [H|([c o] & st2 & Hcopy & H)].
  - unfold on_object in H.
    destruct (Stack.copy sizeofT rev (mkState src (mem st1)))
      as [c' stc|e' stc|] eqn:Hc; try discriminate H.
    inversion H; subst e' st'; clear H.
    apply copy_Throw_inv in Hc; [|exact Hcap]. subst stc. cbn [self mem].
    split; [exact Hself | exact Hkept].
  - exfalso. cbn [fst] in H.
    unfold bind at 1 in H. cbn [set_base] in H.
    unfold bind at 1 in H. cbn [set_pointer] in H.
    unfold bind at 1 in H. cbn [set_capacity] in H.
    apply bind_Throw_inv in H as [H|(r & st3 & _ & H)]; [|discriminate H].
    unfold on_object, Stack.destruct_ in H.
    unfold bind at 1 in H. cbn [get_base] in H.
    destruct (delete_array _ _) as [u st4|e' st4|] eqn:Hd; try discriminate H.
    exact (delete_array_no_throw _ _ _ _ Hd).
Qed.

Lemma assign_well_sized (src : Stack) st st' :
  well_sized rev st -> well_sized rev (mkState src (mem st)) ->
  completes_in (Stack.assign sizeofT rev src) st st' ->
  well_sized rev st'.
Proof.
  intros Hws Hsrc [[[] H]|[e H]].
  - apply (assign_Ret_sized src st st'); [exists (mem st); exact Hsrc | exact H].
  - apply assign_Throw_kept in H as [Hself Hkept].
    + exact (well_sized_kept rev st st' Hws Hself Hkept).
    + destruct Hsrc as (b & k & cap & Hs & Hk & _). cbn [self] in Hs.
      rewrite Hs. simpl. lia.
Qed.

(** *** Every reachable state *)

Lemma call_well_sized st st' :
  well_sized rev st -> call sizeofT rev st st' -> well_sized rev st'.
Proof.
  intros Hws Hcall.
  destruct Hcall as
    [x st st' Hc|st st' Hc|st st' Hc|n st st' Hc|n st st' Hc|st st' Hc
    |st st' Hc|st st' Hc|st st' Hc|st st' Hc|st st' Hc|st st' Hc|st st' Hc
    |st st' Hc|st st' Hc|n s st st' Hn Hs Hle Hc|st st' Hc].
  - exact (keeps_push rev x st st' Hws Hc).
  - exact (keeps_pop rev st st' Hws Hc).
  - exact (keeps_peek rev st st' Hws Hc).
  - exact (keeps_pick rev n st st' Hws Hc).
  - exact (keeps_roll rev n st st' Hws Hc).
  - exact (keeps_pick rev 0 st st' Hws Hc).
  - exact (keeps_drop rev st st' Hws Hc).
  - exact (keeps_roll rev 1 st st' Hws Hc).
  - exact (keeps_pick rev 1 st st' Hws Hc).
  - exact (keeps_roll rev 2 st st' Hws Hc).
  - exact (keeps_nip rev st st' Hws Hc).
  - exact (keeps_tuck rev st st' Hws Hc).
  - exact (keeps_clear rev st st' Hws Hc).
  - exact (keeps_size rev st st' Hws Hc).
  - exact (keeps_capacity rev st st' Hws Hc).
  - exact (allocate_well_sized st st' n s Hws Hn Hs Hle Hc).
  - exact (copy_well_sized st st' Hws Hc).
Qed.

Lemma reachable_well_sized st :
  reachable sizeofT rev st -> well_sized rev st.
Proof.
  induction 1 as
    [h n st Hn Hnew
    |junk src h st Hsrc IHsrc Hcc
    |c st st' Hst IHst Hcopy
    |st st' Hst IHst Hcall
    |src st st' Hst IHst Hsrc IHsrc Hassign
    |o h h' b Hst IHst Hbase Hsame].
  - exact (new_stack_well_sized h n st Hn Hnew).
  - unfold Stack.copy_construct in Hcc.
    apply (assign_Ret_sized src (mkState junk h) st); [exists h; exact IHsrc | exact Hcc].
  - exact (copied_well_sized st st' c IHst Hcopy).
  - exact (call_well_sized st st' IHst Hcall).
  - exact (assign_well_sized src st st' IHst IHsrc Hassign).
  - exact (well_sized_frame rev o h h' b IHst Hbase Hsame).
Qed.

(** C4, amended.  In every state that a program reaches, [size()] is at
    most [capacity()] (and not negative): the states of an object made by
    [Stack(n)], by the copy constructor or by [copy()], and used through
    calls that complete (they return or throw) of [push], [pop], [peek],
    [pick(n)], [roll(n)], the derived primitives, [clear], [size],
    [capacity], [copy], copy-assignment (from another object or from
    itself) and [allocate(n)] with [n] at least the size.  The restriction
    on [allocate] is needed: on a reachable state of size [s], a call
    [allocate(n)] with [n < s] that returns keeps the size and sets the
    capacity to [n], that is it leaves [size() > capacity()]. *)
Theorem C4_size_le_capacity st :
  reachable sizeofT rev st ->
  size_le_capacity rev st /\
  (forall n s st',
     0 <= n < s ->
     Stack.size rev st = Ret s st ->
     Stack.allocate sizeofT rev n st = Ret tt st' ->
     Stack.size rev st' = Ret s st' /\
     Stack.capacity st' = Ret n st' /\
     ~ size_le_capacity rev st').
Proof.
  intros Hreach. pose proof (reachable_well_sized st Hreach) as Hws.
  split; [exact (well_sized_size_le_capacity rev st Hws)|].
  intros n s st' Hn Hs Halloc.
  destruct (allocate_Ret_shape st st' n Hws ltac:(lia) Halloc)
    as (d & k & cells & Hsz & Hself & _ & _).
  rewrite Hs in Hsz. inversion Hsz; subst k.
  destruct (well_sized_size rev st Hws) as (b & k & cap & _ & Hk & Hcap & Hsz' & _).
  rewrite Hs in Hsz'. inversion Hsz'; subst k.
  assert (Hsize' : Stack.size rev st' = Ret s st').
  { destruct st' as [o' h']. cbn [self] in Hself. subst o'.
    apply (size_state_of rev h' d s n). lia. }
  split; [exact Hsize'|]. split.
  - unfold Stack.capacity, get_capacity. rewrite Hself. reflexivity.
  - intros (s' & Hs' & Hle). rewrite Hsize' in Hs'. inversion Hs'; subst s'.
    rewrite Hself in Hle. simpl in Hle. lia.
Qed.

End ReachableStates.

Lemma C4_size_le_capacity_witness :
  let st := int_state rev_unsigned 4 [1; 2; 3] in
  let st3 := state_after (Stack.allocate 4 rev_unsigned 3 st) in
  let st2 := state_after (Stack.allocate 4 rev_unsigned 2 st) in
  reachable 4 rev_unsigned st /\
  reachable 4 rev_unsigned st3 /\
  size_le_capacity rev_unsigned st3 /\
  Stack.allocate 4 rev_unsigned 2 st = Ret tt st2 /\
  ~ size_le_capacity rev_unsigned st2.
Proof.
  cbv zeta.
  set (st0 := state_after (Stack.new_stack 4 rev_unsigned 4 [])).
  assert (H0 : reachable 4 rev_unsigned st0).
  { apply (reach_construct 4 rev_unsigned [] 4 st0);
      [split; [lia | reflexivity] | vm_compute; reflexivity]. }
  set (st1 := state_after (Stack.push rev_unsigned 1 st0)).
  assert (H1 : reachable 4 rev_unsigned st1).
  { apply (reach_call 4 rev_unsigned st0 st1 H0), (call_push 4 rev_unsigned 1).
    left. exists tt. vm_compute. reflexivity. }
  set (st2 := state_after (Stack.push rev_unsigned 2 st1)).
  assert (H2 : reachable 4 rev_unsigned st2).
  { apply (reach_call 4 rev_unsigned st1 st2 H1), (call_push 4 rev_unsigned 2).
    left. exists tt. vm_compute. reflexivity. }
  assert (H3 : reachable 4 rev_unsigned (int_state rev_unsigned 4 [1; 2; 3])).
  { apply (reach_call 4 rev_unsigned st2 _ H2), (call_push 4 rev_unsigned 3).
    left. exists tt. vm_compute. reflexivity. }
  assert (H4 : reachable 4 rev_unsigned
                 (state_after (Stack.allocate 4 rev_unsigned 3
                                 (int_state rev_unsigned 4 [1; 2; 3])))).
  { apply (reach_call 4 rev_unsigned _ _ H3),
      (call_allocate 4 rev_unsigned 3 3);
      [split; [lia | reflexivity] | vm_compute; reflexivity | lia|].
    left. exists tt. vm_compute. reflexivity. }
  split; [exact H3|]. split; [exact H4|].
  split; [exact (proj1 (C4_size_le_capacity 4 ltac:(lia) rev_unsigned _ H4))|].
  assert (Ha : Stack.allocate 4 rev_unsigned 2 (int_state rev_unsigned 4 [1; 2; 3])
               = Ret tt (state_after (Stack.allocate 4 rev_unsigned 2
                                        (int_state rev_unsigned 4 [1; 2; 3]))))
    by (vm_compute; reflexivity).
  split; [exact Ha|].
  assert (Hs : Stack.size rev_unsigned (int_state rev_unsigned 4 [1; 2; 3])
               = Ret 3 (int_state rev_unsigned 4 [1; 2; 3]))
    by (vm_compute; reflexivity).
  exact (proj2 (proj2 (proj2 (C4_size_le_capacity 4 ltac:(lia) rev_unsigned _ H3)
                         2 3 _ ltac:(lia) Hs Ha))).
Defined.

(** ** The copy constructor *)

Section CopyConstructor.
Context {T : Type} `{!Allocator T}.
Variable sizeofT : Z.
Variable rev : revision.
Implicit Types (st : state T) (h : heap T).

(** X18.  The copy constructor runs [operator=] on members that nothing has
    set.  If the storage of the new object holds, as [_base], a pointer that
    is not null and does not point into an allocated block, construction is
    undefined ([delete[]] of that pointer); and whenever the copy constructor
    returns, the buffer of the new object is a released block (the local
    [copy] of [operator=] has been destroyed), so that destroying the new
    object is undefined. *)
Theorem copy_constructor_defect (junk src : Stack) h :
  (forall d off, _base junk = Ptr d off -> block h d = None ->
     Stack.copy_construct sizeofT rev junk src h = Undefined) /\
  (forall st, Stack.copy_construct sizeofT rev junk src h = Ret tt st ->
     buffer st = None /\ Stack.destruct_ st = Undefined).
Proof.
  split.
  - intros d off Hbase Hgone. unfold Stack.copy_construct, Stack.assign.
    unfold bind at 1. cbn [get_base self]. rewrite Hbase. cbn [is_null].
    apply bind_Undefined. unfold delete_array. cbn [mem]. rewrite Hgone.
    reflexivity.
  - intros st H. unfold Stack.copy_construct in H.
    apply assign_Ret_shape in H as (d & k & cap & Hself & Hgone). split.
    + unfold buffer. rewrite Hself. exact Hgone.
    + unfold Stack.destruct_. unfold bind. cbn [get_base]. rewrite Hself. simpl.
      unfold delete_array. rewrite Hgone. reflexivity.
Qed.

End CopyConstructor.

Lemma copy_constructor_defect_witness :
  let src := int_state rev_unsigned 2 [7] in
  let junk := mkStack (Ptr 7 0) (Ptr 7 0) 0 in
  (_base junk = Ptr 7 0 /\ block (mem src) 7 = None /\
   Stack.copy_construct 4 rev_unsigned junk (self src) (mem src) = Undefined) /\
  exists st,
    Stack.copy_construct 4 rev_unsigned Stack.raw_object (self src) (mem src)
    = Ret tt st /\
    buffer st = None /\ Stack.destruct_ st = Undefined.
Proof.
  cbv zeta. split.
  - assert (Hbase : _base (mkStack (Ptr 7 0) (Ptr 7 0) 0) = Ptr 7 0) by reflexivity.
    assert (Hgone : block (mem (int_state rev_unsigned 2 [7])) 7 = None)
      by reflexivity.
    split; [exact Hbase|]. split; [exact Hgone|].
    exact (proj1 (copy_constructor_defect 4 rev_unsigned
                    (mkStack (Ptr 7 0) (Ptr 7 0) 0)
                    (self (int_state rev_unsigned 2 [7]))
                    (mem (int_state rev_unsigned 2 [7]))) 7%nat 0 Hbase Hgone).
  - assert (Hret : Stack.copy_construct 4 rev_unsigned Stack.raw_object
                     (self (int_state rev_unsigned 2 [7]))
                     (mem (int_state rev_unsigned 2 [7]))
                   = Ret tt (state_after
                               (Stack.copy_construct 4 rev_unsigned Stack.raw_object
                                  (self (int_state rev_unsigned 2 [7]))
                                  (mem (int_state rev_unsigned 2 [7])))))
      by (vm_compute; reflexivity).
    eexists. split; [exact Hret|].
    exact (proj2 (copy_constructor_defect 4 rev_unsigned Stack.raw_object
                    (self (int_state rev_unsigned 2 [7]))
                    (mem (int_state rev_unsigned 2 [7]))) _ Hret).
Defined.

End StackProofs.
